(** * go-nfs: handle cache, verifier cache and the RENAME handler

    A shallow embedding of [helpers/cachinghandler.go] and
    [nfs_onrename.go], followed by the properties of the handle cache
    (forward LRU map and reverse index), of the directory-listing verifier
    and of the rename operation.

    Conventions of the embedding.
    - A Go [string] is a sequence of bytes: Rocq's [string].
    - A Go [[]string] stored in the cache is a [StringSlice]: the identity of
      its backing array together with its elements, so that "a copy" and
      "the same slice" are different things.
    - [uuid.New()] and [make] draw from the environment: the operations take
      the drawn UUID and the address of the new backing array as arguments.
    - [billy.Filesystem] is an interface: the backends form a type
      [Filesystem] with a decidable equality (what [reflect.DeepEqual]
      computes on two backend references) and a method [Join].
    - hashicorp's [lru.Cache] is the list of its entries, most recently used
      first, with its capacity. *)

From Stdlib Require Import ZArith Lia.
From Stdlib Require Import Strings.Byte.
From stdpp Require Import base option list strings gmap.

Local Open Scope Z_scope.

(** ** The LRU cache of [github.com/hashicorp/golang-lru/v2] *)

Module lru.
Section Cache.
Context {K V : Type} `{EqDecision K}.

(** [items] is the eviction list, front (most recently used) first. *)
Record Cache := mk { size : nat; items : list (K * V) }.

(** [lru.New]: a size that is not positive is an error. *)
Definition New (sz : Z) : option Cache :=
  if sz <=? 0 then None else Some (mk (Z.to_nat sz) []).

Fixpoint find (k : K) (l : list (K * V)) : option V :=
  match l with
  | [] => None
  | (k', v) :: l' => if decide (k' = k) then Some v else find k l'
  end.

Definition del (k : K) (l : list (K * V)) : list (K * V) :=
  filter (λ kv, kv.1 ≠ k) l.

(** [Peek]: the value, recency untouched. *)
Definition Peek (c : Cache) (k : K) : option V := find k (items c).

(** [Get]: the value, and the entry moves to the front. *)
Definition Get (c : Cache) (k : K) : Cache * option V :=
  match find k (items c) with
  | Some v => (mk (size c) ((k, v) :: del k (items c)), Some v)
  | None => (c, None)
  end.

(** [Add]: an existing key is moved to the front with its new value and
    nothing is evicted; a new key is pushed to the front, and the oldest
    entry is removed when the list has grown beyond [size]. *)
Definition Add (c : Cache) (k : K) (v : V) : Cache * bool :=
  match find k (items c) with
  | Some _ => (mk (size c) ((k, v) :: del k (items c)), false)
  | None =>
      let l := (k, v) :: items c in
      if (size c <? length l)%nat
      then (mk (size c) (removelast l), true)
      else (mk (size c) l, false)
  end.

(** [Remove]: drops the key; reports whether it was present. *)
Definition Remove (c : Cache) (k : K) : Cache * bool :=
  match find k (items c) with
  | Some _ => (mk (size c) (del k (items c)), true)
  | None => (c, false)
  end.

(** [Keys]: oldest to newest. *)
Definition Keys (c : Cache) : list K := rev (items c).*1.

(** [GetOldest]: the back of the list, recency untouched. *)
Definition GetOldest (c : Cache) : option (K * V) := last (items c).

Definition Len (c : Cache) : nat := length (items c).

(** What the library maintains: one entry per key, a positive capacity,
    never more entries than the capacity. *)
Definition wf (c : Cache) : Prop :=
  NoDup (items c).*1 ∧ (1 ≤ size c)%nat ∧ (length (items c) ≤ size c)%nat.
End Cache.
Arguments Cache : clear implicits.
End lru.

(** ** Go values *)

(** [uuid.UUID] is [[16]byte]. *)
Definition UUID := list byte.

#[global] Instance byte_eq_decision : EqDecision byte := byte_eq_dec.

Definition uuid_Nil : UUID := replicate 16 x00.

(** [uuid.FromBytes]: the slice must hold 16 bytes; on error the zero UUID
    comes back with the error. *)
Inductive uuid_error := ErrInvalidLength.

Definition uuid_FromBytes (b : list byte) : UUID * option uuid_error :=
  if decide (length b = 16%nat) then (b, None) else (uuid_Nil, Some ErrInvalidLength).

(** [id.MarshalBinary()] and [id[:]]. *)
Definition uuid_MarshalBinary (id : UUID) : list byte := id.

(** A [[]string] with the identity of its backing array. *)
Record StringSlice := mkSlice { arr : nat; elems : list string }.

(** [make([]string, len(src))] at address [a], then [copy]. *)
Definition make_copy (a : nat) (src : list string) : StringSlice := mkSlice a src.

(** [fs.FileInfo], with the two methods the code calls. *)
Record FileInfo := mkFileInfo { Name : string; IsDir : bool }.

Inductive NFSStatus :=
  | NFSStatusOk | NFSStatusInval | NFSStatusStale | NFSStatusNotSupp
  | NFSStatusROFS | NFSStatusNameTooLong | NFSStatusNoEnt | NFSStatusNotDir
  | NFSStatusAccess | NFSStatusIO | NFSStatusServerFault.

#[global] Instance NFSStatus_eq_dec : EqDecision NFSStatus.
Proof. solve_decision. Defined.

(** What [fs.Stat] and [fs.Rename] answer: the info or the kind of the
    error ([os.IsNotExist], [os.IsPermission], anything else). *)
Inductive StatResult := StatInfo (info : FileInfo) | StatNotExist | StatError.
Inductive RenameResult := RenameOk | RenameNotExist | RenamePermission | RenameError.

(** [func hasPrefix(path, prefix []string) bool] *)
Fixpoint hasPrefix_loop (path prefix : list string) {struct prefix} : bool :=
  match prefix with
  | [] => true
  | e :: prefix' =>
      match path with
      | x :: path' => if decide (x = e) then hasPrefix_loop path' prefix' else false
      | [] => false
      end
  end.

Definition hasPrefix (path prefix : list string) : bool :=
  if (length path <? length prefix)%nat then false else hasPrefix_loop path prefix.

(** ** Backends for the examples *)

(** The backends are numbered; every one joins the elements of a path with
    a slash, as [filepath.Join] does on clean, non-empty elements. *)
Definition exampleJoin (_ : nat) (elem : list string) : string := String.concat "/" elem.

Definition exampleUUID (n : N) : UUID := replicate 15 x00 ++ [default x00 (Byte.of_N n)].

(** A storage is the list of its paths, each a directory or not. *)
Definition exampleStat (_ : nat) (w : list (string * bool)) (name : string) : StatResult :=
  match list_find (λ kv, kv.1 = name) w with
  | Some (_, (_, dir)) => StatInfo (mkFileInfo name dir)
  | None => StatNotExist
  end.

Definition exampleRename (_ : nat) (w : list (string * bool)) (fromLoc toLoc : string)
  : list (string * bool) * RenameResult :=
  match list_find (λ kv, kv.1 = fromLoc) w with
  | Some _ => ((λ kv, if decide (kv.1 = fromLoc) then (toLoc, kv.2) else kv) <$> w, RenameOk)
  | None => (w, RenameNotExist)
  end.

(** Backends that do not join alike: backend 2 separates the elements
    with a backslash, the others with a slash. *)
Definition exampleJoinSep (fs : nat) (elem : list string) : string :=
  String.concat (if decide (fs = 2%nat) then "\" else "/") elem.

(** A stand-in for SHA-256: 32 bytes computed from the input. *)
Definition exampleSha (b : list byte) : list byte := take 32 (b ++ replicate 32 x00).

(** ** The handle cache *)

Section Model.
Set Default Proof Using "Type".

Context {Filesystem : Type} `{EqDecision Filesystem}.
(** [f.Join(path...)] *)
Variable Join : Filesystem → list string → string.

Record entry := mkEntry { entry_f : Filesystem; entry_p : StringSlice }.

Record verifier := mkVerifier { verifier_path : string; verifier_contents : option (list FileInfo) }.

Record CachingHandler := mkHandler {
  activeHandles : lru.Cache UUID entry;
  reverseHandles : gmap string (list UUID);
  activeVerifiers : lru.Cache Z verifier;
  cacheLimit : Z;
}.

(** [NewCachingHandlerWithVerifierLimit]. A limit below 1 makes [lru.New]
    fail; the Go constructor drops that error and keeps the nil cache, on
    which every later call panics: no handler is modelled for it. The
    warning logged for limits below 2 has no effect on the state. *)
Definition NewCachingHandlerWithVerifierLimit (limit verifierLimit : Z)
  : option CachingHandler :=
  match lru.New limit, lru.New verifierLimit with
  | Some cache, Some verifiers => Some (mkHandler cache ∅ verifiers limit)
  | _, _ => None
  end.

Definition NewCachingHandler (limit : Z) : option CachingHandler :=
  NewCachingHandlerWithVerifierLimit limit limit.

(** The handler that [NewCachingHandler] returns for a capacity of
    [limit] entries. *)
Definition emptyCache (limit : nat) : CachingHandler :=
  mkHandler (lru.mk limit []) ∅ (lru.mk limit []) (Z.of_nat limit).

Definition set_activeHandles (c : CachingHandler) ah : CachingHandler :=
  mkHandler ah (reverseHandles c) (activeVerifiers c) (cacheLimit c).
Definition set_reverseHandles (c : CachingHandler) rh : CachingHandler :=
  mkHandler (activeHandles c) rh (activeVerifiers c) (cacheLimit c).
Definition set_activeVerifiers (c : CachingHandler) av : CachingHandler :=
  mkHandler (activeHandles c) (reverseHandles c) av (cacheLimit c).

(** The loop of [searchReverseCache]: every candidate is fetched with
    [Get], which refreshes it. *)
Fixpoint searchReverseCache_loop (ah : lru.Cache UUID entry) (fs : Filesystem)
    (uuids : list UUID) : lru.Cache UUID entry * option (list byte) :=
  match uuids with
  | [] => (ah, None)
  | id :: rest =>
      match lru.Get ah id with
      | (ah', Some candidate) =>
          if decide (entry_f candidate = fs) then (ah', Some id)
          else searchReverseCache_loop ah' fs rest
      | (ah', None) => searchReverseCache_loop ah' fs rest
      end
  end.

Definition searchReverseCache (c : CachingHandler) (fs : Filesystem) (path : string)
  : CachingHandler * option (list byte) :=
  match reverseHandles c !! path with
  | None => (c, None)
  | Some uuids =>
      let '(ah, r) := searchReverseCache_loop (activeHandles c) fs uuids in
      (set_activeHandles c ah, r)
  end.

(** The loop of [evictReverseCache]: the bucket without the first
    occurrence of [handle], if there is one. *)
Fixpoint remove_first (handle : UUID) (uuids : list UUID) : option (list UUID) :=
  match uuids with
  | [] => None
  | u :: rest =>
      if decide (u = handle) then Some rest
      else (u ::.) <$> remove_first handle rest
  end.

Definition evictReverseCache (c : CachingHandler) (path : string) (handle : UUID)
  : CachingHandler :=
  match reverseHandles c !! path with
  | None => c
  | Some uuids =>
      match remove_first handle uuids with
      | Some uuids' => set_reverseHandles c (<[path := uuids']> (reverseHandles c))
      | None => c
      end
  end.

(** [c.reverseHandles[path] = append(c.reverseHandles[path], id)], the
    bucket being created empty when missing. *)
Definition appendReverse (c : CachingHandler) (path : string) (id : UUID)
  : CachingHandler :=
  let bucket := default [] (reverseHandles c !! path) in
  set_reverseHandles c (<[path := bucket ++ [id]]> (reverseHandles c)).

Definition joined (e : entry) : string := Join (entry_f e) (elems (entry_p e)).

(** [ToHandle] after the search has found nothing: the new handle [id] is
    added, the entry that [Add] evicts leaves the reverse index, and [id]
    joins the bucket of its path. *)
Definition ToHandle_mint (c : CachingHandler) (fs : Filesystem) (path : list string)
    (joinedPath : string) (id : UUID) (a : nat) : CachingHandler * list byte :=
  let newPath := make_copy a path in
  let oldest := lru.GetOldest (activeHandles c) in
  let '(ah, evicted) := lru.Add (activeHandles c) id (mkEntry fs newPath) in
  let c := set_activeHandles c ah in
  let c :=
    match evicted, oldest with
    | true, Some (evictedKey, evictedPath) =>
        evictReverseCache c (joined evictedPath) evictedKey
    | _, _ => c
    end in
  let c := appendReverse c joinedPath id in
  (c, uuid_MarshalBinary id).

(** [ToHandle]; [id] is what [uuid.New()] returns and [a] the array that
    [make] allocates for [newPath]. *)
Definition ToHandle (c : CachingHandler) (fs : Filesystem) (path : list string)
    (id : UUID) (a : nat) : CachingHandler * list byte :=
  let joinedPath := Join fs path in
  match searchReverseCache c fs joinedPath with
  | (c, Some handle) => (c, handle)
  | (c, None) => ToHandle_mint c fs path joinedPath id a
  end.

Inductive FromHandleResult :=
  | Resolved (fs : Filesystem) (path : StringSlice)
  | BadHandle (err : uuid_error)
  | Stale.

(** One turn of the refresh loop of [FromHandle]. A key that [Peek] does
    not find gives the zero entry, whose path is empty. *)
Definition refresh_step (fp : list string) (ah : lru.Cache UUID entry) (k : UUID)
  : lru.Cache UUID entry :=
  let candidate_p :=
    match lru.Peek ah k with Some candidate => elems (entry_p candidate) | None => [] end in
  if hasPrefix fp candidate_p then (lru.Get ah k).1 else ah.

(** [FromHandle]; [a] is the array allocated for the returned copy. *)
Definition FromHandle (c : CachingHandler) (fh : list byte) (a : nat)
  : CachingHandler * FromHandleResult :=
  match uuid_FromBytes fh with
  | (_, Some err) => (c, BadHandle err)
  | (id, None) =>
      match lru.Get (activeHandles c) id with
      | (ah, Some e) =>
          let ah := fold_left (refresh_step (elems (entry_p e))) (lru.Keys ah) ah in
          (set_activeHandles c ah, Resolved (entry_f e) (make_copy a (elems (entry_p e))))
      | (ah, None) => (set_activeHandles c ah, Stale)
      end
  end.

(** [InvalidateHandle]; it always returns nil. *)
Definition InvalidateHandle (c : CachingHandler) (fs : Filesystem) (handle : list byte)
  : CachingHandler :=
  let id := (uuid_FromBytes handle).1 in
  let '(ah, r) := lru.Get (activeHandles c) id in
  let c := set_activeHandles c ah in
  let c :=
    match r with
    | Some e => evictReverseCache c (joined e) id
    | None => c
    end in
  set_activeHandles c (lru.Remove (activeHandles c) id).1.

Inductive UpdateHandleError := UpdateBadHandle (err : uuid_error) | UpdateStale.

(** [UpdateHandle]; [a] is the array allocated for [newPathCopy]. *)
Definition UpdateHandle (c : CachingHandler) (fs : Filesystem) (handle : list byte)
    (newPath : list string) (a : nat) : CachingHandler * option UpdateHandleError :=
  match uuid_FromBytes handle with
  | (_, Some err) => (c, Some (UpdateBadHandle err))
  | (id, None) =>
      match lru.Get (activeHandles c) id with
      | (ah, None) => (set_activeHandles c ah, Some UpdateStale)
      | (ah, Some oldEntry) =>
          let c := set_activeHandles c ah in
          let c := evictReverseCache c (joined oldEntry) id in
          let newPathCopy := make_copy a newPath in
          let c := set_activeHandles c
                     (lru.Add (activeHandles c) id (mkEntry fs newPathCopy)).1 in
          let c := appendReverse c (Join fs newPath) id in
          (c, None)
      end
  end.

(** The loop of [UpdateHandlesByPath] over the copied bucket. *)
Fixpoint UpdateHandlesByPath_loop (c : CachingHandler) (oldPathJoined newPathJoined : string)
    (newPathCopy : StringSlice) (uuidsCopy : list UUID) (updated : Z)
  : CachingHandler * Z :=
  match uuidsCopy with
  | [] => (c, updated)
  | id :: rest =>
      match lru.Get (activeHandles c) id with
      | (ah, None) =>
          UpdateHandlesByPath_loop (set_activeHandles c ah) oldPathJoined newPathJoined
            newPathCopy rest updated
      | (ah, Some oldEntry) =>
          let c := set_activeHandles c ah in
          let c := evictReverseCache c oldPathJoined id in
          let c := set_activeHandles c
                     (lru.Add (activeHandles c) id (mkEntry (entry_f oldEntry) newPathCopy)).1 in
          let c := appendReverse c newPathJoined id in
          UpdateHandlesByPath_loop c oldPathJoined newPathJoined newPathCopy rest
            (updated + 1)
      end
  end.

(** [UpdateHandlesByPath]; [a] is the array allocated for [newPathCopy]. *)
Definition UpdateHandlesByPath (c : CachingHandler) (fs : Filesystem)
    (oldPath newPath : list string) (a : nat) : CachingHandler * Z :=
  let oldPathJoined := Join fs oldPath in
  match reverseHandles c !! oldPathJoined with
  | None => (c, 0)
  | Some uuids =>
      if decide (length uuids = 0%nat) then (c, 0)
      else
        let uuidsCopy := uuids in
        let newPathJoined := Join fs newPath in
        let newPathCopy := make_copy a newPath in
        UpdateHandlesByPath_loop c oldPathJoined newPathJoined newPathCopy uuidsCopy 0
  end.

Definition HandleLimit (c : CachingHandler) : Z := cacheLimit c.

(** *** Consistency of the forward map and the reverse index *)

(** The forward map, read without refreshing. *)
Definition lookup_handle (c : CachingHandler) (id : UUID) : option entry :=
  lru.Peek (activeHandles c) id.

Definition in_bucket (c : CachingHandler) (k : string) (id : UUID) : Prop :=
  ∃ b, reverseHandles c !! k = Some b ∧ id ∈ b.

(** The handles filed under [k]; a missing bucket holds none. *)
Definition bucket (c : CachingHandler) (k : string) : list UUID :=
  default [] (reverseHandles c !! k).

(** The candidates that [searchReverseCache] accepts: live, and of a
    backend equal to the one asked for. *)
Definition is_match (ah : lru.Cache UUID entry) (fs : Filesystem) (id : UUID) : bool :=
  match lru.Peek ah id with
  | Some candidate => bool_decide (entry_f candidate = fs)
  | None => false
  end.

(** What [UpdateHandlesByPath] makes of an entry: the same backend, the
    new path. *)
Definition retargeted (newPathCopy : StringSlice) (e : entry) : entry :=
  mkEntry (entry_f e) newPathCopy.

(** The backends of the handles filed under [oldPath] join [newPath] as
    the backend of the call does. *)
Definition joins_alike (c : CachingHandler) (fs : Filesystem)
    (oldPath newPath : list string) : Prop :=
  ∀ id e, lookup_handle c id = Some e → joined e = Join fs oldPath →
    Join (entry_f e) newPath = Join fs newPath.

Definition buckets_nodup (c : CachingHandler) : Prop :=
  ∀ k b, reverseHandles c !! k = Some b → NoDup b.

(** A handle is filed under a path exactly when the forward map holds it
    with an entry that joins to that path; no bucket lists a handle twice;
    the handles are UUIDs. *)
Record Inv (c : CachingHandler) : Prop := mkInv {
  inv_lru : lru.wf (activeHandles c);
  inv_uuid : ∀ id e, lookup_handle c id = Some e → length id = 16%nat;
  inv_index : ∀ k id,
    in_bucket c k id ↔ ∃ e, lookup_handle c id = Some e ∧ joined e = k;
  inv_nodup : buckets_nodup c;
}.

(** ** The verifier cache *)

Section Verifier.
(** [crypto/sha256]: the digest of all the bytes written to the hash. *)
Variable sha256_Sum : list byte → list byte.

Definition byte_of_Z (z : Z) : byte :=
  default x00 (Byte.of_N (Z.to_N (z `mod` 256))).
Definition Z_of_byte (b : byte) : Z := Z.of_N (Byte.to_N b).

(** [binary.BigEndian.AppendUint64] *)
Definition BigEndian_AppendUint64 (b : list byte) (v : Z) : list byte :=
  b ++ map (λ i, byte_of_Z (Z.land (Z.shiftr v (8 * i)) 255)) [7; 6; 5; 4; 3; 2; 1; 0].

(** [binary.BigEndian.Uint64] *)
Definition BigEndian_Uint64 (b : list byte) : Z :=
  fold_left (λ acc x, Z.lor (Z.shiftl acc 8) (Z_of_byte x)) (take 8 b) 0.

(** [uint64(len(path))] *)
Definition uint64_len (s : string) : Z := Z.of_nat (String.length s) `mod` 2 ^ 64.

(** The names written to the hash by the loop over [contents]. *)
Definition write_names (contents : list FileInfo) (written : list byte) : list byte :=
  fold_left (λ acc c, acc ++ String.list_byte_of_string (Name c)) contents written.

(** Everything [hashPathAndContents] writes to [vHash], in order. *)
Definition digest_input (path : string) (contents : option (list FileInfo)) : list byte :=
  let written := BigEndian_AppendUint64 [] (uint64_len path) in
  let written := written ++ String.list_byte_of_string path in
  write_names (default [] contents) written.

Definition hashPathAndContents (path : string) (contents : option (list FileInfo)) : Z :=
  let verify := take 8 (sha256_Sum (digest_input path contents)) in
  BigEndian_Uint64 verify.

Definition VerifierFor (c : CachingHandler) (path : string)
    (contents : option (list FileInfo)) : CachingHandler * Z :=
  let id := hashPathAndContents path contents in
  (set_activeVerifiers c (lru.Add (activeVerifiers c) id (mkVerifier path contents)).1, id).

(** [DataForVerifier]; [None] is the nil slice. *)
Definition DataForVerifier (c : CachingHandler) (path : string) (id : Z)
  : CachingHandler * option (list FileInfo) :=
  match lru.Get (activeVerifiers c) id with
  | (av, Some cache) => (set_activeVerifiers c av, verifier_contents cache)
  | (av, None) => (set_activeVerifiers c av, None)
  end.

End Verifier.

(** ** The RENAME handler *)

Section Rename.

(** The [Handler] interface, as far as [onRename] calls it. The last field
    is the outcome of the type assertion on [UpdateHandlesByPath]. The
    slices that [FromHandle] returns are full, as those of
    [CachingHandler] are, so that [append] copies. *)
Record Handler (H : Type) := mkHandlerOps {
  h_ToHandle : H → Filesystem → list string → UUID → nat → H * list byte;
  h_FromHandle : H → list byte → nat → H * FromHandleResult;
  h_InvalidateHandle : H → Filesystem → list byte → H;
  h_UpdateHandle :
    H → Filesystem → list byte → list string → nat → H * option UpdateHandleError;
  h_UpdateHandlesByPath :
    option (H → Filesystem → list string → list string → nat → H * Z);
}.
Arguments h_ToHandle {H}. Arguments h_FromHandle {H}.
Arguments h_InvalidateHandle {H}. Arguments h_UpdateHandle {H}.
Arguments h_UpdateHandlesByPath {H}.

Definition CachingHandler_ops : Handler CachingHandler :=
  mkHandlerOps CachingHandler ToHandle FromHandle InvalidateHandle UpdateHandle
    (Some UpdateHandlesByPath).

(** A handler that wraps the cache behind the plain [Handler] interface:
    the type assertion fails on it. *)
Definition PlainHandler_ops : Handler CachingHandler :=
  mkHandlerOps CachingHandler ToHandle FromHandle InvalidateHandle UpdateHandle None.

(** A handler of another package, as the interface admits: it keeps no
    table, resolves every handle to the root of the backend [fs0],
    refuses every [UpdateHandle], and counts the calls of
    [InvalidateHandle]. *)
Definition RefusingHandler_ops (fs0 : Filesystem) : Handler nat :=
  mkHandlerOps nat
    (λ h _ _ id _, (h, uuid_MarshalBinary id))
    (λ h _ a, (h, Resolved fs0 (make_copy a [])))
    (λ h _ _, S h)
    (λ h _ _ _ _, (h, Some UpdateStale))
    None.

(** The storage backends: their state, and the calls of [billy.Filesystem]
    that the handler makes. *)
Variable World : Type.
Variable Stat : Filesystem → World → string → StatResult.
Variable Rename : Filesystem → World → string → string → World * RenameResult.
(** [billy.CapabilityCheck(fs, billy.WriteCapability)] *)
Variable WriteCapability : Filesystem → bool.
(** The constant [PathNameMax] of package nfs. *)
Variable PathNameMax : nat.
(** [ToFileAttribute(info, path)] and [.AsCache()] of package nfs. *)
Variable FileAttribute FileCacheAttribute : Type.
Variable ToFileAttribute : FileInfo → string → FileAttribute.
Variable AsCache : FileAttribute → FileCacheAttribute.

(** Modelled from the spec: [tryStat] of package nfs is not among the
    sources; the post-operation attributes of a directory are those of a
    new stat, and a failed stat gives "attributes unavailable". *)
Definition tryStat (fs : Filesystem) (w : World) (path : list string)
  : option FileAttribute :=
  let fullPath := Join fs path in
  match Stat fs w fullPath with
  | StatInfo attrs => Some (ToFileAttribute attrs fullPath)
  | _ => None
  end.

Record DirOpArg := mkDirOpArg { Handle : list byte; Filename : string }.

(** The request body as [xdr.Read] decodes it: [None] is a read error. *)
Record Request := mkRequest { req_from : option DirOpArg; req_to : option DirOpArg }.

(** What the environment decides during one call: the arrays and the UUID
    that the handler allocates, and whether each write of the response
    succeeds. *)
Record Env := mkEnv {
  env_arr1 : nat; env_arr2 : nat; env_arr3 : nat; env_arr4 : nat;
  env_uuid : UUID;
  io_status_ok : bool; io_wcc1_ok : bool; io_wcc2_ok : bool; io_send_ok : bool;
}.

Inductive BackendCall :=
  | CallStat (fs : Filesystem) (path : string)
  | CallRename (fs : Filesystem) (fromLoc toLoc : string).

Inductive ResponseItem :=
  | WStatus (s : NFSStatus)
  | WWcc (pre : FileCacheAttribute) (post : option FileAttribute).

Record Outcome (H : Type) := mkOutcome {
  out_err : option NFSStatus;
  out_handler : H;
  out_world : World;
  out_calls : list BackendCall;
  out_response : option (list ResponseItem);
  out_errorFmt : list byte;
}.
Arguments mkOutcome {H}. Arguments out_err {H}. Arguments out_handler {H}.
Arguments out_world {H}. Arguments out_calls {H}. Arguments out_response {H}.

Definition doubleWccErrorBody : list byte := replicate 16 x00.

(** [userHandle.UpdateHandlesByPath] when the handler has it, the
    [ToHandle]/[UpdateHandle]/[InvalidateHandle] fallback otherwise. *)
Definition propagate {H} (userHandle : Handler H) (h : H) (fs : Filesystem)
    (oldPath newPath : list string) (env : Env) : H :=
  match h_UpdateHandlesByPath userHandle with
  | Some updater => (updater h fs oldPath newPath (env_arr3 env)).1
  | None =>
      let '(h, oldHandle) := h_ToHandle userHandle h fs oldPath (env_uuid env) (env_arr3 env) in
      let '(h, err) := h_UpdateHandle userHandle h fs oldHandle newPath (env_arr4 env) in
      match err with
      | Some _ => h_InvalidateHandle userHandle h fs oldHandle
      | None => h
      end
  end.

(** The response, once the backend has renamed. *)
Definition respond {H} (h : H) (w : World) (calls : list BackendCall) (fs : Filesystem)
    (fromPath toPath : list string) (preCacheData preDestData : FileCacheAttribute)
    (env : Env) : Outcome H :=
  let fault calls := mkOutcome (Some NFSStatusServerFault) h w calls None doubleWccErrorBody in
  if negb (io_status_ok env) then fault calls
  else
    let writer := [WStatus NFSStatusOk] in
    let post := tryStat fs w fromPath in
    let calls := calls ++ [CallStat fs (Join fs fromPath)] in
    if negb (io_wcc1_ok env) then fault calls
    else
      let writer := writer ++ [WWcc preCacheData post] in
      let post := tryStat fs w toPath in
      let calls := calls ++ [CallStat fs (Join fs toPath)] in
      if negb (io_wcc2_ok env) then fault calls
      else
        let writer := writer ++ [WWcc preDestData post] in
        if negb (io_send_ok env) then fault calls
        else mkOutcome None h w calls (Some writer) doubleWccErrorBody.

Definition onRename {H} (userHandle : Handler H) (h : H) (w : World) (req : Request)
    (env : Env) : Outcome H :=
  let fail st h w calls := mkOutcome (Some st) h w calls None doubleWccErrorBody in
  match req_from req with
  | None => fail NFSStatusInval h w []
  | Some from =>
  match h_FromHandle userHandle h (Handle from) (env_arr1 env) with
  | (h, BadHandle _) | (h, Stale) => fail NFSStatusStale h w []
  | (h, Resolved fs fromPath) =>
  match req_to req with
  | None => fail NFSStatusInval h w []
  | Some to =>
  match h_FromHandle userHandle h (Handle to) (env_arr2 env) with
  | (h, BadHandle _) | (h, Stale) => fail NFSStatusStale h w []
  | (h, Resolved fs2 toPath) =>
  if negb (bool_decide (fs = fs2)) then fail NFSStatusNotSupp h w []
  else if negb (WriteCapability fs) then fail NFSStatusROFS h w []
  else if (PathNameMax <? String.length (Filename from))%nat
          || (PathNameMax <? String.length (Filename to))%nat
  then fail NFSStatusNameTooLong h w []
  else
    let fromDirPath := Join fs (elems fromPath) in
    let calls := [CallStat fs fromDirPath] in
    match Stat fs w fromDirPath with
    | StatNotExist => fail NFSStatusNoEnt h w calls
    | StatError => fail NFSStatusIO h w calls
    | StatInfo fromDirInfo =>
    if negb (IsDir fromDirInfo) then fail NFSStatusNotDir h w calls
    else
      let preCacheData := AsCache (ToFileAttribute fromDirInfo fromDirPath) in
      let toDirPath := Join fs (elems toPath) in
      let calls := calls ++ [CallStat fs toDirPath] in
      match Stat fs w toDirPath with
      | StatNotExist => fail NFSStatusNoEnt h w calls
      | StatError => fail NFSStatusIO h w calls
      | StatInfo toDirInfo =>
      if negb (IsDir toDirInfo) then fail NFSStatusNotDir h w calls
      else
        let preDestData := AsCache (ToFileAttribute toDirInfo toDirPath) in
        let oldPath := elems fromPath ++ [Filename from] in
        let newPath := elems toPath ++ [Filename to] in
        let fromLoc := Join fs oldPath in
        let toLoc := Join fs newPath in
        let calls := calls ++ [CallRename fs fromLoc toLoc] in
        match Rename fs w fromLoc toLoc with
        | (w, RenameNotExist) => fail NFSStatusNoEnt h w calls
        | (w, RenamePermission) => fail NFSStatusAccess h w calls
        | (w, RenameError) => fail NFSStatusIO h w calls
        | (w, RenameOk) =>
            let h := propagate userHandle h fs oldPath newPath env in
            respond h w calls fs (elems fromPath) (elems toPath)
              preCacheData preDestData env
        end
      end
    end
  end end end end.

(** *** Steps 1 to 5 of the rename, in the words of the specification *)

Definition check (ok : bool) (st : NFSStatus) : option NFSStatus :=
  if ok then None else Some st.

Definition first_failure (checks : list (option NFSStatus)) : option NFSStatus :=
  foldr (λ chk rest, match chk with Some st => Some st | None => rest end) None checks.

(** Step 5 for one directory: [NoEnt] if missing, [NotDir] if not a
    directory, [IO] for any other failure of the backend. *)
Definition stat_dir (fs : Filesystem) (w : World) (dir : string) : option NFSStatus :=
  match Stat fs w dir with
  | StatInfo info => check (IsDir info) NFSStatusNotDir
  | StatNotExist => Some NFSStatusNoEnt
  | StatError => Some NFSStatusIO
  end.

(** The status with which the request fails before the backend rename:
    a malformed request is [Inval]; (1) either handle failing to resolve
    is [Stale]; (2) two different backends, [NotSupp]; (3) a read-only
    backend, [ROFS]; (4) a name longer than the maximum, [NameTooLong];
    (5) the stat of the source directory, then of the destination. *)
Definition steps_1_to_5 {H} (userHandle : Handler H) (h : H) (w : World) (req : Request)
    (env : Env) : option NFSStatus :=
  match req_from req with
  | None => Some NFSStatusInval
  | Some from =>
      let r1 := h_FromHandle userHandle h (Handle from) (env_arr1 env) in
      match r1.2 with
      | Resolved fs fromPath =>
          match req_to req with
          | None => Some NFSStatusInval
          | Some to =>
              let r2 := h_FromHandle userHandle r1.1 (Handle to) (env_arr2 env) in
              match r2.2 with
              | Resolved fs2 toPath =>
                  first_failure
                    [ check (bool_decide (fs = fs2)) NFSStatusNotSupp;
                      check (WriteCapability fs) NFSStatusROFS;
                      check ((String.length (Filename from) <=? PathNameMax)%nat
                             && (String.length (Filename to) <=? PathNameMax)%nat)
                        NFSStatusNameTooLong;
                      stat_dir fs w (Join fs (elems fromPath));
                      stat_dir fs w (Join fs (elems toPath)) ]
              | _ => Some NFSStatusStale
              end
          end
      | _ => Some NFSStatusStale
      end
  end.

Definition is_rename (call : BackendCall) : bool :=
  match call with CallRename _ _ _ => true | CallStat _ _ => false end.

(** The mutations of the backend among the calls made. *)
Definition renames (calls : list BackendCall) : list BackendCall :=
  filter (λ call, is_rename call) calls.

End Rename.

Arguments h_ToHandle {H}. Arguments h_FromHandle {H}.
Arguments h_InvalidateHandle {H}. Arguments h_UpdateHandle {H}.
Arguments h_UpdateHandlesByPath {H}.
Arguments Outcome : clear implicits.
Arguments mkOutcome {World FileAttribute FileCacheAttribute H}.
Arguments out_err {World FileAttribute FileCacheAttribute H}.
Arguments out_handler {World FileAttribute FileCacheAttribute H}.
Arguments out_world {World FileAttribute FileCacheAttribute H}.
Arguments out_calls {World FileAttribute FileCacheAttribute H}.
Arguments out_response {World FileAttribute FileCacheAttribute H}.
Arguments tryStat {World} Stat {FileAttribute} ToFileAttribute.
Arguments respond {World} Stat {FileAttribute FileCacheAttribute} ToFileAttribute {H}.
Arguments onRename {World} Stat Rename WriteCapability PathNameMax
  {FileAttribute FileCacheAttribute} ToFileAttribute AsCache {H}.
Arguments stat_dir {World} Stat.
Arguments steps_1_to_5 {World} Stat WriteCapability PathNameMax {H}.

(** *** Sequences of [ToHandle] calls *)

(** One call of [ToHandle], with the UUID and the array that the
    environment draws for it. *)
Record Issue := mkIssue {
  issue_fs : Filesystem; issue_path : list string; issue_id : UUID; issue_arr : nat;
}.

Definition issue (c : CachingHandler) (x : Issue) : CachingHandler :=
  (ToHandle c (issue_fs x) (issue_path x) (issue_id x) (issue_arr x)).1.

Definition issue_all (c : CachingHandler) (xs : list Issue) : CachingHandler :=
  fold_left issue xs c.

(** The cache as [ToHandle] has it when it reaches [GetOldest] and [Add]:
    after the search of the reverse index. *)
Definition searched (c : CachingHandler) (x : Issue) : CachingHandler :=
  (searchReverseCache c (issue_fs x) (Join (issue_fs x) (issue_path x))).1.

(** The call inserts an entry: the search finds no handle to hand out
    again. *)
Definition inserts (c : CachingHandler) (x : Issue) : Prop :=
  (searchReverseCache c (issue_fs x) (Join (issue_fs x) (issue_path x))).2 = None.

Fixpoint all_insert (c : CachingHandler) (xs : list Issue) : Prop :=
  match xs with
  | [] => True
  | x :: xs' => inserts c x ∧ all_insert (issue c x) xs'
  end.

(** The cache holds exactly the entries of the calls [done], all live. *)
Definition Filled (c : CachingHandler) (done : list Issue) (n : nat) : Prop :=
  Inv c ∧ lru.size (activeHandles c) = n ∧ lru.Len (activeHandles c) = length done
  ∧ (∀ y, y ∈ done →
       lookup_handle c (issue_id y)
       = Some (mkEntry (issue_fs y) (make_copy (issue_arr y) (issue_path y))))
  ∧ (∀ id e, lookup_handle c id = Some e → id ∈ issue_id <$> done).

(** The entry names of a listing, one after the other in listing order. *)
Definition names_bytes (contents : list FileInfo) : list byte :=
  concat (map (λ c, String.list_byte_of_string (Name c)) contents).

(** *** Sequences of operations *)

(** One call on the cache, with what the environment draws for it. *)
Inductive Op :=
  | OpToHandle (fs : Filesystem) (path : list string) (id : UUID) (a : nat)
  | OpFromHandle (fh : list byte) (a : nat)
  | OpInvalidateHandle (fs : Filesystem) (handle : list byte)
  | OpUpdateHandle (fs : Filesystem) (handle : list byte) (newPath : list string) (a : nat)
  | OpUpdateHandlesByPath (fs : Filesystem) (oldPath newPath : list string) (a : nat)
  | OpVerifierFor (path : string) (contents : option (list FileInfo))
  | OpDataForVerifier (path : string) (id : Z).

Definition apply_op (sha256_Sum : list byte → list byte) (c : CachingHandler) (op : Op)
  : CachingHandler :=
  match op with
  | OpToHandle fs path id a => (ToHandle c fs path id a).1
  | OpFromHandle fh a => (FromHandle c fh a).1
  | OpInvalidateHandle fs handle => InvalidateHandle c fs handle
  | OpUpdateHandle fs handle newPath a => (UpdateHandle c fs handle newPath a).1
  | OpUpdateHandlesByPath fs oldPath newPath a => (UpdateHandlesByPath c fs oldPath newPath a).1
  | OpVerifierFor path contents => (VerifierFor sha256_Sum c path contents).1
  | OpDataForVerifier path id => (DataForVerifier c path id).1
  end.

Definition run (sha256_Sum : list byte → list byte) (c : CachingHandler) (ops : list Op)
  : CachingHandler :=
  fold_left (apply_op sha256_Sum) ops c.

(** The two caches are well formed and have the capacities [n] and [m];
    the recorded limit is [l]. *)
Definition bounded (n m : nat) (l : Z) (c : CachingHandler) : Prop :=
  lru.wf (activeHandles c) ∧ lru.size (activeHandles c) = n
  ∧ lru.wf (activeVerifiers c) ∧ lru.size (activeVerifiers c) = m
  ∧ cacheLimit c = l.

(** * Properties *)

(** ** The LRU cache *)

Section LruFacts.
Context {K V : Type} `{EqDecision K}.
Implicit Types (k : K) (v : V) (l : list (K * V)) (c : lru.Cache K V).

Lemma find_del_eq k l : lru.find k (lru.del k l) = None.
Proof.
  unfold lru.del. induction l as [|[k' v'] l IH]; [done|].
  rewrite filter_cons. simpl. destruct (decide (k' ≠ k)) as [Hne|Heq]; [|done].
  simpl. by destruct (decide (k' = k)).
Qed.

Lemma find_del_ne k k' l : k' ≠ k → lru.find k' (lru.del k l) = lru.find k' l.
Proof.
  intros Hne. unfold lru.del. induction l as [|[k0 v0] l IH]; [done|].
  rewrite filter_cons. simpl. destruct (decide (k0 ≠ k)) as [H0|H0]; simpl.
  - by rewrite IH.
  - apply dec_stable in H0. subst k0. by destruct (decide (k = k')); [congruence|].
Qed.

Lemma find_Some_elem k v l : lru.find k l = Some v → (k, v) ∈ l.
Proof.
  induction l as [|[k0 v0] l IH]; [done|]. simpl.
  destruct (decide (k0 = k)) as [->|]; intros Hf.
  - injection Hf as ->. left.
  - right. auto.
Qed.

Lemma find_None k l : lru.find k l = None ↔ k ∉ l.*1.
Proof.
  induction l as [|[k0 v0] l IH]; simpl.
  - split; [intros _; apply not_elem_of_nil|done].
  - rewrite not_elem_of_cons. destruct (decide (k0 = k)) as [->|Hne].
    + split; [done|]. intros [? _]. done.
    + rewrite IH. split; [intros; split; [congruence|done]|tauto].
Qed.

Lemma find_is_Some k l : is_Some (lru.find k l) ↔ k ∈ l.*1.
Proof.
  rewrite <- not_eq_None_Some, find_None. split; [apply dec_stable|tauto].
Qed.

Lemma elem_find k v l : NoDup l.*1 → (k, v) ∈ l → lru.find k l = Some v.
Proof.
  induction l as [|[k0 v0] l IH]; simpl; intros Hnd Hin.
  - by apply elem_of_nil in Hin.
  - apply NoDup_cons in Hnd as [Hk0 Hnd]. apply elem_of_cons in Hin as [Heq|Hin].
    + injection Heq as -> ->. by rewrite decide_True.
    + rewrite decide_False; [auto|]. intros ->. apply Hk0.
      apply list_elem_of_fmap. by exists (k, v).
Qed.

Lemma keys_del k l : (lru.del k l).*1 = filter (λ k', k' ≠ k) l.*1.
Proof.
  unfold lru.del. induction l as [|[k0 v0] l IH]; [done|].
  rewrite fmap_cons, !filter_cons. cbn [fst].
  destruct (decide (k0 ≠ k)); rewrite ?fmap_cons; cbn [fst]; by rewrite IH.
Qed.

Lemma NoDup_keys_del k l : NoDup l.*1 → NoDup (lru.del k l).*1.
Proof. rewrite keys_del. apply NoDup_filter. Qed.

Lemma not_elem_keys_del k l : k ∉ (lru.del k l).*1.
Proof. rewrite keys_del, list_elem_of_filter. tauto. Qed.

Lemma del_id k l : k ∉ l.*1 → lru.del k l = l.
Proof.
  unfold lru.del. induction l as [|[k0 v0] l IH]; [done|].
  rewrite fmap_cons, not_elem_of_cons, filter_cons. simpl. intros [Hne Hni].
  rewrite decide_True by congruence. by rewrite IH.
Qed.

Lemma length_del k v l :
  NoDup l.*1 → lru.find k l = Some v → S (length (lru.del k l)) = length l.
Proof.
  induction l as [|[k0 v0] l IH]; [done|]. 
  rewrite fmap_cons, NoDup_cons. simpl. intros [Hk0 Hnd] Hf.
  unfold lru.del in *. rewrite filter_cons. simpl. destruct (decide (k0 = k)) as [->|Hne].
  - rewrite decide_False by tauto. f_equal. f_equal. by apply del_id.
  - rewrite decide_True by done. simpl. f_equal. by apply IH.
Qed.

Lemma find_app k l1 l2 :
  lru.find k (l1 ++ l2) = match lru.find k l1 with Some v => Some v | None => lru.find k l2 end.
Proof.
  induction l1 as [|[k0 v0] l1 IH]; [done|]. simpl. by destruct (decide (k0 = k)).
Qed.

Lemma move_to_front_perm k v l :
  NoDup l.*1 → lru.find k l = Some v → (k, v) :: lru.del k l ≡ₚ l.
Proof.
  induction l as [|[k0 v0] l IH]; [done|].
  rewrite fmap_cons, NoDup_cons. simpl. intros [Hk0 Hnd] Hf.
  unfold lru.del in *. rewrite filter_cons. simpl. destruct (decide (k0 = k)) as [->|Hne].
  - injection Hf as ->. rewrite decide_False by tauto.
    fold (lru.del k l). by rewrite del_id.
  - rewrite decide_True by done. rewrite Permutation_swap. by rewrite IH.
Qed.

Lemma Get_snd c k : (lru.Get c k).2 = lru.Peek c k.
Proof. unfold lru.Get, lru.Peek. by destruct (lru.find k (lru.items c)). Qed.

Lemma size_Get c k : lru.size (lru.Get c k).1 = lru.size c.
Proof. unfold lru.Get. by destruct (lru.find k (lru.items c)). Qed.

Lemma Peek_Get c k k' : lru.Peek (lru.Get c k).1 k' = lru.Peek c k'.
Proof.
  unfold lru.Get, lru.Peek. destruct (lru.find k (lru.items c)) as [v|] eqn:Hf; [|done].
  simpl. destruct (decide (k = k')) as [->|Hne]; [done|]. by apply find_del_ne.
Qed.

Lemma items_Get_perm c k :
  NoDup (lru.items c).*1 → lru.items (lru.Get c k).1 ≡ₚ lru.items c.
Proof.
  intros Hnd. unfold lru.Get. destruct (lru.find k (lru.items c)) as [v|] eqn:Hf; [|done].
  simpl. by apply move_to_front_perm.
Qed.

Lemma Len_Get c k : NoDup (lru.items c).*1 → lru.Len (lru.Get c k).1 = lru.Len c.
Proof. intros Hnd. unfold lru.Len. by rewrite items_Get_perm. Qed.

Lemma wf_Get c k : lru.wf c → lru.wf (lru.Get c k).1.
Proof.
  intros (Hnd & Hsz & Hlen). unfold lru.wf.
  rewrite size_Get, (items_Get_perm c k Hnd). done.
Qed.

Lemma GetOldest_Some c :
  lru.items c ≠ [] → ∃ l0 ko vo, lru.items c = l0 ++ [(ko, vo)] ∧ lru.GetOldest c = Some (ko, vo).
Proof.
  intros Hne. destruct (lru.items c) as [|x l] eqn:Hl using rev_ind; [done|].
  destruct x as [ko vo]. exists l, ko, vo. split; [done|].
  unfold lru.GetOldest. rewrite Hl. apply last_snoc.
Qed.

(** [Add] on a key that is present: nothing is evicted and no other key is
    affected. *)
Lemma Add_present c k v :
  lru.wf c → is_Some (lru.Peek c k) →
  (lru.Add c k v).2 = false ∧ lru.wf (lru.Add c k v).1 ∧
  lru.Len (lru.Add c k v).1 = lru.Len c ∧
  ∀ k', lru.Peek (lru.Add c k v).1 k' = if decide (k' = k) then Some v else lru.Peek c k'.
Proof.
  intros (Hnd & Hsz & Hlen) [v0 Hv0]. unfold lru.Add, lru.Peek in *. rewrite Hv0.
  cbn [fst snd lru.items lru.size].
  pose proof (length_del _ _ _ Hnd Hv0) as Hl.
  split; [done|]. split; [|split].
  - split; [|split; [done|]]; cbn [lru.items lru.size].
    + rewrite fmap_cons. apply NoDup_cons. split; [apply not_elem_keys_del|by apply NoDup_keys_del].
    + simpl. lia.
  - unfold lru.Len. simpl. lia.
  - intros k'. simpl. destruct (decide (k' = k)) as [->|Hne].
    + by rewrite decide_True.
    + rewrite decide_False by congruence. by apply find_del_ne.
Qed.

(** [Add] of a new key below capacity: the cache grows by that key. *)
Lemma Add_room c k v :
  lru.wf c → lru.Peek c k = None → (lru.Len c < lru.size c)%nat →
  lru.Add c k v = (lru.mk (lru.size c) ((k, v) :: lru.items c), false).
Proof.
  intros _ Hk Hlt. unfold lru.Add, lru.Peek, lru.Len in *. rewrite Hk. simpl.
  destruct (lru.size c <? S (length (lru.items c)))%nat eqn:E; [|done].
  apply Nat.ltb_lt in E. lia.
Qed.

(** [Add] of a new key at capacity: the oldest entry makes room. *)
Lemma Add_full c k v :
  lru.wf c → lru.Peek c k = None → lru.Len c = lru.size c →
  ∃ l0 ko vo, lru.items c = l0 ++ [(ko, vo)] ∧ lru.GetOldest c = Some (ko, vo) ∧
    lru.Add c k v = (lru.mk (lru.size c) ((k, v) :: l0), true).
Proof.
  intros (Hnd & Hsz & Hlen) Hk Hfull. unfold lru.Len in Hfull.
  destruct (GetOldest_Some c) as (l0 & ko & vo & Hl & Ho).
  { intros Hnil. rewrite Hnil in Hfull. simpl in Hfull. lia. }
  exists l0, ko, vo. split; [done|]. split; [done|].
  unfold lru.Add, lru.Peek in *. rewrite Hk. simpl.
  destruct (lru.size c <? S (length (lru.items c)))%nat eqn:E.
  - rewrite Hl. f_equal. f_equal. destruct l0; simpl; [done|].
    f_equal. destruct (l0 ++ [(ko, vo)]) eqn:E2; [by destruct l0|]. rewrite <- E2.
    by rewrite removelast_last.
  - apply Nat.ltb_ge in E. lia.
Qed.

Lemma Remove_spec c k :
  lru.wf c →
  lru.wf (lru.Remove c k).1 ∧
  ∀ k', lru.Peek (lru.Remove c k).1 k' = if decide (k' = k) then None else lru.Peek c k'.
Proof.
  intros (Hnd & Hsz & Hlen). unfold lru.Remove, lru.Peek.
  destruct (lru.find k (lru.items c)) as [v|] eqn:Hf; simpl.
  - split.
    + split; [by apply NoDup_keys_del|split; [done|]]. simpl.
      pose proof (length_del _ _ _ Hnd Hf). lia.
    + intros k'. destruct (decide (k' = k)) as [->|Hne]; [apply find_del_eq|by apply find_del_ne].
  - split; [done|]. intros k'. destruct (decide (k' = k)) as [->|Hne]; done.
Qed.
End LruFacts.

(** ** The reverse index *)

Implicit Types (c : CachingHandler) (id : UUID) (e : entry) (fs : Filesystem).

Lemma remove_first_None (h : UUID) (l : list UUID) : remove_first h l = None ↔ h ∉ l.
Proof.
  induction l as [|u l IH]; simpl.
  - split; [intros _; apply not_elem_of_nil|done].
  - rewrite not_elem_of_cons. destruct (decide (u = h)) as [->|Hne].
    + split; [done|]. intros [? _]. done.
    + destruct (remove_first h l); simpl.
      * split; [done|]. intros [_ Hni]. by apply IH in Hni.
      * split; [|done]. intros _. split; [congruence|]. by apply IH.
Qed.

Lemma remove_first_Some (h : UUID) (l l' : list UUID) :
  remove_first h l = Some l' → NoDup l →
  NoDup l' ∧ ∀ x, x ∈ l' ↔ x ∈ l ∧ x ≠ h.
Proof.
  revert l'. induction l as [|u l IH]; simpl; intros l' Hr Hnd; [done|].
  apply NoDup_cons in Hnd as [Hu Hnd]. destruct (decide (u = h)) as [->|Hne].
  - injection Hr as <-. split; [done|]. intros x. rewrite elem_of_cons.
    split; [|intros [[?|?] ?]; done]. intros Hx. split; [by right|]. by intros ->.
  - destruct (remove_first h l) as [l0|] eqn:E; [|done]. simpl in Hr. injection Hr as <-.
    destruct (IH l0 eq_refl Hnd) as [Hnd0 Hx0]. split.
    + apply NoDup_cons. split; [|done]. rewrite Hx0. tauto.
    + intros x. rewrite !elem_of_cons, Hx0. split.
      * intros [->|[? ?]]; [split; [by left|congruence]|tauto].
      * intros [[->|?] ?]; tauto.
Qed.

Lemma activeHandles_evict c k id :
  activeHandles (evictReverseCache c k id) = activeHandles c.
Proof.
  unfold evictReverseCache. destruct (reverseHandles c !! k); [|done].
  by destruct (remove_first id l).
Qed.

Lemma activeHandles_append c k id : activeHandles (appendReverse c k id) = activeHandles c.
Proof. done. Qed.

Lemma in_bucket_set_activeHandles c ah k id :
  in_bucket (set_activeHandles c ah) k id ↔ in_bucket c k id.
Proof. done. Qed.

Lemma in_bucket_evict c k id k' id' :
  buckets_nodup c →
  in_bucket (evictReverseCache c k id) k' id' ↔ in_bucket c k' id' ∧ ¬ (k' = k ∧ id' = id).
Proof.
  intros Hnd. unfold evictReverseCache, in_bucket.
  destruct (reverseHandles c !! k) as [b|] eqn:Hb.
  - destruct (remove_first id b) as [b'|] eqn:Hr; simpl.
    + destruct (remove_first_Some _ _ _ Hr (Hnd _ _ Hb)) as [_ Hx].
      destruct (decide (k' = k)) as [->|Hne].
      * rewrite lookup_insert_eq, Hb. split.
        -- intros (b0 & [= <-] & Hin). apply Hx in Hin as [? ?]. split; [eauto|]. tauto.
        -- intros [(b0 & [= <-] & Hin) Hn]. exists b'. split; [done|]. apply Hx.
           split; [done|]. intros ->. tauto.
      * rewrite lookup_insert_ne by done. split; [intros; split; [done|tauto]|tauto].
    + apply remove_first_None in Hr. split; [|tauto]. intros (b0 & Hb0 & Hin).
      split; [eauto|]. intros [-> ->]. congruence.
  - split; [|tauto]. intros (b0 & Hb0 & Hin). split; [eauto|]. intros [-> ->]. congruence.
Qed.

Lemma buckets_nodup_evict c k id : buckets_nodup c → buckets_nodup (evictReverseCache c k id).
Proof.
  intros Hnd k' b'. unfold evictReverseCache.
  destruct (reverseHandles c !! k) as [b|] eqn:Hb; [|apply Hnd].
  destruct (remove_first id b) as [b0|] eqn:Hr; [|apply Hnd]. simpl.
  destruct (decide (k' = k)) as [->|Hne].
  - rewrite lookup_insert_eq. intros [= <-].
    by destruct (remove_first_Some _ _ _ Hr (Hnd _ _ Hb)).
  - rewrite lookup_insert_ne by done. apply Hnd.
Qed.

Lemma in_bucket_append c k id k' id' :
  in_bucket (appendReverse c k id) k' id' ↔ in_bucket c k' id' ∨ (k' = k ∧ id' = id).
Proof.
  unfold appendReverse, in_bucket. simpl. destruct (decide (k' = k)) as [->|Hne].
  - rewrite lookup_insert_eq. split.
    + intros (b & [= <-] & Hin). apply elem_of_app in Hin as [Hin|Hin].
      * left. destruct (reverseHandles c !! k); [eauto|]. by apply elem_of_nil in Hin.
      * right. apply list_elem_of_singleton in Hin. done.
    + intros [(b & Hb & Hin)|[_ ->]]; eexists; (split; [done|]); apply elem_of_app.
      * left. by rewrite Hb.
      * right. by apply list_elem_of_singleton.
  - rewrite lookup_insert_ne by done. split; [tauto|]. intros [?|[? ?]]; done.
Qed.

Lemma buckets_nodup_append c k id :
  buckets_nodup c → ¬ in_bucket c k id → buckets_nodup (appendReverse c k id).
Proof.
  intros Hnd Hni k' b'. unfold appendReverse. simpl. destruct (decide (k' = k)) as [->|Hne].
  - rewrite lookup_insert_eq. intros [= <-]. apply NoDup_app. split; [|split].
    + destruct (reverseHandles c !! k) eqn:Hb; [by eapply Hnd|apply NoDup_nil_2].
    + intros x Hx Hx'. apply list_elem_of_singleton in Hx' as ->. apply Hni.
      destruct (reverseHandles c !! k) eqn:Hb; [by eexists|]. by apply elem_of_nil in Hx.
    + apply NoDup_singleton.
  - rewrite lookup_insert_ne by done. apply Hnd.
Qed.

(** ** Steps that keep the two structures consistent *)

Lemma lookup_handle_evict c k id id' :
  lookup_handle (evictReverseCache c k id) id' = lookup_handle c id'.
Proof. unfold lookup_handle. by rewrite activeHandles_evict. Qed.

Lemma find_snoc (k ko : UUID) (vo : entry) (l0 : list (UUID * entry)) :
  NoDup (l0 ++ [(ko, vo)]).*1 →
  lru.find k l0 = if decide (k = ko) then None else lru.find k (l0 ++ [(ko, vo)]).
Proof.
  rewrite fmap_app, NoDup_app. intros (_ & Hdisj & _). rewrite find_app.
  destruct (decide (k = ko)) as [->|Hne].
  - apply find_None. intros Hin. apply (Hdisj _ Hin). simpl. left.
  - simpl. rewrite decide_False by congruence. by destruct (lru.find k l0).
Qed.

(** Refreshing entries changes neither structure's contents. *)
Lemma Inv_touch c ah :
  Inv c → lru.wf ah → (∀ id, lru.Peek ah id = lru.Peek (activeHandles c) id) →
  Inv (set_activeHandles c ah).
Proof.
  intros [Hwf Hu Hix Hnd] Hwf' Hpeek. split; [done| | |done].
  - intros id e. unfold lookup_handle. simpl. rewrite Hpeek. apply Hu.
  - intros k id. unfold lookup_handle. simpl. rewrite Hpeek. apply Hix.
Qed.

Lemma Inv_Get c id : Inv c → Inv (set_activeHandles c (lru.Get (activeHandles c) id).1).
Proof.
  intros HI. apply Inv_touch; [done|apply wf_Get, HI|]. intros id'. apply Peek_Get.
Qed.

Lemma lookup_handle_set c ah id : lookup_handle (set_activeHandles c ah) id = lru.Peek ah id.
Proof. done. Qed.

Lemma lookup_handle_append c k id id' :
  lookup_handle (appendReverse c k id) id' = lookup_handle c id'.
Proof. done. Qed.

(** Moving a live handle from the bucket of its entry to the bucket of its
    new entry. *)
Lemma Inv_retarget c id e e' k_new :
  Inv c → lookup_handle c id = Some e → joined e' = k_new →
  Inv (appendReverse
         (set_activeHandles (evictReverseCache c (joined e) id)
            (lru.Add (activeHandles c) id e').1) k_new id).
Proof.
  intros [Hwf Hu Hix Hnd] He Hk.
  destruct (Add_present (activeHandles c) id e' Hwf) as (_ & Hwf' & _ & Hpeek).
  { exists e. exact He. }
  fold (lookup_handle c) in Hpeek.
  assert (∀ k id', in_bucket (set_activeHandles (evictReverseCache c (joined e) id)
            (lru.Add (activeHandles c) id e').1) k id'
            ↔ in_bucket c k id' ∧ ¬ (k = joined e ∧ id' = id)) as Hev.
  { intros k id'. rewrite in_bucket_set_activeHandles. by apply in_bucket_evict. }
  split.
  - done.
  - intros id' e0. rewrite lookup_handle_append, lookup_handle_set, Hpeek.
    destruct (decide (id' = id)) as [->|_]; [intros _; by eapply Hu|apply Hu].
  - intros k id'. rewrite in_bucket_append, Hev, Hix.
    rewrite lookup_handle_append, lookup_handle_set, Hpeek.
    destruct (decide (id' = id)) as [->|Hne].
    + rewrite He. split.
      * intros [[(e0 & [= <-] & Hj) Hn]|[-> _]]; [exfalso; by apply Hn|eauto].
      * intros (e0 & [= <-] & Hj). right. by rewrite <- Hj, Hk.
    + split; [intros [[? ?]|[? ?]]; done|]. intros Hx. left. split; [done|]. tauto.
  - apply buckets_nodup_append.
    + intros k b. simpl. by apply buckets_nodup_evict.
    + rewrite Hev, Hix, He. intros [(e0 & [= <-] & Hj) Hn]. by apply Hn.
Qed.

(** Minting a handle that the cache does not hold yet. *)
Lemma Inv_mint c fs path id a :
  Inv c → lookup_handle c id = None → length id = 16%nat →
  Inv (ToHandle_mint c fs path (Join fs path) id a).1.
Proof.
  intros [Hwf Hu Hix Hnd] Hid Hlen. unfold ToHandle_mint.
  set (e' := mkEntry fs (make_copy a path)).
  assert (joined e' = Join fs path) as Hj by done.
  destruct (decide (lru.Len (activeHandles c) < lru.size (activeHandles c))%nat) as [Hlt|Hge].
  - rewrite (Add_room _ _ _ Hwf Hid Hlt). cbn [fst].
    assert (∀ id', lookup_handle (set_activeHandles c (lru.mk (lru.size (activeHandles c))
              ((id, e') :: lru.items (activeHandles c)))) id'
            = if decide (id' = id) then Some e' else lookup_handle c id') as Hlk.
    { intros id'. unfold lookup_handle, lru.Peek. simpl.
      destruct (decide (id = id')) as [<-|Hne]; [by rewrite decide_True|].
      by rewrite decide_False by congruence. }
    destruct Hwf as (Hk & Hsz & Hle). split.
    + split; [|split; [done|]]; cbn [lru.items lru.size activeHandles appendReverse
                                     set_activeHandles set_reverseHandles].
      * rewrite fmap_cons. apply NoDup_cons. split; [|done]. by apply find_None.
      * unfold lru.Len in Hlt. simpl. lia.
    + intros id' e0. rewrite lookup_handle_append, Hlk.
      destruct (decide (id' = id)) as [->|_]; [done|apply Hu].
    + intros k id'. rewrite in_bucket_append, in_bucket_set_activeHandles, Hix.
      rewrite lookup_handle_append, Hlk. destruct (decide (id' = id)) as [->|Hne].
      * rewrite Hid. split.
        -- intros [(e0 & ? & _)|[-> _]]; [done|eauto].
        -- intros (e0 & [= <-] & <-). by right.
      * split; [intros [?|[_ ->]]; done|tauto].
    + apply buckets_nodup_append; [done|]. rewrite in_bucket_set_activeHandles, Hix, Hid.
      by intros (e0 & ? & _).
  - assert (lru.Len (activeHandles c) = lru.size (activeHandles c)) as Hfull.
    { destruct Hwf as (_ & _ & Hle). unfold lru.Len in *. lia. }
    destruct (Add_full _ id e' Hwf Hid Hfull) as (l0 & ko & vo & Hl & Ho & HA).
    rewrite HA, Ho. cbn [fst].
    destruct Hwf as (Hk & Hsz & Hle). rewrite Hl in Hk.
    assert (∀ k, lookup_handle c k = lru.find k (l0 ++ [(ko, vo)])) as Hpk.
    { intros k. unfold lookup_handle, lru.Peek. by rewrite Hl. }
    assert (lookup_handle c ko = Some vo) as Hko.
    { rewrite Hpk, find_app. rewrite (find_snoc ko ko vo l0 Hk), decide_True by done.
      simpl. by rewrite decide_True. }
    assert (ko ≠ id) as Hkoid by (intros ->; congruence).
    set (c1 := set_activeHandles c (lru.mk (lru.size (activeHandles c)) ((id, e') :: l0))).
    assert (∀ id', lookup_handle c1 id'
            = if decide (id' = id) then Some e'
              else if decide (id' = ko) then None else lookup_handle c id') as Hlk.
    { intros id'. unfold c1, lookup_handle at 1, lru.Peek. simpl.
      destruct (decide (id = id')) as [<-|Hne].
      - by rewrite decide_True.
      - rewrite decide_False by congruence. rewrite (find_snoc id' ko vo l0 Hk).
        destruct (decide (id' = ko)); [done|]. by rewrite Hpk. }
    assert (∀ k id', in_bucket (evictReverseCache c1 (joined vo) ko) k id'
            ↔ in_bucket c k id' ∧ ¬ (k = joined vo ∧ id' = ko)) as Hev.
    { intros k id'. by rewrite in_bucket_evict. }
    split.
    + rewrite activeHandles_append, activeHandles_evict. unfold c1.
      split; [|split; [done|]]; cbn [lru.items lru.size activeHandles set_activeHandles].
      * rewrite fmap_cons. apply NoDup_cons. split.
        -- cbn [fst]. apply find_None. rewrite (find_snoc id ko vo l0 Hk).
           rewrite decide_False by congruence. by rewrite <- Hpk.
        -- rewrite fmap_app in Hk. by apply NoDup_app in Hk as [? _].
      * rewrite Hl, length_app in Hle. simpl in *. lia.
    + intros id' e0. rewrite lookup_handle_append, lookup_handle_evict, Hlk.
      destruct (decide (id' = id)) as [->|_]; [done|].
      destruct (decide (id' = ko)); [done|apply Hu].
    + intros k id'. rewrite in_bucket_append, Hev, Hix.
      rewrite lookup_handle_append, lookup_handle_evict, Hlk.
      destruct (decide (id' = id)) as [->|Hne].
      * rewrite Hid. split.
        -- intros [[(e0 & ? & _) _]|[-> _]]; [done|eauto].
        -- intros (e0 & [= <-] & <-). by right.
      * destruct (decide (id' = ko)) as [->|Hne2].
        -- rewrite Hko. split; [|by intros (? & ? & _)].
           intros [[(e0 & [= <-] & Hj0) Hn]|[_ ?]]; [|done]. exfalso. by apply Hn.
        -- split; [intros [[? _]|[_ ?]]; done|]. intros Hx. left. split; [done|tauto].
    + apply buckets_nodup_append; [by apply buckets_nodup_evict|].
      rewrite Hev, Hix, Hid. by intros [(e0 & ? & _) _].
Qed.

(** ** [searchReverseCache] and [FromHandle] only refresh *)

Lemma is_match_ext ah ah' fs id :
  (∀ k, lru.Peek ah' k = lru.Peek ah k) → is_match ah' fs id = is_match ah fs id.
Proof. intros Hpk. unfold is_match. by rewrite Hpk. Qed.

Lemma searchReverseCache_loop_spec ah fs uuids :
  (searchReverseCache_loop ah fs uuids).2
    = head (filter (λ id, is_match ah fs id = true) uuids)
  ∧ (∀ k, lru.Peek (searchReverseCache_loop ah fs uuids).1 k = lru.Peek ah k)
  ∧ (lru.wf ah → lru.wf (searchReverseCache_loop ah fs uuids).1).
Proof.
  revert ah. induction uuids as [|id rest IH]; intros ah; [done|].
  cbn [searchReverseCache_loop]. rewrite filter_cons.
  pose proof (Get_snd ah id) as Hg. pose proof (Peek_Get ah id) as Hp.
  pose proof (wf_Get ah id) as Hw.
  destruct (lru.Get ah id) as [ah' [candidate|]] eqn:E; cbn [fst snd] in *.
  - assert (is_match ah fs id = bool_decide (entry_f candidate = fs)) as Hm.
    { unfold is_match. by rewrite <- Hg. }
    destruct (decide (entry_f candidate = fs)) as [Hf|Hf].
    + rewrite decide_True by (rewrite Hm; by apply bool_decide_eq_true_2). done.
    + rewrite decide_False by (rewrite Hm, bool_decide_eq_false_2; done).
      destruct (IH ah') as (Hr & Hpk & Hwf). split; [|split].
      * rewrite Hr. f_equal. apply list_filter_iff. intros x.
        by rewrite (is_match_ext ah ah').
      * intros k. by rewrite Hpk.
      * auto.
  - assert (is_match ah fs id = false) as Hm.
    { unfold is_match. by rewrite <- Hg. }
    rewrite decide_False by (by rewrite Hm).
    destruct (IH ah') as (Hr & Hpk & Hwf). split; [|split].
    + rewrite Hr. f_equal. apply list_filter_iff. intros x.
      by rewrite (is_match_ext ah ah').
    + intros k. by rewrite Hpk.
    + auto.
Qed.

Lemma searchReverseCache_spec c fs k :
  (searchReverseCache c fs k).2
    = head (filter (λ id, is_match (activeHandles c) fs id = true)
              (default [] (reverseHandles c !! k)))
  ∧ reverseHandles (searchReverseCache c fs k).1 = reverseHandles c
  ∧ (∀ id, lookup_handle (searchReverseCache c fs k).1 id = lookup_handle c id)
  ∧ (lru.wf (activeHandles c) → lru.wf (activeHandles (searchReverseCache c fs k).1)).
Proof.
  unfold searchReverseCache. destruct (reverseHandles c !! k) as [uuids|]; [|done].
  destruct (searchReverseCache_loop_spec (activeHandles c) fs uuids) as (Hr & Hpk & Hwf).
  destruct (searchReverseCache_loop (activeHandles c) fs uuids) as [ah r]. done.
Qed.

Lemma Inv_searchReverseCache c fs k : Inv c → Inv (searchReverseCache c fs k).1.
Proof.
  intros HI. destruct (searchReverseCache_spec c fs k) as (_ & Hrh & Hlk & Hwf).
  destruct HI as [Hw Hu Hix Hnd]. split.
  - auto.
  - intros id e. rewrite Hlk. apply Hu.
  - intros k' id. unfold in_bucket. rewrite Hrh, Hlk. apply Hix.
  - intros k' b. rewrite Hrh. apply Hnd.
Qed.

Lemma refresh_fold_spec fp keys ah :
  (∀ k, lru.Peek (fold_left (refresh_step fp) keys ah) k = lru.Peek ah k)
  ∧ (lru.wf ah → lru.wf (fold_left (refresh_step fp) keys ah)).
Proof.
  revert ah. induction keys as [|k0 keys IH]; intros ah; [done|]. simpl.
  destruct (IH (refresh_step fp ah k0)) as [Hpk Hwf].
  assert ((∀ k, lru.Peek (refresh_step fp ah k0) k = lru.Peek ah k)
          ∧ (lru.wf ah → lru.wf (refresh_step fp ah k0))) as [Hs Hw].
  { unfold refresh_step. destruct (hasPrefix fp _); [|done].
    split; [intros k; apply Peek_Get|apply wf_Get]. }
  split; [intros k; by rewrite Hpk|auto].
Qed.

Lemma uuid_FromBytes_ok (fh : list byte) : length fh = 16%nat → uuid_FromBytes fh = (fh, None).
Proof. intros Hl. unfold uuid_FromBytes. by rewrite decide_True. Qed.

Lemma uuid_FromBytes_bad (fh : list byte) :
  length fh ≠ 16%nat → uuid_FromBytes fh = (uuid_Nil, Some ErrInvalidLength).
Proof. intros Hl. unfold uuid_FromBytes. by rewrite decide_False. Qed.

Lemma FromHandle_hit c fh a e :
  length fh = 16%nat → lookup_handle c fh = Some e →
  (FromHandle c fh a).2 = Resolved (entry_f e) (make_copy a (elems (entry_p e))).
Proof.
  intros Hl He. unfold FromHandle. rewrite (uuid_FromBytes_ok fh Hl).
  pose proof (Get_snd (activeHandles c) fh) as Hg. unfold lookup_handle in He.
  rewrite He in Hg. destruct (lru.Get (activeHandles c) fh) as [ah r].
  simpl in Hg. by subst r.
Qed.

Lemma FromHandle_miss c fh a :
  length fh = 16%nat → lookup_handle c fh = None → (FromHandle c fh a).2 = Stale.
Proof.
  intros Hl He. unfold FromHandle. rewrite (uuid_FromBytes_ok fh Hl).
  pose proof (Get_snd (activeHandles c) fh) as Hg. unfold lookup_handle in He.
  rewrite He in Hg. destruct (lru.Get (activeHandles c) fh) as [ah r].
  simpl in Hg. by subst r.
Qed.

Lemma FromHandle_state c fh a :
  reverseHandles (FromHandle c fh a).1 = reverseHandles c
  ∧ (∀ id, lookup_handle (FromHandle c fh a).1 id = lookup_handle c id)
  ∧ (lru.wf (activeHandles c) → lru.wf (activeHandles (FromHandle c fh a).1)).
Proof.
  unfold FromHandle. destruct (uuid_FromBytes fh) as [id [err|]]; [done|].
  pose proof (Peek_Get (activeHandles c) id) as Hp.
  pose proof (wf_Get (activeHandles c) id) as Hw.
  destruct (lru.Get (activeHandles c) id) as [ah [e|]]; cbn [fst snd] in *; [|done].
  destruct (refresh_fold_spec (elems (entry_p e)) (lru.Keys ah) ah) as [Hpk Hwf].
  split; [done|]. split; [|auto]. intros k. rewrite lookup_handle_set, Hpk. apply Hp.
Qed.

Lemma Inv_FromHandle c fh a : Inv c → Inv (FromHandle c fh a).1.
Proof.
  intros [Hw Hu Hix Hnd]. destruct (FromHandle_state c fh a) as (Hrh & Hlk & Hwf). split.
  - auto.
  - intros id e. rewrite Hlk. apply Hu.
  - intros k' id. unfold in_bucket. rewrite Hrh, Hlk. apply Hix.
  - intros k' b. rewrite Hrh. apply Hnd.
Qed.

Lemma Inv_ToHandle c fs path id a :
  Inv c → lookup_handle c id = None → length id = 16%nat →
  Inv (ToHandle c fs path id a).1.
Proof.
  intros HI Hid Hl. unfold ToHandle.
  pose proof (Inv_searchReverseCache c fs (Join fs path) HI) as HI1.
  destruct (searchReverseCache_spec c fs (Join fs path)) as (_ & _ & Hlk & _).
  destruct (searchReverseCache c fs (Join fs path)) as [c1 [handle|]]; cbn [fst] in *; [done|].
  apply Inv_mint; [done| |done]. by rewrite Hlk.
Qed.

(** ** [InvalidateHandle], [UpdateHandle], [UpdateHandlesByPath] *)

Lemma InvalidateHandle_lookup c fs handle id' :
  Inv c →
  lookup_handle (InvalidateHandle c fs handle) id'
    = if decide (id' = (uuid_FromBytes handle).1) then None else lookup_handle c id'.
Proof.
  intros [Hw Hu Hix Hnd]. unfold InvalidateHandle. set (id := (uuid_FromBytes handle).1).
  pose proof (Peek_Get (activeHandles c) id) as Hp.
  pose proof (wf_Get (activeHandles c) id Hw) as Hw1.
  destruct (lru.Get (activeHandles c) id) as [ah r]. cbn [fst snd] in *.
  rewrite lookup_handle_set.
  assert (activeHandles (match r with
            | Some e => evictReverseCache (set_activeHandles c ah) (joined e) id
            | None => set_activeHandles c ah end) = ah) as ->.
  { destruct r; [by rewrite activeHandles_evict|done]. }
  destruct (Remove_spec ah id Hw1) as [_ Hrm]. rewrite Hrm.
  destruct (decide (id' = id)); [done|]. apply Hp.
Qed.

Lemma Inv_InvalidateHandle c fs handle : Inv c → Inv (InvalidateHandle c fs handle).
Proof.
  intros HI. pose proof (InvalidateHandle_lookup c fs handle) as Hlk.
  specialize (λ id', Hlk id' HI). destruct HI as [Hw Hu Hix Hnd].
  revert Hlk. unfold InvalidateHandle. set (id := (uuid_FromBytes handle).1).
  pose proof (Get_snd (activeHandles c) id) as Hg.
  pose proof (wf_Get (activeHandles c) id Hw) as Hw1.
  destruct (lru.Get (activeHandles c) id) as [ah r]. cbn [fst snd] in *.
  fold (lookup_handle c id) in Hg.
  set (c2 := match r with
             | Some e => evictReverseCache (set_activeHandles c ah) (joined e) id
             | None => set_activeHandles c ah end).
  assert (activeHandles c2 = ah) as Hah.
  { unfold c2. destruct r; [by rewrite activeHandles_evict|done]. }
  assert (∀ k id', in_bucket c2 k id' ↔ in_bucket c k id' ∧ id' ≠ id) as Hb.
  { intros k id'. unfold c2. destruct r as [e|].
    - rewrite in_bucket_evict by done. rewrite in_bucket_set_activeHandles.
      split; [|intros [? ?]; split; [done|tauto]]. intros [Hin Hn]. split; [done|].
      intros ->. apply Hn. split; [|done]. apply Hix in Hin as (e0 & He0 & <-).
      congruence.
    - rewrite in_bucket_set_activeHandles. split; [|tauto]. intros Hin. split; [done|].
      intros ->. apply Hix in Hin as (e0 & He0 & _). congruence. }
  assert (buckets_nodup c2) as Hnd2.
  { unfold c2. destruct r; [by apply buckets_nodup_evict|done]. }
  intros Hlk. split.
  - rewrite Hah. apply Remove_spec, Hw1.
  - intros id' e. rewrite Hlk. destruct (decide (id' = id)); [done|apply Hu].
  - intros k id'. rewrite in_bucket_set_activeHandles, Hb, Hix, Hlk.
    destruct (decide (id' = id)) as [->|Hne].
    + split; [tauto|]. by intros (? & ? & _).
    + tauto.
  - done.
Qed.

Lemma UpdateHandle_spec c fs handle newPath a e :
  Inv c → length handle = 16%nat → lookup_handle c handle = Some e →
  (UpdateHandle c fs handle newPath a).2 = None
  ∧ Inv (UpdateHandle c fs handle newPath a).1
  ∧ ∀ id', lookup_handle (UpdateHandle c fs handle newPath a).1 id'
      = if decide (id' = handle) then Some (mkEntry fs (make_copy a newPath))
        else lookup_handle c id'.
Proof.
  intros HI Hl He. unfold UpdateHandle. rewrite (uuid_FromBytes_ok handle Hl).
  pose proof (Get_snd (activeHandles c) handle) as Hg.
  pose proof (Peek_Get (activeHandles c) handle) as Hp.
  pose proof (Inv_Get c handle HI) as HI1.
  fold (lookup_handle c handle) in Hg. rewrite He in Hg.
  destruct (lru.Get (activeHandles c) handle) as [ah r]. cbn [fst snd] in *. subst r.
  rewrite activeHandles_evict. cbn [fst snd].
  split; [done|]. split.
  - apply (Inv_retarget (set_activeHandles c ah) handle e); [done| |done].
    rewrite lookup_handle_set, Hp. exact He.
  - intros id'. rewrite lookup_handle_append, lookup_handle_set.
    destruct (Add_present ah handle (mkEntry fs (make_copy a newPath))) as (_ & _ & _ & Hpk).
    { apply HI1. } { exists e. rewrite Hp. exact He. }
    cbn [activeHandles set_activeHandles]. rewrite Hpk.
    destruct (decide (id' = handle)); [done|]. apply Hp.
Qed.

Lemma UpdateHandle_stale c fs handle newPath a :
  length handle = 16%nat → lookup_handle c handle = None →
  (UpdateHandle c fs handle newPath a).2 = Some UpdateStale.
Proof.
  intros Hl He. unfold UpdateHandle. rewrite (uuid_FromBytes_ok handle Hl).
  pose proof (Get_snd (activeHandles c) handle) as Hg.
  fold (lookup_handle c handle) in Hg. rewrite He in Hg.
  destruct (lru.Get (activeHandles c) handle) as [ah r]. cbn [fst snd] in *. by subst r.
Qed.

Lemma UpdateHandlesByPath_loop_lookup uuidsCopy : ∀ c oldJ newJ newPathCopy updated,
  lru.wf (activeHandles c) →
  lru.wf (activeHandles
            (UpdateHandlesByPath_loop c oldJ newJ newPathCopy uuidsCopy updated).1)
  ∧ (∀ id, lookup_handle
             (UpdateHandlesByPath_loop c oldJ newJ newPathCopy uuidsCopy updated).1 id
           = if decide (id ∈ uuidsCopy) then retargeted newPathCopy <$> lookup_handle c id
             else lookup_handle c id)
  ∧ (UpdateHandlesByPath_loop c oldJ newJ newPathCopy uuidsCopy updated).2
    = updated + Z.of_nat (length (filter (λ id, is_Some (lookup_handle c id)) uuidsCopy)).
Proof.
  induction uuidsCopy as [|id rest IH]; intros c oldJ newJ newPathCopy updated Hw.
  { cbn [UpdateHandlesByPath_loop fst snd]. split; [done|]. split; [|simpl; lia].
    intros id. rewrite decide_False; [done|apply not_elem_of_nil]. }
  cbn [UpdateHandlesByPath_loop].
  pose proof (Get_snd (activeHandles c) id) as Hg.
  pose proof (Peek_Get (activeHandles c) id) as Hp.
  pose proof (wf_Get (activeHandles c) id Hw) as Hw1.
  fold (lookup_handle c id) in Hg.
  destruct (lru.Get (activeHandles c) id) as [ah r]. cbn [fst snd] in *.
  rewrite filter_cons. destruct r as [oldEntry|].
  - rewrite activeHandles_evict. cbn [activeHandles set_activeHandles].
    destruct (Add_present ah id (mkEntry (entry_f oldEntry) newPathCopy) Hw1)
      as (_ & Hw2 & _ & Hpk).
    { exists oldEntry. by rewrite Hp. }
    set (c2 := appendReverse _ newJ id).
    assert (∀ id', lookup_handle c2 id'
              = if decide (id' = id) then Some (retargeted newPathCopy oldEntry)
                else lookup_handle c id') as Hlk2.
    { intros id'. unfold c2. rewrite lookup_handle_append, lookup_handle_set, Hpk.
      destruct (decide (id' = id)); [done|apply Hp]. }
    destruct (IH c2 oldJ newJ newPathCopy (updated + 1)) as (HwR & HlkR & HnR); [done|].
    split; [done|]. split.
    + intros id'. rewrite HlkR, Hlk2. destruct (decide (id' = id)) as [->|Hne].
      * rewrite (decide_True (P := id ∈ id :: rest)) by left. rewrite <- Hg. simpl.
        by destruct (decide (id ∈ rest)).
      * destruct (decide (id' ∈ rest)) as [Hin|Hni].
        -- rewrite decide_True by (by right). done.
        -- rewrite decide_False; [done|]. rewrite not_elem_of_cons. done.
    + rewrite HnR. rewrite decide_True by (by rewrite <- Hg).
      rewrite (list_filter_iff _ (λ id0, is_Some (lookup_handle c id0))).
      * simpl. lia.
      * intros x. rewrite Hlk2. destruct (decide (x = id)) as [->|]; [|done].
        rewrite <- Hg. split; eauto.
  - destruct (IH (set_activeHandles c ah) oldJ newJ newPathCopy updated)
      as (HwR & HlkR & HnR); [done|].
    split; [done|]. split.
    + intros id'. rewrite HlkR, !lookup_handle_set, Hp. fold (lookup_handle c id').
      destruct (decide (id' = id)) as [->|Hne].
      * rewrite <- Hg. by do 2 case_decide.
      * destruct (decide (id' ∈ rest)) as [Hin|Hni].
        -- rewrite decide_True by (by right). done.
        -- rewrite decide_False; [done|]. rewrite not_elem_of_cons. done.
    + rewrite HnR. rewrite decide_False by (rewrite <- Hg; by intros [? ?]).
      f_equal. f_equal. f_equal. apply list_filter_iff. intros x.
      by rewrite lookup_handle_set, Hp.
Qed.

Lemma UpdateHandlesByPath_loop_Inv uuidsCopy : ∀ c oldJ newJ newPathCopy updated,
  Inv c → NoDup uuidsCopy →
  (∀ id e, id ∈ uuidsCopy → lookup_handle c id = Some e →
     joined e = oldJ ∧ Join (entry_f e) (elems newPathCopy) = newJ) →
  Inv (UpdateHandlesByPath_loop c oldJ newJ newPathCopy uuidsCopy updated).1.
Proof.
  induction uuidsCopy as [|id rest IH]; intros c oldJ newJ newPathCopy updated HI Hnd Hj;
    [done|].
  cbn [UpdateHandlesByPath_loop]. apply NoDup_cons in Hnd as [Hid Hnd].
  pose proof (Get_snd (activeHandles c) id) as Hg.
  pose proof (Peek_Get (activeHandles c) id) as Hp.
  pose proof (Inv_Get c id HI) as HI1.
  fold (lookup_handle c id) in Hg.
  destruct (lru.Get (activeHandles c) id) as [ah r]. cbn [fst snd] in *.
  destruct r as [oldEntry|].
  - destruct (Hj id oldEntry) as [Hjo Hjn]; [left|done|].
    rewrite activeHandles_evict. cbn [activeHandles set_activeHandles].
    apply IH; [|done|].
    + rewrite <- Hjo. apply Inv_retarget; [done| |done].
      rewrite lookup_handle_set, Hp. exact (eq_sym Hg).
    + intros id' e Hin. rewrite lookup_handle_append, lookup_handle_set.
      destruct (Add_present ah id (mkEntry (entry_f oldEntry) newPathCopy))
        as (_ & _ & _ & Hpk).
      { apply HI1. } { exists oldEntry. by rewrite Hp. }
      rewrite Hpk. rewrite decide_False by (intros ->; done). rewrite Hp.
      apply Hj. by right.
  - apply IH; [done|done|]. intros id' e Hin. rewrite lookup_handle_set, Hp.
    apply Hj. by right.
Qed.

Lemma in_bucket_default c k id : in_bucket c k id ↔ id ∈ bucket c k.
Proof.
  unfold in_bucket, bucket. destruct (reverseHandles c !! k) as [b|]; simpl.
  - split; [by intros (b0 & [= <-] & ?)|eauto].
  - split; [by intros (? & ? & _)|]. intros Hin. by apply elem_of_nil in Hin.
Qed.

(** The forward map after [UpdateHandlesByPath], and the number it
    returns: the live handles of the old bucket are retargeted and
    counted, the others are passed over. *)
Lemma UpdateHandlesByPath_lookup c fs oldPath newPath a :
  lru.wf (activeHandles c) →
  lru.wf (activeHandles (UpdateHandlesByPath c fs oldPath newPath a).1)
  ∧ (∀ id, lookup_handle (UpdateHandlesByPath c fs oldPath newPath a).1 id
           = if decide (id ∈ bucket c (Join fs oldPath))
             then retargeted (make_copy a newPath) <$> lookup_handle c id
             else lookup_handle c id)
  ∧ (UpdateHandlesByPath c fs oldPath newPath a).2
    = Z.of_nat (length (filter (λ id, is_Some (lookup_handle c id))
                          (bucket c (Join fs oldPath)))).
Proof.
  intros Hw. unfold UpdateHandlesByPath, bucket.
  destruct (reverseHandles c !! Join fs oldPath) as [uuids|] eqn:Hb; cbn [default].
  - destruct (decide (length uuids = 0%nat)) as [Hz|Hnz].
    + apply nil_length_inv in Hz. subst uuids. cbn [fst snd]. split; [done|].
      split; [|done]. intros id. rewrite decide_False; [done|apply not_elem_of_nil].
    + destruct (UpdateHandlesByPath_loop_lookup uuids c (Join fs oldPath) (Join fs newPath)
                  (make_copy a newPath) 0 Hw) as (HwR & HlkR & HnR).
      split; [done|]. split; [|by rewrite HnR]. intros id. by rewrite HlkR.
  - cbn [fst snd]. split; [done|]. split; [|done]. intros id.
    rewrite decide_False; [done|apply not_elem_of_nil].
Qed.

Lemma Inv_UpdateHandlesByPath c fs oldPath newPath a :
  Inv c → joins_alike c fs oldPath newPath →
  Inv (UpdateHandlesByPath c fs oldPath newPath a).1.
Proof.
  intros HI Hja. unfold UpdateHandlesByPath.
  destruct (reverseHandles c !! Join fs oldPath) as [uuids|] eqn:Hb; [|done].
  destruct (decide (length uuids = 0%nat)); [done|].
  apply UpdateHandlesByPath_loop_Inv; [done|by eapply (inv_nodup c)|].
  intros id e Hin He.
  assert (joined e = Join fs oldPath) as Hj.
  { assert (in_bucket c (Join fs oldPath) id) as Hib by (by exists uuids).
    apply (inv_index c HI) in Hib as (e0 & He0 & Hj0). congruence. }
  split; [done|]. by apply (Hja id e).
Qed.

(** With a consistent index, the old bucket holds exactly the handles
    whose entry joins to the old path. *)
Lemma UpdateHandlesByPath_lookup_Inv c fs oldPath newPath a id :
  Inv c →
  lookup_handle (UpdateHandlesByPath c fs oldPath newPath a).1 id
    = match lookup_handle c id with
      | Some e => if decide (joined e = Join fs oldPath)
                  then Some (retargeted (make_copy a newPath) e) else Some e
      | None => None
      end.
Proof.
  intros HI. destruct (UpdateHandlesByPath_lookup c fs oldPath newPath a (inv_lru c HI))
    as (_ & Hlk & _).
  rewrite Hlk. destruct (lookup_handle c id) as [e|] eqn:He.
  - destruct (decide (joined e = Join fs oldPath)) as [Hj|Hj].
    + rewrite decide_True; [done|]. apply in_bucket_default, (inv_index c HI). eauto.
    + rewrite decide_False; [done|]. intros Hin.
      apply in_bucket_default, (inv_index c HI) in Hin as (e0 & He0 & Hj0). congruence.
  - by case_decide.
Qed.

Lemma Inv_New limit c0 : NewCachingHandler limit = Some c0 → Inv c0.
Proof.
  unfold NewCachingHandler, NewCachingHandlerWithVerifierLimit, lru.New.
  destruct (limit <=? 0) eqn:E; [done|]. intros [= <-]. apply Z.leb_gt in E. split.
  - split; [apply NoDup_nil_2|]. cbn [lru.size lru.items activeHandles]. simpl. lia.
  - done.
  - intros k id. split; [|by intros (? & ? & _)]. by intros (b & Hb & _).
  - by intros k b Hb.
Qed.

Lemma emptyCache_New (limit : nat) :
  (1 ≤ limit)%nat → NewCachingHandler (Z.of_nat limit) = Some (emptyCache limit).
Proof.
  intros Hl. unfold NewCachingHandler, NewCachingHandlerWithVerifierLimit, lru.New.
  destruct (Z.of_nat limit <=? 0) eqn:E; [apply Z.leb_le in E; lia|].
  unfold emptyCache. by rewrite Nat2Z.id.
Qed.

Lemma emptyCache_Inv (limit : nat) : (1 ≤ limit)%nat → Inv (emptyCache limit).
Proof. intros Hl. by apply (Inv_New (Z.of_nat limit)), emptyCache_New. Qed.

Lemma Inv_UpdateHandle c fs handle newPath a :
  Inv c → Inv (UpdateHandle c fs handle newPath a).1.
Proof.
  intros HI. destruct (decide (length handle = 16%nat)) as [Hl|Hl].
  - destruct (lookup_handle c handle) as [e|] eqn:He.
    + by destruct (UpdateHandle_spec c fs handle newPath a e HI Hl He) as (_ & ? & _).
    + unfold UpdateHandle. rewrite (uuid_FromBytes_ok handle Hl).
      pose proof (Get_snd (activeHandles c) handle) as Hg.
      pose proof (Inv_Get c handle HI) as HI1.
      fold (lookup_handle c handle) in Hg. rewrite He in Hg.
      destruct (lru.Get (activeHandles c) handle) as [ah r]. cbn [fst snd] in *. by subst r.
  - unfold UpdateHandle. by rewrite (uuid_FromBytes_bad handle Hl).
Qed.

(** ** The reverse index after [UpdateHandlesByPath] *)

Lemma UpdateHandlesByPath_loop_index uuidsCopy : ∀ c oldJ newJ newPathCopy updated,
  lru.wf (activeHandles c) → buckets_nodup c → NoDup uuidsCopy →
  (newJ ≠ oldJ → ∀ id, id ∈ uuidsCopy → ¬ in_bucket c newJ id) →
  buckets_nodup (UpdateHandlesByPath_loop c oldJ newJ newPathCopy uuidsCopy updated).1
  ∧ ∀ k id,
      in_bucket (UpdateHandlesByPath_loop c oldJ newJ newPathCopy uuidsCopy updated).1 k id
      ↔ (in_bucket c k id
         ∧ ¬ (k = oldJ ∧ id ∈ uuidsCopy ∧ is_Some (lookup_handle c id)))
        ∨ (k = newJ ∧ id ∈ uuidsCopy ∧ is_Some (lookup_handle c id)).
Proof.
  induction uuidsCopy as [|id rest IH]; intros c oldJ newJ newPathCopy updated Hw Hnd Hu Hnew.
  { cbn [UpdateHandlesByPath_loop fst]. split; [done|]. intros k x.
    split; [|intros [[? _]|(_ & Hin & _)]; [done|by apply elem_of_nil in Hin]].
    intros Hin. left. split; [done|]. intros (_ & Hx & _). by apply elem_of_nil in Hx. }
  cbn [UpdateHandlesByPath_loop]. apply NoDup_cons in Hu as [Hid Hu].
  pose proof (Get_snd (activeHandles c) id) as Hg.
  pose proof (Peek_Get (activeHandles c) id) as Hp.
  pose proof (wf_Get (activeHandles c) id Hw) as Hw1.
  fold (lookup_handle c id) in Hg.
  destruct (lru.Get (activeHandles c) id) as [ah r]. cbn [fst snd] in *.
  destruct r as [oldEntry|].
  - set (c4 := appendReverse _ newJ id).
    assert (∀ k x, in_bucket c4 k x
              ↔ (in_bucket c k x ∧ ¬ (k = oldJ ∧ x = id)) ∨ (k = newJ ∧ x = id)) as Hb4.
    { intros k x. unfold c4. rewrite in_bucket_append, in_bucket_set_activeHandles.
      rewrite in_bucket_evict by done. by rewrite in_bucket_set_activeHandles. }
    assert (buckets_nodup c4) as Hnd4.
    { unfold c4. apply buckets_nodup_append.
      - apply (buckets_nodup_evict (set_activeHandles c ah) oldJ id). done.
      - rewrite in_bucket_set_activeHandles, in_bucket_evict by done.
        rewrite in_bucket_set_activeHandles. intros [Hin Hn].
        destruct (decide (newJ = oldJ)) as [->|Hne]; [by apply Hn|].
        apply (Hnew Hne id); [left|done]. }
    assert (lru.wf (activeHandles c4)
            ∧ ∀ x, is_Some (lookup_handle c4 x) ↔ is_Some (lookup_handle c x)) as [Hw4 Hlive].
    { unfold c4. rewrite activeHandles_append. cbn [activeHandles set_activeHandles].
      rewrite activeHandles_evict. cbn [activeHandles set_activeHandles].
      destruct (Add_present ah id (mkEntry (entry_f oldEntry) newPathCopy) Hw1)
        as (_ & Hw2 & _ & Hpk).
      { exists oldEntry. by rewrite Hp. }
      split; [done|]. intros x. rewrite lookup_handle_append, lookup_handle_set, Hpk.
      destruct (decide (x = id)) as [->|Hne].
      - rewrite <- Hg. split; eauto.
      - by rewrite Hp. }
    destruct (IH c4 oldJ newJ newPathCopy (updated + 1) Hw4 Hnd4 Hu) as [HndR HbR].
    { intros Hne x Hx. rewrite Hb4. intros [[Hin _]|[_ ->]]; [|done].
      apply (Hnew Hne x); [by right|done]. }
    split; [done|]. intros k x. rewrite HbR, Hb4, Hlive, elem_of_cons.
    assert (is_Some (lookup_handle c id)) as Hlid by (rewrite <- Hg; eauto).
    destruct (decide (x = id)) as [->|Hne].
    2:{ assert ((x = id ∨ x ∈ rest) ↔ x ∈ rest) as -> by (split; [by intros [?|?]|auto]).
        assert ((in_bucket c k x ∧ ¬ (k = oldJ ∧ x = id)) ∨ (k = newJ ∧ x = id)
                ↔ in_bucket c k x) as ->; [|done].
        split; [by intros [[? _]|[_ ?]]|]. intros Hin. left. split; [done|]. by intros [_ ?]. }
    split.
    + intros [[[[Hin Hn]|[-> _]] _]|(-> & Hin & _)]; [| |done].
      * left. split; [done|]. intros (-> & _). by apply Hn.
      * right. split; [done|]. split; [by left|done].
    + intros [[Hin Hn]|(-> & _)].
      * left. split; [|by intros (_ & ? & _)]. left. split; [done|].
        intros [-> _]. apply Hn. split; [done|]. split; [by left|done].
      * left. split; [by right|]. by intros (_ & ? & _).
  - destruct (IH (set_activeHandles c ah) oldJ newJ newPathCopy updated Hw1 Hnd Hu)
      as [HndR HbR].
    { intros Hne x Hx. rewrite in_bucket_set_activeHandles. apply (Hnew Hne). by right. }
    split; [done|]. intros k x. rewrite HbR, in_bucket_set_activeHandles.
    rewrite lookup_handle_set, Hp. fold (lookup_handle c x). rewrite elem_of_cons.
    assert ((x = id ∨ x ∈ rest) ∧ is_Some (lookup_handle c x)
            ↔ x ∈ rest ∧ is_Some (lookup_handle c x)) as ->; [|done].
    split; [|intros [? ?]; auto]. intros [[->|Hin] Hl]; [|done].
    destruct Hl as [e He]. congruence.
Qed.

(** With a consistent index, [UpdateHandlesByPath] moves the whole bucket
    of the old path to the bucket of the new path and touches no other
    bucket. *)
Lemma UpdateHandlesByPath_index c fs oldPath newPath a :
  Inv c →
  buckets_nodup (UpdateHandlesByPath c fs oldPath newPath a).1
  ∧ ∀ k id,
      in_bucket (UpdateHandlesByPath c fs oldPath newPath a).1 k id
      ↔ (in_bucket c k id ∧ k ≠ Join fs oldPath)
        ∨ (k = Join fs newPath ∧ in_bucket c (Join fs oldPath) id).
Proof.
  intros HI. pose proof HI as [Hw Hu Hix Hnd]. unfold UpdateHandlesByPath.
  destruct (reverseHandles c !! Join fs oldPath) as [uuids|] eqn:Hb.
  - destruct (decide (length uuids = 0%nat)) as [Hz|Hnz].
    + apply nil_length_inv in Hz. subst uuids. cbn [fst]. split; [done|]. intros k id.
      assert (¬ in_bucket c (Join fs oldPath) id) as Hno.
      { intros (b & Hb' & Hin). rewrite Hb in Hb'. injection Hb' as <-.
        by apply elem_of_nil in Hin. }
      split; [|intros [[? _]|[_ ?]]; done]. intros Hin. left. split; [done|].
      by intros ->.
    + assert (∀ id, id ∈ uuids ↔ in_bucket c (Join fs oldPath) id) as Hmem.
      { intros id. split; [intros Hin; by exists uuids|].
        intros (b & Hb' & Hin). congruence. }
      destruct (UpdateHandlesByPath_loop_index uuids c (Join fs oldPath) (Join fs newPath)
                  (make_copy a newPath) 0 Hw Hnd (Hnd _ _ Hb)) as [HndR HbR].
      { intros Hne id Hin Hin'. apply Hmem, Hix in Hin as (e & He & Hj).
        apply Hix in Hin' as (e' & He' & Hj'). congruence. }
      split; [done|]. intros k id. rewrite HbR, Hmem.
      assert (in_bucket c (Join fs oldPath) id → is_Some (lookup_handle c id)) as Hlive.
      { intros Hin. apply Hix in Hin as (e & He & _). eauto. }
      split.
      * intros [[Hin Hn]|(-> & Hin & _)]; [left|by right]. split; [done|].
        intros ->. apply Hn. auto.
      * intros [[Hin Hne]|[-> Hin]]; [left|right; auto]. split; [done|].
        by intros [? _].
  - cbn [fst]. split; [done|]. intros k id.
    assert (¬ in_bucket c (Join fs oldPath) id) as Hno.
    { intros (b & Hb' & _). congruence. }
    split; [|intros [[? _]|[_ ?]]; done]. intros Hin. left. split; [done|]. by intros ->.
Qed.

(** ** The claims on the handle cache *)

(** C9, as the code has it. The forward map and the reverse index are
    exactly consistent in a new cache and stay so after each of
    [ToHandle] (given the new UUID that [uuid.New] draws), [FromHandle],
    [InvalidateHandle] and [UpdateHandle]: a handle is filed under a path
    if and only if the forward map holds it with an entry that joins to
    that path, so a handle that left the forward map is in no bucket.
    After [UpdateHandlesByPath] they are consistent exactly when the
    backends of the handles filed under the old path join the new path as
    the backend of the call does. *)
Theorem C9_forward_reverse_consistent :
  (∀ limit c0, NewCachingHandler limit = Some c0 → Inv c0)
  ∧ ∀ c, Inv c →
      (∀ fs path id a,
         lookup_handle c id = None → length id = 16%nat → Inv (ToHandle c fs path id a).1)
      ∧ (∀ fh a, Inv (FromHandle c fh a).1)
      ∧ (∀ fs handle, Inv (InvalidateHandle c fs handle))
      ∧ (∀ fs handle newPath a, Inv (UpdateHandle c fs handle newPath a).1)
      ∧ (∀ fs oldPath newPath a,
           Inv (UpdateHandlesByPath c fs oldPath newPath a).1
           ↔ joins_alike c fs oldPath newPath).
Proof.
  split; [apply Inv_New|]. intros c HI. split; [|split; [|split; [|split]]].
  - intros. by apply Inv_ToHandle.
  - intros. by apply Inv_FromHandle.
  - intros. by apply Inv_InvalidateHandle.
  - intros. by apply Inv_UpdateHandle.
  - intros fs oldPath newPath a. split; [|by apply Inv_UpdateHandlesByPath].
    intros HI' id e He Hj.
    destruct (UpdateHandlesByPath_index c fs oldPath newPath a HI) as [_ Hb].
    assert (in_bucket (UpdateHandlesByPath c fs oldPath newPath a).1 (Join fs newPath) id)
      as Hin.
    { apply Hb. right. split; [done|]. apply (inv_index c HI). eauto. }
    apply (inv_index _ HI') in Hin as (e' & He' & Hj').
    rewrite UpdateHandlesByPath_lookup_Inv in He' by done. rewrite He in He'.
    rewrite decide_True in He' by done. injection He' as <-. exact Hj'.
Qed.



(** ** The rename handler *)

Section RenameProps.
Context {World : Type}.
Variable Stat : Filesystem → World → string → StatResult.
Variable Rename : Filesystem → World → string → string → World * RenameResult.
Variable WriteCapability : Filesystem → bool.
Variable PathNameMax : nat.
Context {FileAttribute FileCacheAttribute : Type}.
Variable ToFileAttribute : FileInfo → string → FileAttribute.
Variable AsCache : FileAttribute → FileCacheAttribute.

Lemma renames_app calls calls' : renames (calls ++ calls') = renames calls ++ renames calls'.
Proof. apply filter_app. Qed.

Lemma respond_spec {H} (h : H) (w : World) calls fs fromPath toPath
    (pre1 pre2 : FileCacheAttribute) env :
  let r := respond Stat ToFileAttribute h w calls fs fromPath toPath pre1 pre2 env in
  out_handler r = h ∧ out_world r = w ∧ renames (out_calls r) = renames calls
  ∧ (out_err r = None ∨ out_err r = Some NFSStatusServerFault).
Proof.
  unfold respond.
  destruct (io_status_ok env), (io_wcc1_ok env), (io_wcc2_ok env), (io_send_ok env);
    cbn [negb out_handler out_world out_calls out_err];
    rewrite ?renames_app, ?app_nil_r; auto.
Qed.

(** C5, as the code has it. A rename request that fails one of the steps
    1 to 5 (decoding and resolving the two handles, same backend, writable
    backend, name lengths, stat of both directories) gets the error of
    that step, no rename call reaches the backend and its state is
    untouched. Otherwise the backend receives exactly one rename call, and
    the state it leaves is the final state. When that call fails the
    request ends with [NoEnt], [Access] or [IO] by the kind of the error
    and the handler is the one the two resolutions left. When it succeeds
    the handler is what the propagation leaves, whose outcome decides
    nothing, and the status is decided by the four writes of the response
    alone: success when all succeed, [ServerFault] when one fails. *)
Theorem C5_rename_failure_semantics {H} (userHandle : Handler H) (h : H) (w : World)
    (req : Request) (env : Env) :
  let r := onRename Stat Rename WriteCapability PathNameMax ToFileAttribute AsCache
             userHandle h w req env in
  match steps_1_to_5 Stat WriteCapability PathNameMax userHandle h w req env with
  | Some st => out_err r = Some st ∧ out_world r = w ∧ renames (out_calls r) = []
  | None =>
      ∃ from to fs fromPath toPath,
        req_from req = Some from ∧ req_to req = Some to
        ∧ (h_FromHandle userHandle h (Handle from) (env_arr1 env)).2 = Resolved fs fromPath
        ∧ (h_FromHandle userHandle (h_FromHandle userHandle h (Handle from) (env_arr1 env)).1
             (Handle to) (env_arr2 env)).2 = Resolved fs toPath
        ∧ let h2 :=
            (h_FromHandle userHandle (h_FromHandle userHandle h (Handle from) (env_arr1 env)).1
               (Handle to) (env_arr2 env)).1 in
          let oldPath := elems fromPath ++ [Filename from] in
          let newPath := elems toPath ++ [Filename to] in
          let renamed := Rename fs w (Join fs oldPath) (Join fs newPath) in
          renames (out_calls r) = [CallRename fs (Join fs oldPath) (Join fs newPath)]
          ∧ out_world r = renamed.1
          ∧ match renamed.2 with
            | RenameOk =>
                out_handler r = propagate userHandle h2 fs oldPath newPath env
                ∧ out_err r
                  = if io_status_ok env && io_wcc1_ok env && io_wcc2_ok env && io_send_ok env
                    then None else Some NFSStatusServerFault
            | RenameNotExist => out_err r = Some NFSStatusNoEnt ∧ out_handler r = h2
            | RenamePermission => out_err r = Some NFSStatusAccess ∧ out_handler r = h2
            | RenameError => out_err r = Some NFSStatusIO ∧ out_handler r = h2
            end
  end.
Proof.
  unfold onRename, steps_1_to_5.
  destruct (req_from req) as [from|]; [|done].
  destruct (h_FromHandle userHandle h (Handle from) (env_arr1 env)) as [h1 [fs fromPath| |]]
    eqn:E1; cbn [fst snd]; [|done|done].
  destruct (req_to req) as [to|]; [|done].
  destruct (h_FromHandle userHandle h1 (Handle to) (env_arr2 env)) as [h2 [fs2 toPath| |]]
    eqn:E2; cbn [fst snd]; [|done|done].
  cbn [first_failure foldr]. unfold check, stat_dir.
  destruct (bool_decide (fs = fs2)) eqn:Efs; cbn [negb]; [|done].
  apply bool_decide_eq_true in Efs. subst fs2.
  destruct (WriteCapability fs); cbn [negb]; [|done].
  assert (((PathNameMax <? String.length (Filename from))%nat
           || (PathNameMax <? String.length (Filename to))%nat)
          = negb ((String.length (Filename from) <=? PathNameMax)%nat
                  && (String.length (Filename to) <=? PathNameMax)%nat)) as ->.
  { rewrite negb_andb, !Nat.leb_antisym, !negb_involutive. done. }
  destruct ((String.length (Filename from) <=? PathNameMax)%nat
            && (String.length (Filename to) <=? PathNameMax)%nat); cbn [negb]; [|done].
  destruct (Stat fs w (Join fs (elems fromPath))) as [fromDirInfo| |]; [|done|done].
  destruct (IsDir fromDirInfo); cbn [negb]; [|done].
  destruct (Stat fs w (Join fs (elems toPath))) as [toDirInfo| |]; [|done|done].
  destruct (IsDir toDirInfo); cbn [negb]; [|done].
  exists from, to, fs, fromPath, toPath.
  split; [done|]. split; [done|]. rewrite E1. cbn [fst snd]. rewrite E2. cbn [fst snd].
  split; [done|]. split; [done|].
  destruct (Rename fs w (Join fs (elems fromPath ++ [Filename from]))
              (Join fs (elems toPath ++ [Filename to]))) as [w' [| | |]] eqn:ER;
    cbn [fst snd]; [|done|done|done].
  unfold respond.
  destruct (io_status_ok env), (io_wcc1_ok env), (io_wcc2_ok env), (io_send_ok env);
    cbn [negb andb out_err out_handler out_world out_calls];
    rewrite ?renames_app, ?app_nil_r; done.
Qed.


End RenameProps.

(** ** The refresh of [FromHandle] *)

Lemma hasPrefix_loop_spec (path prefix : list string) :
  hasPrefix_loop path prefix = true ↔ prefix `prefix_of` path.
Proof.
  revert path. induction prefix as [|x prefix IH]; intros path; simpl.
  - split; [intros _; apply prefix_nil|done].
  - destruct path as [|y path].
    + split; [done|]. intros Hp. by apply prefix_nil_inv in Hp.
    + destruct (decide (y = x)) as [->|Hne].
      * rewrite IH. split; [apply prefix_cons|apply prefix_cons_inv_2].
      * split; [done|]. intros Hp. apply prefix_cons_inv_1 in Hp. congruence.
Qed.

Lemma hasPrefix_spec (path prefix : list string) :
  hasPrefix path prefix = true ↔ prefix `prefix_of` path.
Proof.
  unfold hasPrefix. destruct (length path <? length prefix)%nat eqn:E.
  - apply Nat.ltb_lt in E. split; [done|]. intros Hp. apply prefix_length in Hp. lia.
  - apply hasPrefix_loop_spec.
Qed.

Lemma del_app (k : UUID) (l1 l2 : list (UUID * entry)) :
  lru.del k (l1 ++ l2) = lru.del k l1 ++ lru.del k l2.
Proof. apply filter_app. Qed.

(** The loop over [Keys()], from the oldest key on: the keys still to come
    are those of [todo]; the entries of [todo] that are refreshed end up
    in front, in their order, and the others stay where they are. *)
Lemma refresh_fold_items (fp : list string) (todo : list (UUID * entry)) :
  ∀ sz (front back : list (UUID * entry)),
  NoDup (front ++ todo ++ back).*1 →
  fold_left (refresh_step fp) (rev todo.*1) (lru.mk sz (front ++ todo ++ back))
  = lru.mk sz
      (filter (λ kv, hasPrefix fp (elems (entry_p kv.2)) = true) todo
       ++ front
       ++ filter (λ kv, ¬ hasPrefix fp (elems (entry_p kv.2)) = true) todo
       ++ back).
Proof.
  induction todo as [|[k e] todo IH] using rev_ind; intros sz front back Hnd; [done|].
  rewrite fmap_app, rev_app_distr. cbn [fmap list_fmap rev app fst fold_left].
  rewrite !filter_app, !filter_cons, !filter_nil. cbn [snd].
  assert (lru.find k (front ++ (todo ++ [(k, e)]) ++ back) = Some e) as Hf.
  { apply elem_find; [done|]. rewrite !elem_of_app, list_elem_of_singleton. auto. }
  assert (lru.del k (front ++ (todo ++ [(k, e)]) ++ back) = front ++ todo ++ back) as Hd.
  { rewrite !fmap_app in Hnd. apply NoDup_app in Hnd as (Hn1 & Hd1 & Hn2).
    apply NoDup_app in Hn2 as (Hn2 & Hd2 & Hn3). apply NoDup_app in Hn2 as (Hn4 & Hd3 & _).
    rewrite !del_app. unfold lru.del at 3. rewrite filter_cons, filter_nil. cbn [fst].
    rewrite decide_False by tauto. rewrite app_nil_r.
    rewrite !del_id; [done| | |].
    - intros Hin. apply (Hd2 k); [|done]. rewrite elem_of_app. right. simpl. left.
    - intros Hin. apply (Hd3 k Hin). simpl. left.
    - intros Hin. apply (Hd1 k Hin). rewrite !elem_of_app. left. right. simpl. left. }
  unfold refresh_step at 2. unfold lru.Peek, lru.Get. cbn [lru.items lru.size]. rewrite Hf.
  destruct (hasPrefix fp (elems (entry_p e))) eqn:Hm; cbn [fst].
  - rewrite decide_True by done. rewrite decide_False by (intros Hn; by apply Hn).
    rewrite Hd. pose proof (IH sz ((k, e) :: front) back) as IH'.
    cbn [app] in IH'. rewrite IH'.
    + by rewrite app_nil_r, <- !app_assoc.
    + rewrite !fmap_app in Hnd. rewrite fmap_cons, !fmap_app. cbn [fst].
      apply NoDup_cons. split.
      * rewrite <- !fmap_app, <- Hd. apply not_elem_keys_del.
      * rewrite <- !fmap_app, <- Hd. rewrite <- !fmap_app in Hnd.
        by apply NoDup_keys_del.
  - rewrite decide_False by done. rewrite decide_True by (by intros ?).
    rewrite <- (app_assoc todo [(k, e)] back). rewrite (IH sz front ([(k, e)] ++ back)).
    + by rewrite app_nil_r, <- !app_assoc.
    + by rewrite <- app_assoc in Hnd.
Qed.

Lemma hasPrefix_refl (path : list string) : hasPrefix path path = true.
Proof. by apply hasPrefix_spec. Qed.

Lemma filter_del_other (P : UUID * entry → Prop) `{∀ kv, Decision (P kv)}
    (k : UUID) (e : entry) (l : list (UUID * entry)) :
  NoDup l.*1 → lru.find k l = Some e → ¬ P (k, e) → filter P (lru.del k l) = filter P l.
Proof.
  intros Hnd Hf HP. induction l as [|[k' e'] l IH]; [done|].
  rewrite fmap_cons in Hnd. apply NoDup_cons in Hnd as [Hk' Hnd]. cbn [fst] in Hk'.
  unfold lru.del in *. rewrite filter_cons. cbn [fst]. simpl in Hf.
  destruct (decide (k' = k)) as [->|Hne].
  - injection Hf as ->. rewrite decide_False by tauto. rewrite (filter_cons_False P); [|done].
    fold (lru.del k l). by rewrite del_id.
  - rewrite decide_True by done. rewrite !filter_cons. rewrite IH by done. done.
Qed.

(** C7. A hit of [FromHandle] moves to the front of the LRU list the
    entry it resolves and every cached entry whose stored path is a prefix
    of the resolved path, and leaves all the other entries behind them in
    the order they had; it returns the stored backend and a new slice, in
    the array that [make] has just allocated, with the elements of the
    stored path. A miss in the forward map returns [Stale]. *)
Theorem C7_FromHandle_refresh c fh a :
  lru.wf (activeHandles c) → length fh = 16%nat →
  (∀ id e, lookup_handle c id = Some e → arr (entry_p e) ≠ a) →
  match lookup_handle c fh with
  | None => (FromHandle c fh a).2 = Stale
  | Some e =>
      let is_ancestor (kv : UUID * entry) :=
        elems (entry_p kv.2) `prefix_of` elems (entry_p e) in
      lru.items (activeHandles (FromHandle c fh a).1)
        = (fh, e) :: filter is_ancestor (lru.del fh (lru.items (activeHandles c)))
          ++ filter (λ kv, ¬ is_ancestor kv) (lru.items (activeHandles c))
      ∧ ∃ q, (FromHandle c fh a).2 = Resolved (entry_f e) q
             ∧ elems q = elems (entry_p e)
             ∧ arr q = a ∧ arr q ≠ arr (entry_p e)
  end.
Proof.
  intros (Hnd & Hsz & Hlen) Hl Hfresh. destruct (lookup_handle c fh) as [e|] eqn:He.
  - intros is_ancestor. split.
    + unfold FromHandle. rewrite (uuid_FromBytes_ok fh Hl). unfold lru.Get.
      fold (lru.Peek (activeHandles c) fh). fold (lookup_handle c fh). rewrite He.
      cbn [activeHandles set_activeHandles fst]. unfold lru.Keys. cbn [lru.items].
      pose proof (refresh_fold_items (elems (entry_p e))
                    ((fh, e) :: lru.del fh (lru.items (activeHandles c)))
                    (lru.size (activeHandles c)) [] []) as Hfold.
      rewrite app_nil_r in Hfold. cbn [app] in Hfold.
      etrans; [apply (f_equal lru.items), Hfold|].
      * rewrite fmap_cons. apply NoDup_cons.
        split; [apply not_elem_keys_del|by apply NoDup_keys_del].
      * cbn [lru.items]. rewrite !app_nil_r, !filter_cons. cbn [snd].
        rewrite decide_True by apply hasPrefix_refl.
        rewrite decide_False by (intros Hn; apply Hn, hasPrefix_refl).
        cbn [app]. f_equal. f_equal.
        -- apply list_filter_iff. intros kv. apply hasPrefix_spec.
        -- rewrite (filter_del_other _ fh e); [|done|exact He|].
           ++ apply list_filter_iff. intros kv. unfold is_ancestor.
              by rewrite hasPrefix_spec.
           ++ intros Hn. apply Hn, hasPrefix_refl.
    + exists (make_copy a (elems (entry_p e))).
      split; [by apply FromHandle_hit|]. split; [done|]. split; [done|].
      cbn [arr make_copy]. intros Ha. by apply (Hfresh fh e He).
  - by apply FromHandle_miss.
Qed.

(** ** The verifier cache *)

Lemma write_names_spec (contents : list FileInfo) (written : list byte) :
  write_names contents written = written ++ names_bytes contents.
Proof.
  unfold write_names, names_bytes. revert written.
  induction contents as [|c contents IH]; intros written; simpl.
  - by rewrite app_nil_r.
  - by rewrite IH, <- app_assoc.
Qed.

Lemma digest_input_spec (path : string) (contents : option (list FileInfo)) :
  digest_input path contents
  = BigEndian_AppendUint64 [] (Z.of_nat (String.length path) `mod` 2 ^ 64)
    ++ String.list_byte_of_string path ++ names_bytes (default [] contents).
Proof. unfold digest_input. by rewrite write_names_spec, <- app_assoc. Qed.

Lemma Z_of_byte_of_Z (z : Z) : Z_of_byte (byte_of_Z z) = z `mod` 256.
Proof.
  unfold Z_of_byte, byte_of_Z. pose proof (Z.mod_pos_bound z 256 eq_refl) as Hb.
  destruct (Byte.of_N (Z.to_N (z `mod` 256))) as [b|] eqn:E; simpl.
  - apply Byte.to_of_N in E. rewrite E. lia.
  - apply Byte.of_N_None_iff in E. lia.
Qed.

Lemma BigEndian_byte (v i : Z) :
  0 ≤ i → Z_of_byte (byte_of_Z (Z.land (Z.shiftr v (8 * i)) 255)) = (v `div` 2 ^ (8 * i)) `mod` 256.
Proof.
  intros Hi. rewrite Z_of_byte_of_Z. change 255 with (Z.ones 8).
  rewrite Z.land_ones by lia. rewrite Z.shiftr_div_pow2 by lia.
  change (2 ^ 8) with 256. by rewrite Z.mod_mod.
Qed.

Lemma BigEndian_AppendUint64_bytes (v : Z) :
  Z_of_byte <$> BigEndian_AppendUint64 [] v
  = (λ i, (v `div` 2 ^ (8 * i)) `mod` 256) <$> [7; 6; 5; 4; 3; 2; 1; 0].
Proof.
  unfold BigEndian_AppendUint64. cbn [app map fmap list_fmap].
  by rewrite !BigEndian_byte by lia.
Qed.

(** C8, as the code has it. [VerifierFor] returns, whatever the state of
    the cache, the first eight bytes (big-endian) of the SHA-256 digest of
    the eight bytes of the length of the path (most significant first),
    then the bytes of the path, then the entry names one after the other
    in listing order, with nothing between them: two listings of one path
    have the same digest input exactly when their names concatenate to the
    same bytes. *)
Theorem C8_verifier_digest (sha256_Sum : list byte → list byte) c1 c2 (path : string)
    (contents : option (list FileInfo)) :
  (VerifierFor sha256_Sum c1 path contents).2 = (VerifierFor sha256_Sum c2 path contents).2
  ∧ (VerifierFor sha256_Sum c1 path contents).2
    = BigEndian_Uint64 (take 8 (sha256_Sum (digest_input path contents)))
  ∧ digest_input path contents
    = BigEndian_AppendUint64 [] (Z.of_nat (String.length path) `mod` 2 ^ 64)
      ++ String.list_byte_of_string path ++ names_bytes (default [] contents)
  ∧ (∀ v, Z_of_byte <$> BigEndian_AppendUint64 [] v
          = (λ i, (v `div` 2 ^ (8 * i)) `mod` 256) <$> [7; 6; 5; 4; 3; 2; 1; 0])
  ∧ ∀ contents',
      digest_input path contents = digest_input path contents'
      ↔ names_bytes (default [] contents) = names_bytes (default [] contents').
Proof.
  split; [done|]. split; [done|]. split; [apply digest_input_spec|].
  split; [apply BigEndian_AppendUint64_bytes|]. intros contents'.
  rewrite !digest_input_spec. split.
  - intros Heq. by do 2 apply app_inv_head in Heq.
  - by intros ->.
Qed.

(** C10. [DataForVerifier] does not look at its path: two calls that
    differ only in the path return the same entries and leave the same
    cache. The lookup is by the id alone: an id that the cache holds gives
    the entries stored under it, whatever path they were stored with, and
    an id that it does not hold gives the nil slice and changes nothing. *)
Theorem C10_DataForVerifier_ignores_path c (p1 p2 : string) (id : Z) :
  DataForVerifier c p1 id = DataForVerifier c p2 id
  ∧ match lru.Peek (activeVerifiers c) id with
    | Some v => (DataForVerifier c p1 id).2 = verifier_contents v
    | None => DataForVerifier c p1 id = (c, None)
    end.
Proof.
  split; [done|]. unfold DataForVerifier.
  pose proof (Get_snd (activeVerifiers c) id) as Hg. unfold lru.Get in *.
  unfold lru.Peek in *. destruct (lru.find id (lru.items (activeVerifiers c))) as [v|].
  - done.
  - by destruct c.
Qed.

(** ** Minting: what the forward map holds afterwards *)

Lemma searchReverseCache_loop_Len ah fs uuids :
  lru.wf ah →
  lru.Len (searchReverseCache_loop ah fs uuids).1 = lru.Len ah
  ∧ lru.size (searchReverseCache_loop ah fs uuids).1 = lru.size ah.
Proof.
  revert ah. induction uuids as [|id rest IH]; intros ah Hw; [done|].
  cbn [searchReverseCache_loop].
  pose proof (Len_Get ah id (proj1 Hw)) as Hl. pose proof (size_Get ah id) as Hs.
  pose proof (wf_Get ah id Hw) as Hw1.
  destruct (lru.Get ah id) as [ah' [candidate|]]; cbn [fst snd] in *.
  - destruct (decide (entry_f candidate = fs)); [done|].
    destruct (IH ah' Hw1) as [-> ->]. done.
  - destruct (IH ah' Hw1) as [-> ->]. done.
Qed.

Lemma searchReverseCache_Len c fs k :
  lru.wf (activeHandles c) →
  lru.Len (activeHandles (searchReverseCache c fs k).1) = lru.Len (activeHandles c)
  ∧ lru.size (activeHandles (searchReverseCache c fs k).1) = lru.size (activeHandles c).
Proof.
  intros Hw. unfold searchReverseCache. destruct (reverseHandles c !! k) as [uuids|]; [|done].
  pose proof (searchReverseCache_loop_Len (activeHandles c) fs uuids Hw) as Hl.
  by destruct (searchReverseCache_loop (activeHandles c) fs uuids).
Qed.

Lemma ToHandle_mint_room c fs path k id a :
  lru.wf (activeHandles c) → lookup_handle c id = None →
  (lru.Len (activeHandles c) < lru.size (activeHandles c))%nat →
  (ToHandle_mint c fs path k id a).2 = id
  ∧ lru.Len (activeHandles (ToHandle_mint c fs path k id a).1) = S (lru.Len (activeHandles c))
  ∧ lru.size (activeHandles (ToHandle_mint c fs path k id a).1) = lru.size (activeHandles c)
  ∧ ∀ id', lookup_handle (ToHandle_mint c fs path k id a).1 id'
      = if decide (id' = id) then Some (mkEntry fs (make_copy a path))
        else lookup_handle c id'.
Proof.
  intros Hw Hid Hlt. unfold ToHandle_mint. rewrite (Add_room _ _ _ Hw Hid Hlt).
  cbn [fst snd]. split; [done|]. split; [done|]. split; [done|].
  intros id'. rewrite lookup_handle_append. unfold lookup_handle, lru.Peek. simpl.
  destruct (decide (id = id')) as [<-|Hne]; [by rewrite decide_True|].
  by rewrite decide_False by congruence.
Qed.

Lemma ToHandle_mint_full c fs path k id a :
  lru.wf (activeHandles c) → lookup_handle c id = None →
  lru.Len (activeHandles c) = lru.size (activeHandles c) →
  ∃ ko vo,
    lru.GetOldest (activeHandles c) = Some (ko, vo)
    ∧ lookup_handle c ko = Some vo ∧ ko ≠ id
    ∧ (ToHandle_mint c fs path k id a).2 = id
    ∧ lru.Len (activeHandles (ToHandle_mint c fs path k id a).1) = lru.size (activeHandles c)
    ∧ lru.size (activeHandles (ToHandle_mint c fs path k id a).1) = lru.size (activeHandles c)
    ∧ ∀ id', lookup_handle (ToHandle_mint c fs path k id a).1 id'
        = if decide (id' = id) then Some (mkEntry fs (make_copy a path))
          else if decide (id' = ko) then None else lookup_handle c id'.
Proof.
  intros Hw Hid Hfull. unfold ToHandle_mint.
  destruct (Add_full _ id (mkEntry fs (make_copy a path)) Hw Hid Hfull)
    as (l0 & ko & vo & Hl & Ho & HA).
  rewrite HA, Ho. cbn [fst snd]. destruct Hw as (Hk & Hsz & Hle). rewrite Hl in Hk.
  assert (∀ x, lookup_handle c x = lru.find x (l0 ++ [(ko, vo)])) as Hpk.
  { intros x. unfold lookup_handle, lru.Peek. by rewrite Hl. }
  assert (lookup_handle c ko = Some vo) as Hko.
  { rewrite Hpk, find_app. rewrite (find_snoc ko ko vo l0 Hk), decide_True by done.
    simpl. by rewrite decide_True. }
  exists ko, vo. split; [done|]. split; [done|].
  split; [intros ->; congruence|]. split; [done|].
  rewrite activeHandles_append, activeHandles_evict. cbn [activeHandles set_activeHandles].
  split; [|split; [done|]].
  - unfold lru.Len in *. rewrite Hl, length_app in Hfull. simpl in *. lia.
  - intros id'. rewrite lookup_handle_append, lookup_handle_evict.
    unfold lookup_handle at 1, lru.Peek. simpl.
    destruct (decide (id = id')) as [<-|Hne]; [by rewrite decide_True|].
    rewrite decide_False by congruence. rewrite (find_snoc id' ko vo l0 Hk).
    destruct (decide (id' = ko)); [done|]. by rewrite Hpk.
Qed.

(** Either way the new handle is live and the others are as before or
    gone. *)
Lemma ToHandle_mint_lookup c fs path k id a :
  lru.wf (activeHandles c) → lookup_handle c id = None →
  (ToHandle_mint c fs path k id a).2 = id
  ∧ lookup_handle (ToHandle_mint c fs path k id a).1 id
    = Some (mkEntry fs (make_copy a path))
  ∧ ∀ id' e, id' ≠ id → lookup_handle (ToHandle_mint c fs path k id a).1 id' = Some e →
      lookup_handle c id' = Some e.
Proof.
  intros Hw Hid.
  destruct (decide (lru.Len (activeHandles c) < lru.size (activeHandles c))%nat) as [Hlt|Hge].
  - destruct (ToHandle_mint_room c fs path k id a Hw Hid Hlt) as (H2 & _ & _ & Hlk).
    split; [done|]. split.
    + rewrite Hlk. by rewrite decide_True.
    + intros id' e Hne. rewrite Hlk. by rewrite decide_False.
  - assert (lru.Len (activeHandles c) = lru.size (activeHandles c)) as Hfull.
    { destruct Hw as (_ & _ & Hle). unfold lru.Len in *. lia. }
    destruct (ToHandle_mint_full c fs path k id a Hw Hid Hfull)
      as (ko & vo & _ & _ & _ & H2 & _ & _ & Hlk).
    split; [done|]. split.
    + rewrite Hlk. by rewrite decide_True.
    + intros id' e Hne. rewrite Hlk. rewrite decide_False by done. by case_decide.
Qed.

Lemma ToHandle_hit c fs path id a h :
  (searchReverseCache c fs (Join fs path)).2 = Some h →
  ToHandle c fs path id a = ((searchReverseCache c fs (Join fs path)).1, h).
Proof.
  unfold ToHandle. destruct (searchReverseCache c fs (Join fs path)) as [c1 r]. simpl.
  by intros ->.
Qed.

Lemma ToHandle_miss c fs path id a :
  (searchReverseCache c fs (Join fs path)).2 = None →
  ToHandle c fs path id a
  = ToHandle_mint (searchReverseCache c fs (Join fs path)).1 fs path (Join fs path) id a.
Proof.
  unfold ToHandle. destruct (searchReverseCache c fs (Join fs path)) as [c1 r]. simpl.
  by intros ->.
Qed.

Lemma filter_unique {A} (P : A → Prop) `{∀ x, Decision (P x)} (l : list A) (x : A) :
  NoDup l → x ∈ l → P x → (∀ y, y ∈ l → P y → y = x) → filter P l = [x].
Proof.
  induction l as [|z l IH]; intros Hnd Hin HP Hu; [by apply elem_of_nil in Hin|].
  apply NoDup_cons in Hnd as [Hz Hnd]. rewrite filter_cons.
  apply elem_of_cons in Hin as [->|Hin].
  - rewrite decide_True by done. f_equal.
    destruct (filter P l) as [|y l'] eqn:E; [done|]. exfalso.
    assert (y ∈ filter P l) as Hy by (rewrite E; left).
    apply list_elem_of_filter in Hy as [HPy Hy]. apply Hz.
    rewrite <- (Hu y); [done|by right|done].
  - rewrite decide_False.
    + apply IH; [done..|]. intros y Hy. apply Hu. by right.
    + intros HPz. apply Hz. rewrite (Hu z); [done|left|done].
Qed.

Lemma NoDup_bucket c k : buckets_nodup c → NoDup (bucket c k).
Proof.
  intros Hnd. unfold bucket. destruct (reverseHandles c !! k) eqn:Hb; [by eapply Hnd|].
  apply NoDup_nil_2.
Qed.

(** Two calls of [ToHandle] in a row for the same backend (by equality
    of backend values) and path: the second returns the handle of the
    first, both resolve, to that backend and to one and the same stored
    path, which joins as the given one does, and the second call leaves
    the forward map at the size the first left it. *)
Lemma ToHandle_twice_in_a_row c fs path id1 a1 id2 a2 :
  Inv c → lookup_handle c id1 = None → length id1 = 16%nat →
  let r1 := ToHandle c fs path id1 a1 in
  let r2 := ToHandle r1.1 fs path id2 a2 in
  r2.2 = r1.2
  ∧ lru.Len (activeHandles r2.1) = lru.Len (activeHandles r1.1)
  ∧ ∃ q, Join fs q = Join fs path
         ∧ (∀ a, (FromHandle r1.1 r1.2 a).2 = Resolved fs (make_copy a q))
         ∧ (∀ a, (FromHandle r2.1 r2.2 a).2 = Resolved fs (make_copy a q)).
Proof.
  intros HI Hid Hl r1 r2.
  set (k := Join fs path).
  destruct (searchReverseCache_spec c fs k) as (Hr & Hrh & Hlk & Hwf).
  pose proof (Inv_searchReverseCache c fs k HI) as HI1.
  pose proof (Inv_ToHandle c fs path id1 a1 HI Hid Hl) as HI'. fold r1 in HI'.
  (* the second search reads the bucket of [k] in the state the first call left *)
  destruct (searchReverseCache_spec r1.1 fs k) as (Hr' & Hrh' & Hlk' & _).
  destruct (searchReverseCache_Len r1.1 fs k (inv_lru _ HI')) as [HLen' _].
  assert (∃ e, r1.2 ∈ bucket r1.1 k ∧ lookup_handle r1.1 r1.2 = Some e ∧ entry_f e = fs
               ∧ Join fs (elems (entry_p e)) = k
               ∧ head (filter (λ id, is_match (activeHandles r1.1) fs id = true)
                         (bucket r1.1 k)) = Some r1.2) as (e & Hin & He & Hf & Hj & Hhead).
  { destruct (searchReverseCache c fs k).2 as [h|] eqn:Hs.
    - (* the first call found [h] *)
      assert (r1 = ((searchReverseCache c fs k).1, h)) as Hr1 by (by apply ToHandle_hit).
      rewrite Hr1. cbn [fst snd].
      assert (h ∈ filter (λ id, is_match (activeHandles c) fs id = true) (bucket c k)) as Hh.
      { apply head_Some_elem_of. symmetry. exact Hr. }
      apply list_elem_of_filter in Hh as [Hm Hin]. unfold is_match in Hm.
      fold (lookup_handle c h) in Hm. destruct (lookup_handle c h) as [e|] eqn:He; [|done].
      apply bool_decide_eq_true_1 in Hm. exists e.
      assert (bucket (searchReverseCache c fs k).1 k = bucket c k) as Hbk.
      { unfold bucket. by rewrite Hrh. }
      rewrite Hbk. split; [done|]. split; [by rewrite Hlk|]. split; [done|]. split.
      + apply in_bucket_default, (inv_index c HI) in Hin as (e0 & He0 & Hj0).
        rewrite <- Hm. unfold joined in Hj0. congruence.
      + rewrite (list_filter_iff _ (λ id, is_match (activeHandles c) fs id = true)).
        * symmetry. exact Hr.
        * intros x. rewrite (is_match_ext (activeHandles c)); [done|]. apply Hlk.
    - (* the first call minted [id1] *)
      assert (filter (λ id, is_match (activeHandles c) fs id = true) (bucket c k) = [])
        as Hnil.
      { unfold bucket.
        destruct (filter (λ id, is_match (activeHandles c) fs id = true)
                    (default [] (reverseHandles c !! k))); [done|]. by simpl in Hr. }
      assert (r1 = ToHandle_mint (searchReverseCache c fs k).1 fs path k id1 a1) as Hr1
        by (by apply ToHandle_miss).
      destruct (ToHandle_mint_lookup (searchReverseCache c fs k).1 fs path k id1 a1)
        as (H2 & Hnew & Hold); [apply HI1|by rewrite Hlk|].
      rewrite <- Hr1 in H2, Hnew, Hold. rewrite H2.
      exists (mkEntry fs (make_copy a1 path)).
      assert (id1 ∈ bucket r1.1 k) as Hin.
      { apply in_bucket_default, (inv_index _ HI'). eauto. }
      split; [done|]. split; [done|]. split; [done|]. split; [done|].
      rewrite (filter_unique _ _ id1); [done| | | |].
      + apply NoDup_bucket, HI'.
      + done.
      + unfold is_match. fold (lookup_handle r1.1 id1). rewrite Hnew.
        by apply bool_decide_eq_true_2.
      + intros y Hy Hm. destruct (decide (y = id1)) as [|Hne]; [done|]. exfalso.
        unfold is_match in Hm. fold (lookup_handle r1.1 y) in Hm.
        destruct (lookup_handle r1.1 y) as [ey|] eqn:Hey; [|done].
        apply in_bucket_default, (inv_index _ HI') in Hy as (ey' & Hey' & Hjy).
        assert (ey' = ey) as -> by congruence.
        apply Hold in Hey; [|done]. rewrite Hlk in Hey.
        assert (y ∈ filter (λ id, is_match (activeHandles c) fs id = true) (bucket c k)) as Hy.
        { apply list_elem_of_filter. split.
          - unfold is_match. fold (lookup_handle c y). by rewrite Hey.
          - apply in_bucket_default, (inv_index c HI). eauto. }
        rewrite Hnil in Hy. by apply elem_of_nil in Hy. }
  assert ((searchReverseCache r1.1 fs k).2 = Some r1.2) as Hs2.
  { rewrite Hr'. exact Hhead. }
  assert (r2 = ((searchReverseCache r1.1 fs k).1, r1.2)) as Hr2 by (by apply ToHandle_hit).
  rewrite Hr2. cbn [fst snd]. split; [done|]. split; [done|].
  exists (elems (entry_p e)). split; [done|].
  assert (length r1.2 = 16%nat) as Hl16 by (by eapply (inv_uuid _ HI')).
  split; intros a.
  - rewrite (FromHandle_hit _ _ a e Hl16 He). by rewrite Hf.
  - rewrite (FromHandle_hit _ _ a e Hl16); [by rewrite Hf|]. by rewrite Hlk'.
Qed.

(** ** Filling the cache and one entry more *)

Lemma issue_insert c x :
  inserts c x →
  issue c x = (ToHandle_mint (searched c x) (issue_fs x) (issue_path x)
                 (Join (issue_fs x) (issue_path x)) (issue_id x) (issue_arr x)).1.
Proof. intros Hi. unfold issue. by rewrite ToHandle_miss. Qed.

Lemma all_insert_app c xs ys :
  all_insert c (xs ++ ys) ↔ all_insert c xs ∧ all_insert (issue_all c xs) ys.
Proof.
  revert c. induction xs as [|x xs IH]; intros c; cbn [app all_insert]; [tauto|].
  rewrite IH. unfold issue_all. cbn [fold_left]. tauto.
Qed.

Lemma Filled_New limit c0 : NewCachingHandler limit = Some c0 → Filled c0 [] (Z.to_nat limit).
Proof.
  intros Hn. pose proof (Inv_New limit c0 Hn) as HI. revert Hn.
  unfold NewCachingHandler, NewCachingHandlerWithVerifierLimit, lru.New.
  destruct (limit <=? 0); [done|]. intros [= <-]. split; [done|]. split; [done|].
  split; [done|]. split; [intros y Hy; by apply elem_of_nil in Hy|done].
Qed.

Lemma Filled_step c done n x :
  Filled c done n → (length done < n)%nat → inserts c x →
  issue_id x ∉ issue_id <$> done → length (issue_id x) = 16%nat →
  Filled (issue c x) (done ++ [x]) n.
Proof.
  intros (HI & Hsz & HLen & Hlive & Hids) Hlt Hins Hfresh Hl.
  assert (lookup_handle c (issue_id x) = None) as Hnone.
  { destruct (lookup_handle c (issue_id x)) eqn:E; [|done]. exfalso. eauto. }
  pose proof (Inv_ToHandle c (issue_fs x) (issue_path x) (issue_id x) (issue_arr x)
                HI Hnone Hl) as HI'.
  fold (issue c x) in HI'. rewrite (issue_insert c x Hins) in *.
  destruct (searchReverseCache_spec c (issue_fs x) (Join (issue_fs x) (issue_path x)))
    as (_ & _ & Hlk & Hwf).
  destruct (searchReverseCache_Len c (issue_fs x) (Join (issue_fs x) (issue_path x)))
    as [HLs Hss]; [apply HI|].
  fold (searched c x) in Hlk, Hwf, HLs, Hss.
  destruct (ToHandle_mint_room (searched c x) (issue_fs x) (issue_path x)
              (Join (issue_fs x) (issue_path x)) (issue_id x) (issue_arr x))
    as (_ & HL' & Hs' & Hlk'); [apply Hwf, HI|by rewrite Hlk|lia|].
  split; [done|]. split; [lia|]. split; [rewrite length_app; simpl; lia|]. split.
  - intros y Hy. rewrite Hlk'. apply elem_of_app in Hy as [Hy|Hy].
    + rewrite decide_False.
      * rewrite Hlk. by apply Hlive.
      * intros Heq. apply Hfresh. rewrite <- Heq. by apply list_elem_of_fmap_2.
    + apply list_elem_of_singleton in Hy as ->. by rewrite decide_True.
  - intros id e. rewrite Hlk', fmap_app, elem_of_app.
    destruct (decide (id = issue_id x)) as [->|Hne].
    + intros _. right. simpl. left.
    + rewrite Hlk. intros He. left. eauto.
Qed.

Lemma Filled_run xs : ∀ c done n,
  Filled c done n → (length done + length xs ≤ n)%nat → all_insert c xs →
  NoDup (issue_id <$> (done ++ xs)) → Forall (λ y, length (issue_id y) = 16%nat) xs →
  Filled (issue_all c xs) (done ++ xs) n.
Proof.
  induction xs as [|x xs IH]; intros c done n HF Hlen Hall Hnd H16.
  { by rewrite app_nil_r. }
  cbn [all_insert] in Hall. destruct Hall as [Hins Hall].
  apply Forall_cons in H16 as [Hx H16]. simpl in Hlen.
  unfold issue_all. cbn [fold_left]. fold (issue_all (issue c x) xs).
  replace (done ++ x :: xs) with ((done ++ [x]) ++ xs) in * by (by rewrite <- app_assoc).
  apply IH; [|rewrite length_app; simpl; lia|done..].
  apply Filled_step; [done|lia|done| |done].
  rewrite !fmap_app in Hnd. apply NoDup_app in Hnd as [Hnd _].
  apply NoDup_app in Hnd as (_ & Hd & _). intros Hin. apply (Hd _ Hin). simpl. left.
Qed.

(** C3. [N + 1] calls of [ToHandle] on a new cache of capacity [N], each
    of which inserts an entry: the forward map never holds more than [N]
    entries; the last call evicts the entry that is the oldest when it
    adds its own (the least recently touched: the search of the call
    itself refreshes what it looks at), one of those issued before; the
    handle of that entry is [Stale] from then on and in no bucket of the
    reverse index, and each of the other [N] handles resolves to the
    backend and path it was issued for. *)
Theorem C3_lru_eviction (N : Z) c0 (xs : list Issue) (x : Issue) :
  NewCachingHandler N = Some c0 →
  length xs = Z.to_nat N →
  NoDup (issue_id <$> (xs ++ [x])) →
  Forall (λ y, length (issue_id y) = 16%nat) (xs ++ [x]) →
  all_insert c0 (xs ++ [x]) →
  (∀ pre, pre `prefix_of` xs ++ [x] →
     (lru.Len (activeHandles (issue_all c0 pre)) ≤ Z.to_nat N)%nat)
  ∧ ∃ victim e,
      lru.GetOldest (activeHandles (searched (issue_all c0 xs) x)) = Some (victim, e)
      ∧ victim ∈ issue_id <$> xs
      ∧ let c' := issue_all c0 (xs ++ [x]) in
        lru.Len (activeHandles c') = Z.to_nat N
        ∧ (∀ a, (FromHandle c' victim a).2 = Stale)
        ∧ (∀ y, y ∈ xs ++ [x] → issue_id y ≠ victim →
             ∀ a, (FromHandle c' (issue_id y) a).2
                  = Resolved (issue_fs y) (make_copy a (issue_path y)))
        ∧ ∀ k, ¬ in_bucket c' k victim.
Proof.
  intros Hnew Hlen Hnd H16 Hall. set (n := Z.to_nat N) in *.
  pose proof (Filled_New N c0 Hnew) as HF0. fold n in HF0.
  apply all_insert_app in Hall as [Hall Hlast]. cbn [all_insert] in Hlast.
  destruct Hlast as [Hins _].
  pose proof H16 as H16'. apply Forall_app in H16' as [H16xs H16x].
  rewrite Forall_singleton in H16x.
  assert (Filled (issue_all c0 xs) xs n) as HF.
  { apply (Filled_run xs c0 [] n); [done|simpl; lia|done| |done].
    rewrite fmap_app in Hnd. by apply NoDup_app in Hnd as [? _]. }
  destruct HF as (HI & Hsz & HLen & Hlive & Hids).
  set (cN := issue_all c0 xs) in *.
  assert (issue_id x ∉ issue_id <$> xs) as Hfresh.
  { rewrite fmap_app in Hnd. apply NoDup_app in Hnd as (_ & Hd & _).
    intros Hin. apply (Hd _ Hin). simpl. left. }
  assert (lookup_handle cN (issue_id x) = None) as Hnone.
  { destruct (lookup_handle cN (issue_id x)) eqn:E; [|done]. exfalso. eauto. }
  assert (issue_all c0 (xs ++ [x]) = issue cN x) as Hc'.
  { unfold issue_all. by rewrite fold_left_app. }
  pose proof (Inv_ToHandle cN (issue_fs x) (issue_path x) (issue_id x) (issue_arr x)
                HI Hnone H16x) as HI'.
  fold (issue cN x) in HI'.
  destruct (searchReverseCache_spec cN (issue_fs x) (Join (issue_fs x) (issue_path x)))
    as (_ & _ & Hlk & Hwf).
  destruct (searchReverseCache_Len cN (issue_fs x) (Join (issue_fs x) (issue_path x)))
    as [HLs Hss]; [apply HI|].
  fold (searched cN x) in Hlk, Hwf, HLs, Hss.
  destruct (ToHandle_mint_full (searched cN x) (issue_fs x) (issue_path x)
              (Join (issue_fs x) (issue_path x)) (issue_id x) (issue_arr x))
    as (ko & vo & Hold & Hko & Hne & _ & HL' & _ & Hlk'); [apply Hwf, HI|by rewrite Hlk|lia|].
  rewrite <- (issue_insert cN x Hins) in HL', Hlk'. rewrite Hlk in Hko.
  split.
  - intros pre [suf Hpre].
    destruct (decide (length pre ≤ n)%nat) as [Hle|Hgt].
    + assert (Filled (issue_all c0 pre) pre n) as (_ & _ & -> & _); [|done].
      apply (Filled_run pre c0 [] n); [done|simpl; lia| | |].
      * assert (all_insert c0 (xs ++ [x])) as Hall'.
        { apply all_insert_app. split; [done|]. cbn [all_insert]. done. }
        rewrite Hpre in Hall'. by apply all_insert_app in Hall' as [? _].
      * rewrite Hpre, fmap_app in Hnd. by apply NoDup_app in Hnd as [? _].
      * rewrite Hpre in H16. by apply Forall_app in H16 as [? _].
    + assert (suf = []) as ->.
      { apply (f_equal length) in Hpre. rewrite !length_app in Hpre. simpl in Hpre.
        destruct suf; [done|]. simpl in Hpre. lia. }
      rewrite app_nil_r in Hpre. subst pre. rewrite Hc', HL'. lia.
  - exists ko, vo. split; [done|]. split; [by eapply Hids|].
    cbn zeta. rewrite Hc'. split; [rewrite HL'; lia|]. split; [|split].
    + intros a. apply FromHandle_miss; [by eapply (inv_uuid cN HI)|].
      rewrite Hlk'. rewrite decide_False by done. by rewrite decide_True.
    + intros y Hy Hny a.
      assert (length (issue_id y) = 16%nat) as Hly.
      { by apply (proj1 (Forall_forall _ _) H16 y). }
      rewrite (FromHandle_hit _ _ a (mkEntry (issue_fs y)
                 (make_copy (issue_arr y) (issue_path y))) Hly); [done|].
      rewrite Hlk'. apply elem_of_app in Hy as [Hy|Hy].
      * rewrite decide_False.
        -- rewrite decide_False by done. rewrite Hlk. by apply Hlive.
        -- intros Heq. apply Hfresh. rewrite <- Heq. by apply list_elem_of_fmap_2.
      * apply list_elem_of_singleton in Hy as ->. by rewrite decide_True.
    + intros k Hin. apply (inv_index _ HI') in Hin as (e & He & _).
      rewrite Hlk' in He. rewrite decide_False in He by done.
      by rewrite decide_True in He.
Qed.

(** * Further properties of the handle cache *)

(** ** More on the LRU cache *)

Section LruMore.
Context {K V : Type} `{EqDecision K}.
Implicit Types (k : K) (v : V) (q : lru.Cache K V).

Lemma size_Add q k v : lru.size (lru.Add q k v).1 = lru.size q.
Proof.
  unfold lru.Add. destruct (lru.find k (lru.items q)); [done|].
  by destruct (lru.size q <? _)%nat.
Qed.

Lemma wf_Add q k v : lru.wf q → lru.wf (lru.Add q k v).1.
Proof.
  intros Hw. destruct (lru.Peek q k) as [v0|] eqn:Hk.
  - by destruct (Add_present q k v Hw) as (_ & ? & _); [eexists|].
  - pose proof Hw as (Hnd & Hsz & Hle).
    assert (k ∉ (lru.items q).*1) as Hni by (by apply find_None).
    destruct (decide (lru.Len q < lru.size q)%nat) as [Hlt|Hge].
    + rewrite (Add_room q k v Hw Hk Hlt). cbn [fst].
      split; [|split; [done|]]; cbn [lru.items lru.size].
      * rewrite fmap_cons. by apply NoDup_cons.
      * unfold lru.Len in Hlt. simpl. lia.
    + assert (lru.Len q = lru.size q) as Hfull by (unfold lru.Len in *; lia).
      destruct (Add_full q k v Hw Hk Hfull) as (l0 & ko & vo & Hl & _ & ->).
      rewrite Hl, fmap_app in Hnd, Hni. apply NoDup_app in Hnd as (Hnd0 & _ & _).
      rewrite Hl, length_app in Hle. simpl in Hle.
      cbn [fst]. split; [|split; [done|]]; cbn [lru.items lru.size].
      * rewrite fmap_cons. apply NoDup_cons. split; [|done].
        intros Hin. apply Hni, elem_of_app. by left.
      * simpl. lia.
Qed.

Lemma size_Remove q k : lru.size (lru.Remove q k).1 = lru.size q.
Proof. unfold lru.Remove. by destruct (lru.find k (lru.items q)). Qed.

Lemma Get_miss q k : lru.Peek q k = None → lru.Get q k = (q, None).
Proof. unfold lru.Get, lru.Peek. by intros ->. Qed.

Lemma Remove_miss q k : lru.Peek q k = None → lru.Remove q k = (q, false).
Proof. unfold lru.Remove, lru.Peek. by intros ->. Qed.

(** A key that has just been added is found, whatever was evicted. *)
Lemma Peek_Add_same q k v : lru.wf q → lru.Peek (lru.Add q k v).1 k = Some v.
Proof.
  intros Hw. destruct (lru.Peek q k) as [v0|] eqn:Hk.
  - destruct (Add_present q k v Hw) as (_ & _ & _ & Hpk); [by eexists|].
    rewrite Hpk. by rewrite decide_True.
  - destruct (decide (lru.Len q < lru.size q)%nat) as [Hlt|Hge].
    + rewrite (Add_room q k v Hw Hk Hlt). unfold lru.Peek. simpl. by rewrite decide_True.
    + assert (lru.Len q = lru.size q) as Hfull.
      { destruct Hw as (_ & _ & Hle). unfold lru.Len in *. lia. }
      destruct (Add_full q k v Hw Hk Hfull) as (l0 & ko & vo & _ & _ & ->).
      unfold lru.Peek. simpl. by rewrite decide_True.
Qed.
End LruMore.

Lemma set_activeHandles_id c : set_activeHandles c (activeHandles c) = c.
Proof. by destruct c. Qed.

Lemma set_activeVerifiers_id c : set_activeVerifiers c (activeVerifiers c) = c.
Proof. by destruct c. Qed.

(** ** The capacities *)

Lemma frame_evict c k id :
  activeVerifiers (evictReverseCache c k id) = activeVerifiers c
  ∧ cacheLimit (evictReverseCache c k id) = cacheLimit c.
Proof.
  unfold evictReverseCache. destruct (reverseHandles c !! k); [|done].
  by destruct (remove_first id l).
Qed.

Lemma activeHandles_mint c fs path k id a :
  activeHandles (ToHandle_mint c fs path k id a).1
  = (lru.Add (activeHandles c) id (mkEntry fs (make_copy a path))).1.
Proof.
  unfold ToHandle_mint. destruct (lru.Add _ _ _) as [ah evicted]. cbn [fst].
  rewrite activeHandles_append.
  destruct evicted, (lru.GetOldest (activeHandles c)) as [[ko vo]|];
    by rewrite ?activeHandles_evict.
Qed.

Lemma frame_mint c fs path k id a :
  activeVerifiers (ToHandle_mint c fs path k id a).1 = activeVerifiers c
  ∧ cacheLimit (ToHandle_mint c fs path k id a).1 = cacheLimit c.
Proof.
  unfold ToHandle_mint. destruct (lru.Add _ _ _) as [ah evicted]. cbn [fst].
  destruct evicted, (lru.GetOldest (activeHandles c)) as [[ko vo]|]; try done.
  cbn [appendReverse set_reverseHandles activeVerifiers cacheLimit].
  by destruct (frame_evict (set_activeHandles c ah) (joined vo) ko) as [-> ->].
Qed.

Lemma frame_search c fs k :
  activeVerifiers (searchReverseCache c fs k).1 = activeVerifiers c
  ∧ cacheLimit (searchReverseCache c fs k).1 = cacheLimit c.
Proof.
  unfold searchReverseCache. destruct (reverseHandles c !! k); [|done].
  by destruct (searchReverseCache_loop _ _ _).
Qed.

Lemma size_refresh_fold fp keys (ah : lru.Cache UUID entry) :
  lru.size (fold_left (refresh_step fp) keys ah) = lru.size ah.
Proof.
  revert ah. induction keys as [|k keys IH]; intros ah; [done|]. simpl. rewrite IH.
  unfold refresh_step. destruct (hasPrefix fp _); [apply size_Get|done].
Qed.

Lemma bounded_ToHandle n m l c fs path id a :
  bounded n m l c → bounded n m l (ToHandle c fs path id a).1.
Proof.
  intros (Hw & Hn & Hv & Hm & Hl). unfold ToHandle.
  destruct (searchReverseCache_spec c fs (Join fs path)) as (_ & _ & _ & Hw1).
  destruct (searchReverseCache_Len c fs (Join fs path) Hw) as [_ Hs1].
  destruct (frame_search c fs (Join fs path)) as [Hv1 Hl1].
  destruct (searchReverseCache c fs (Join fs path)) as [c1 [h|]]; cbn [fst snd] in *.
  - unfold bounded. rewrite Hv1, Hl1, Hs1. auto.
  - destruct (frame_mint c1 fs path (Join fs path) id a) as [Hv2 Hl2].
    unfold bounded. rewrite activeHandles_mint, Hv2, Hl2, Hv1, Hl1, size_Add, Hs1.
    split; [apply wf_Add; auto|done].
Qed.

Lemma bounded_FromHandle n m l c fh a :
  bounded n m l c → bounded n m l (FromHandle c fh a).1.
Proof.
  intros (Hw & Hn & Hv & Hm & Hl).
  destruct (FromHandle_state c fh a) as (_ & _ & Hw1). specialize (Hw1 Hw).
  revert Hw1. unfold FromHandle. destruct (uuid_FromBytes fh) as [id [err|]]; [done|].
  pose proof (size_Get (activeHandles c) id) as Hs.
  destruct (lru.Get (activeHandles c) id) as [ah [e|]]; cbn [fst snd] in *; intros Hw1.
  - split; [done|]. cbn [activeHandles set_activeHandles activeVerifiers cacheLimit].
    by rewrite size_refresh_fold, Hs.
  - split; [done|]. cbn [activeHandles set_activeHandles activeVerifiers cacheLimit].
    by rewrite Hs.
Qed.

Lemma bounded_InvalidateHandle n m l c fs handle :
  bounded n m l c → bounded n m l (InvalidateHandle c fs handle).
Proof.
  intros (Hw & Hn & Hv & Hm & Hl). unfold InvalidateHandle.
  set (id := (uuid_FromBytes handle).1).
  pose proof (size_Get (activeHandles c) id) as Hs.
  pose proof (wf_Get (activeHandles c) id Hw) as Hw1.
  destruct (lru.Get (activeHandles c) id) as [ah r]. cbn [fst snd] in *.
  set (c2 := match r with
             | Some e => evictReverseCache (set_activeHandles c ah) (joined e) id
             | None => set_activeHandles c ah end).
  assert (activeHandles c2 = ah ∧ activeVerifiers c2 = activeVerifiers c
          ∧ cacheLimit c2 = cacheLimit c) as (Hah & Hav & Hcl).
  { unfold c2. destruct r; [|done]. rewrite activeHandles_evict.
    by destruct (frame_evict (set_activeHandles c ah) (joined e) id) as [-> ->]. }
  unfold bounded. cbn [activeHandles set_activeHandles activeVerifiers cacheLimit].
  rewrite Hah, Hav, Hcl, size_Remove, Hs. split; [|done].
  by apply Remove_spec.
Qed.

Lemma bounded_UpdateHandle n m l c fs handle newPath a :
  bounded n m l c → bounded n m l (UpdateHandle c fs handle newPath a).1.
Proof.
  intros (Hw & Hn & Hv & Hm & Hl). unfold UpdateHandle.
  destruct (uuid_FromBytes handle) as [id [err|]]; [done|].
  pose proof (size_Get (activeHandles c) id) as Hs.
  pose proof (wf_Get (activeHandles c) id Hw) as Hw1.
  destruct (lru.Get (activeHandles c) id) as [ah [e|]]; cbn [fst snd] in *.
  - destruct (frame_evict (set_activeHandles c ah) (joined e) id) as [Hav Hcl].
    unfold bounded.
    cbn [appendReverse set_reverseHandles activeHandles set_activeHandles activeVerifiers
         cacheLimit].
    rewrite activeHandles_evict, Hav, Hcl, size_Add.
    cbn [activeHandles set_activeHandles activeVerifiers cacheLimit]. rewrite Hs.
    split; [by apply wf_Add|done].
  - unfold bounded. cbn [activeHandles set_activeHandles activeVerifiers cacheLimit].
    by rewrite Hs.
Qed.

Lemma bounded_UpdateHandlesByPath_loop n m l uuidsCopy : ∀ c oldJ newJ newPathCopy updated,
  bounded n m l c →
  bounded n m l (UpdateHandlesByPath_loop c oldJ newJ newPathCopy uuidsCopy updated).1.
Proof.
  induction uuidsCopy as [|id rest IH]; intros c oldJ newJ newPathCopy updated Hb; [done|].
  destruct Hb as (Hw & Hn & Hv & Hm & Hl). cbn [UpdateHandlesByPath_loop].
  pose proof (size_Get (activeHandles c) id) as Hs.
  pose proof (wf_Get (activeHandles c) id Hw) as Hw1.
  destruct (lru.Get (activeHandles c) id) as [ah [e|]]; cbn [fst snd] in *; apply IH.
  - destruct (frame_evict (set_activeHandles c ah) oldJ id) as [Hav Hcl].
    unfold bounded.
    cbn [appendReverse set_reverseHandles activeHandles set_activeHandles activeVerifiers
         cacheLimit].
    rewrite activeHandles_evict, Hav, Hcl, size_Add.
    cbn [activeHandles set_activeHandles activeVerifiers cacheLimit]. rewrite Hs.
    split; [by apply wf_Add|done].
  - unfold bounded. cbn [activeHandles set_activeHandles activeVerifiers cacheLimit].
    by rewrite Hs.
Qed.

Lemma bounded_UpdateHandlesByPath n m l c fs oldPath newPath a :
  bounded n m l c → bounded n m l (UpdateHandlesByPath c fs oldPath newPath a).1.
Proof.
  intros Hb. unfold UpdateHandlesByPath.
  destruct (reverseHandles c !! Join fs oldPath) as [uuids|]; [|done].
  destruct (decide (length uuids = 0%nat)); [done|].
  by apply bounded_UpdateHandlesByPath_loop.
Qed.

Lemma bounded_apply_op sha256_Sum n m l c op :
  bounded n m l c → bounded n m l (apply_op sha256_Sum c op).
Proof.
  intros Hb. destruct op; cbn [apply_op].
  - by apply bounded_ToHandle.
  - by apply bounded_FromHandle.
  - by apply bounded_InvalidateHandle.
  - by apply bounded_UpdateHandle.
  - by apply bounded_UpdateHandlesByPath.
  - destruct Hb as (Hw & Hn & Hv & Hm & Hl). unfold VerifierFor, bounded.
    cbn [fst activeHandles set_activeVerifiers activeVerifiers cacheLimit].
    rewrite size_Add. split; [done|]. split; [done|]. split; [by apply wf_Add|done].
  - destruct Hb as (Hw & Hn & Hv & Hm & Hl). unfold DataForVerifier.
    pose proof (size_Get (activeVerifiers c) id) as Hs.
    pose proof (wf_Get (activeVerifiers c) id Hv) as Hw1.
    destruct (lru.Get (activeVerifiers c) id) as [av [v|]]; cbn [fst snd] in *;
      unfold bounded; cbn [activeHandles set_activeVerifiers activeVerifiers cacheLimit];
      by rewrite Hs.
Qed.

Lemma bounded_run sha256_Sum n m l ops : ∀ c,
  bounded n m l c → bounded n m l (run sha256_Sum c ops).
Proof.
  induction ops as [|op ops IH]; intros c Hb; [done|].
  apply IH. by apply bounded_apply_op.
Qed.

(** X1. Whatever calls are made on a handler that
    [NewCachingHandlerWithVerifierLimit] returned, [HandleLimit] keeps
    reporting the limit it was built with, the forward map never holds
    more handles than that, and the verifier cache never holds more
    listings than its own limit. *)
Theorem X1_capacities_respected sha256_Sum (limit verifierLimit : Z) c0 (ops : list Op) :
  NewCachingHandlerWithVerifierLimit limit verifierLimit = Some c0 →
  HandleLimit (run sha256_Sum c0 ops) = limit
  ∧ Z.of_nat (lru.Len (activeHandles (run sha256_Sum c0 ops))) ≤ limit
  ∧ Z.of_nat (lru.Len (activeVerifiers (run sha256_Sum c0 ops))) ≤ verifierLimit.
Proof.
  unfold NewCachingHandlerWithVerifierLimit, lru.New.
  destruct (limit <=? 0) eqn:E1; [done|]. destruct (verifierLimit <=? 0) eqn:E2; [done|].
  apply Z.leb_gt in E1, E2. intros [= <-].
  destruct (bounded_run sha256_Sum (Z.to_nat limit) (Z.to_nat verifierLimit) limit ops
              (mkHandler (lru.mk (Z.to_nat limit) []) ∅ (lru.mk (Z.to_nat verifierLimit) [])
                 limit))
    as ((_ & _ & Hle) & Hn & (_ & _ & Hle') & Hm & Hl).
  { unfold bounded, lru.wf. cbn. repeat split; try apply NoDup_nil_2; lia. }
  unfold HandleLimit, lru.Len. split; [done|]. lia.
Qed.

(** ** The buckets of the reverse index *)

Lemma remove_first_split (h : UUID) (l l' : list UUID) :
  remove_first h l = Some l' ↔ ∃ l1 l2, l = l1 ++ h :: l2 ∧ (h ∉ l1) ∧ l' = l1 ++ l2.
Proof.
  revert l'. induction l as [|u l IH]; intros l'; simpl.
  - split; [done|]. intros (l1 & l2 & Hl & _). by destruct l1.
  - destruct (decide (u = h)) as [->|Hne].
    + split.
      * intros [= <-]. exists [], l. split; [done|]. split; [apply not_elem_of_nil|done].
      * intros (l1 & l2 & Hl & Hni & ->). destruct l1 as [|x l1].
        -- simpl in Hl. by injection Hl as ->.
        -- injection Hl as -> _. exfalso. apply Hni. left.
    + split.
      * destruct (remove_first h l) as [l0|]; [|done]. simpl. intros [= <-].
        destruct (proj1 (IH l0) eq_refl) as (l1 & l2 & -> & Hni & ->).
        exists (u :: l1), l2. split; [done|]. split; [|done].
        rewrite not_elem_of_cons. split; [congruence|done].
      * intros (l1 & l2 & Hl & Hni & ->). destruct l1 as [|x l1].
        -- simpl in Hl. injection Hl as -> _. done.
        -- injection Hl as -> ->. apply not_elem_of_cons in Hni as [_ Hni].
           rewrite (proj2 (IH (l1 ++ l2))); [done|]. by exists l1, l2.
Qed.

Lemma set_reverseHandles_id c : set_reverseHandles c (reverseHandles c) = c.
Proof. by destruct c. Qed.

(** X2. [evictReverseCache] takes the first occurrence of the handle out
    of the bucket of the path and changes nothing else: the other buckets
    and the forward map are as before, the bucket stays in the map even
    when it becomes empty, and a handle that the bucket does not list (or
    a path without bucket) leaves the handler as it was. *)
Theorem X2_evictReverseCache_first_occurrence c (path : string) (handle : UUID) :
  activeHandles (evictReverseCache c path handle) = activeHandles c
  ∧ (∀ k, k ≠ path →
       reverseHandles (evictReverseCache c path handle) !! k = reverseHandles c !! k)
  ∧ (handle ∉ bucket c path → evictReverseCache c path handle = c)
  ∧ (handle ∈ bucket c path →
       ∃ l1 l2, reverseHandles c !! path = Some (l1 ++ handle :: l2) ∧ (handle ∉ l1)
                ∧ reverseHandles (evictReverseCache c path handle) !! path = Some (l1 ++ l2)).
Proof.
  split; [apply activeHandles_evict|]. unfold evictReverseCache, bucket.
  destruct (reverseHandles c !! path) as [uuids|] eqn:Hb; cbn [default].
  - destruct (remove_first handle uuids) as [uuids'|] eqn:Hr.
    + apply remove_first_split in Hr as (l1 & l2 & -> & Hni & ->).
      split; [|split].
      * intros k Hk. simpl. by rewrite lookup_insert_ne.
      * intros Hn. exfalso. apply Hn, elem_of_app. right. left.
      * intros _. exists l1, l2. split; [done|]. split; [done|].
        simpl. by rewrite lookup_insert_eq.
    + apply remove_first_None in Hr. split; [done|]. split; [done|]. by intros Hin.
  - split; [done|]. split; [done|]. intros Hin. by apply elem_of_nil in Hin.
Qed.

Lemma buckets_kept_evict c k id k' :
  is_Some (reverseHandles c !! k') →
  is_Some (reverseHandles (evictReverseCache c k id) !! k').
Proof.
  unfold evictReverseCache. destruct (reverseHandles c !! k) as [b|] eqn:Hb; [|done].
  destruct (remove_first id b); [|done]. simpl. intros Hk'.
  destruct (decide (k' = k)) as [->|Hne]; [by rewrite lookup_insert_eq|].
  by rewrite lookup_insert_ne.
Qed.

Lemma buckets_kept_append c k id k' :
  is_Some (reverseHandles c !! k') ∨ k' = k →
  is_Some (reverseHandles (appendReverse c k id) !! k').
Proof.
  unfold appendReverse. simpl. intros Hk'.
  destruct (decide (k' = k)) as [->|Hne]; [by rewrite lookup_insert_eq|].
  rewrite lookup_insert_ne by done. by destruct Hk'.
Qed.

Lemma reverseHandles_mint c fs path k id a k' :
  is_Some (reverseHandles c !! k') ∨ k' = k →
  is_Some (reverseHandles (ToHandle_mint c fs path k id a).1 !! k').
Proof.
  intros Hk'. unfold ToHandle_mint. destruct (lru.Add _ _ _) as [ah evicted]. cbn [fst].
  apply buckets_kept_append. destruct Hk' as [Hk'|?]; [left|by right].
  destruct evicted, (lru.GetOldest (activeHandles c)) as [[ko vo]|]; try done.
  by apply buckets_kept_evict.
Qed.

Lemma buckets_kept_ToHandle c fs path id a k' :
  is_Some (reverseHandles c !! k') ∨ k' = Join fs path →
  is_Some (reverseHandles (ToHandle c fs path id a).1 !! k').
Proof.
  intros Hk'. unfold ToHandle.
  destruct (searchReverseCache_spec c fs (Join fs path)) as (Hr & Hrh & _).
  destruct (searchReverseCache c fs (Join fs path)) as [c1 [h|]]; cbn [fst snd] in *.
  - rewrite Hrh. destruct Hk' as [?| ->]; [done|].
    destruct (reverseHandles c !! Join fs path); [done|]. done.
  - apply reverseHandles_mint. by rewrite Hrh.
Qed.

Lemma buckets_kept_loop uuidsCopy : ∀ c oldJ newJ newPathCopy updated k',
  is_Some (reverseHandles c !! k') →
  is_Some (reverseHandles
             (UpdateHandlesByPath_loop c oldJ newJ newPathCopy uuidsCopy updated).1 !! k').
Proof.
  induction uuidsCopy as [|id rest IH]; intros c oldJ newJ newPathCopy updated k' Hk'; [done|].
  cbn [UpdateHandlesByPath_loop].
  destruct (lru.Get (activeHandles c) id) as [ah [e|]]; apply IH; [|done].
  apply buckets_kept_append. left.
  cbn [reverseHandles set_activeHandles]. by apply buckets_kept_evict.
Qed.

Lemma buckets_kept_apply_op sha256_Sum c op k' :
  is_Some (reverseHandles c !! k') →
  is_Some (reverseHandles (apply_op sha256_Sum c op) !! k').
Proof.
  intros Hk'. destruct op; cbn [apply_op].
  - apply buckets_kept_ToHandle. by left.
  - by destruct (FromHandle_state c fh a) as (-> & _).
  - unfold InvalidateHandle. destruct (lru.Get _ _) as [ah [e|]]; [|done].
    cbn [reverseHandles set_activeHandles]. by apply buckets_kept_evict.
  - unfold UpdateHandle. destruct (uuid_FromBytes handle) as [id [err|]]; [done|].
    destruct (lru.Get _ _) as [ah [e|]]; [|done]. cbn [fst].
    apply buckets_kept_append. left. cbn [reverseHandles set_activeHandles].
    by apply buckets_kept_evict.
  - unfold UpdateHandlesByPath.
    destruct (reverseHandles c !! Join fs oldPath) as [uuids|]; [|done].
    destruct (decide (length uuids = 0%nat)); [done|]. by apply buckets_kept_loop.
  - done.
  - unfold DataForVerifier. by destruct (lru.Get _ _) as [av [v|]].
Qed.

(** X3. The reverse index only grows in keys: [ToHandle] leaves a bucket
    under the joined path it was called with, and no call ever takes a
    bucket out of the map, however many of its handles are evicted,
    invalidated or retargeted. *)
Theorem X3_buckets_are_never_deleted sha256_Sum c (ops : list Op) :
  (∀ k, is_Some (reverseHandles c !! k) →
        is_Some (reverseHandles (run sha256_Sum c ops) !! k))
  ∧ ∀ fs path id a,
      is_Some (reverseHandles (run sha256_Sum (ToHandle c fs path id a).1 ops) !! Join fs path).
Proof.
  assert (∀ ops c k, is_Some (reverseHandles c !! k) →
            is_Some (reverseHandles (run sha256_Sum c ops) !! k)) as Hrun.
  { clear. intros ops. induction ops as [|op ops IH]; intros c k Hk; [done|].
    apply IH. by apply buckets_kept_apply_op. }
  split; [intros k Hk; by apply Hrun|]. intros fs path id a. apply Hrun.
  apply buckets_kept_ToHandle. by right.
Qed.

(** ** What [searchReverseCache] and [ToHandle] return *)

Lemma head_filter_Some {A} (P : A → Prop) `{∀ x, Decision (P x)} (l : list A) (x : A) :
  head (filter P l) = Some x → ∃ l1 l2, l = l1 ++ x :: l2 ∧ P x ∧ ∀ y, y ∈ l1 → ¬ P y.
Proof.
  induction l as [|z l IH]; [done|]. rewrite filter_cons.
  destruct (decide (P z)) as [HP|HP].
  - intros [= ->]. exists [], l. split; [done|]. split; [done|].
    intros y Hy. by apply elem_of_nil in Hy.
  - intros Hh. destruct (IH Hh) as (l1 & l2 & -> & HPx & Hl1).
    exists (z :: l1), l2. split; [done|]. split; [done|].
    intros y Hy. apply elem_of_cons in Hy as [->|Hy]; [done|by apply Hl1].
Qed.

Lemma head_filter_None {A} (P : A → Prop) `{∀ x, Decision (P x)} (l : list A) :
  head (filter P l) = None → ∀ y, y ∈ l → ¬ P y.
Proof.
  induction l as [|z l IH]; [intros _ y Hy; by apply elem_of_nil in Hy|].
  rewrite filter_cons. destruct (decide (P z)) as [HP|HP]; [done|].
  intros Hh y Hy. apply elem_of_cons in Hy as [->|Hy]; [done|by apply IH].
Qed.

Lemma is_match_true c fs id :
  is_match (activeHandles c) fs id = true ↔ ∃ e, lookup_handle c id = Some e ∧ entry_f e = fs.
Proof.
  unfold is_match, lookup_handle. destruct (lru.Peek (activeHandles c) id) as [e|].
  - rewrite bool_decide_eq_true. split; [eauto|]. by intros (e' & [= <-] & ?).
  - split; [done|]. by intros (? & ? & _).
Qed.

(** The handle that the search returns is the first of the bucket that is
    live with a backend equal to [fs]. *)
Lemma searchReverseCache_match c fs (path : string) :
  match (searchReverseCache c fs path).2 with
  | Some h =>
      ∃ l1 l2 e, reverseHandles c !! path = Some (l1 ++ h :: l2)
        ∧ lookup_handle c h = Some e ∧ entry_f e = fs
        ∧ ∀ id e', id ∈ l1 → lookup_handle c id = Some e' → entry_f e' ≠ fs
  | None => ∀ id e', id ∈ bucket c path → lookup_handle c id = Some e' → entry_f e' ≠ fs
  end.
Proof.
  destruct (searchReverseCache_spec c fs path) as (Hr & _). rewrite Hr. fold (bucket c path).
  destruct (head _) as [h|] eqn:Hh.
  - apply head_filter_Some in Hh as (l1 & l2 & Hb & Hm & Hl1).
    apply is_match_true in Hm as (e & He & Hf). exists l1, l2, e.
    split; [|split; [done|split; [done|]]].
    + revert Hb. unfold bucket. destruct (reverseHandles c !! path); simpl; [by intros ->|].
      by destruct l1.
    + intros id e' Hin He' Hf'. apply (Hl1 id Hin). apply is_match_true. eauto.
  - intros id e' Hin He' Hf'. apply (head_filter_None _ _ Hh id Hin).
    apply is_match_true. eauto.
Qed.

(** X4. [searchReverseCache] returns the first handle of the bucket of
    the path that is live with a backend equal to the one asked for, and
    nil when the bucket holds none (or is missing); it changes neither
    the entries of the forward map nor the reverse index. *)
Theorem X4_searchReverseCache_first_match c fs (path : string) :
  reverseHandles (searchReverseCache c fs path).1 = reverseHandles c
  ∧ (∀ id, lookup_handle (searchReverseCache c fs path).1 id = lookup_handle c id)
  ∧ match (searchReverseCache c fs path).2 with
    | Some h =>
        ∃ l1 l2 e, reverseHandles c !! path = Some (l1 ++ h :: l2)
          ∧ lookup_handle c h = Some e ∧ entry_f e = fs
          ∧ ∀ id e', id ∈ l1 → lookup_handle c id = Some e' → entry_f e' ≠ fs
    | None => ∀ id e', id ∈ bucket c path → lookup_handle c id = Some e' → entry_f e' ≠ fs
    end.
Proof.
  destruct (searchReverseCache_spec c fs path) as (_ & Hrh & Hlk & _).
  split; [done|]. split; [done|]. apply searchReverseCache_match.
Qed.

(** X5. [ToHandle] hands out again a live handle of the bucket of the
    joined path whose backend equals the one of the call, when there is
    one, and then leaves the entries and the index as they are; it mints
    the UUID drawn for the call, and files it under the joined path, only
    when there is none. *)
Theorem X5_ToHandle_reuses_or_mints c fs (path : list string) (id : UUID) (a : nat) :
  ((∃ h e, h ∈ bucket c (Join fs path) ∧ lookup_handle c h = Some e ∧ entry_f e = fs) →
     (∃ e, (ToHandle c fs path id a).2 ∈ bucket c (Join fs path)
           ∧ lookup_handle c (ToHandle c fs path id a).2 = Some e ∧ entry_f e = fs)
     ∧ reverseHandles (ToHandle c fs path id a).1 = reverseHandles c
     ∧ ∀ id', lookup_handle (ToHandle c fs path id a).1 id' = lookup_handle c id')
  ∧ ((∀ h e, h ∈ bucket c (Join fs path) → lookup_handle c h = Some e → entry_f e ≠ fs) →
     (ToHandle c fs path id a).2 = id
     ∧ in_bucket (ToHandle c fs path id a).1 (Join fs path) id).
Proof.
  pose proof (searchReverseCache_match c fs (Join fs path)) as Hm.
  destruct (searchReverseCache_spec c fs (Join fs path)) as (_ & Hrh & Hlk & _).
  destruct (searchReverseCache c fs (Join fs path)) as [c1 r] eqn:Hs.
  cbn [fst snd] in *. split.
  - intros (h & e & Hin & He & Hf). destruct r as [h'|].
    + destruct Hm as (l1 & l2 & e' & Hb & He' & Hf' & _).
      unfold ToHandle. rewrite Hs. cbn [fst snd]. split; [|done].
      exists e'. split; [|done]. apply in_bucket_default. exists (l1 ++ h' :: l2).
      split; [done|]. apply elem_of_app. right. left.
    + exfalso. by apply (Hm h e Hin He).
  - intros Hnone. destruct r as [h'|].
    + destruct Hm as (l1 & l2 & e' & Hb & He' & Hf' & _). exfalso.
      apply (Hnone h' e'); [|done..]. apply in_bucket_default. exists (l1 ++ h' :: l2).
      split; [done|]. apply elem_of_app. right. left.
    + unfold ToHandle. rewrite Hs. unfold ToHandle_mint.
      destruct (lru.Add _ _ _) as [ah evicted]. cbn [fst snd]. split; [done|].
      apply in_bucket_append. by right.
Qed.

(** ** [InvalidateHandle] *)

Lemma Peek_Remove_same (ah : lru.Cache UUID entry) (k : UUID) :
  lru.Peek (lru.Remove ah k).1 k = None.
Proof.
  unfold lru.Remove, lru.Peek. destruct (lru.find k (lru.items ah)) eqn:Hf; [|done].
  apply find_del_eq.
Qed.

Lemma InvalidateHandle_gone c fs (handle : list byte) :
  lookup_handle (InvalidateHandle c fs handle) (uuid_FromBytes handle).1 = None.
Proof.
  unfold InvalidateHandle. set (id := (uuid_FromBytes handle).1).
  destruct (lru.Get (activeHandles c) id) as [ah r]. rewrite lookup_handle_set.
  destruct r as [e|]; [rewrite activeHandles_evict|]; apply Peek_Remove_same.
Qed.

Lemma InvalidateHandle_unknown c fs (handle : list byte) :
  lookup_handle c (uuid_FromBytes handle).1 = None → InvalidateHandle c fs handle = c.
Proof.
  intros Hn. unfold InvalidateHandle. rewrite (Get_miss _ _ Hn).
  cbn [activeHandles set_activeHandles]. rewrite set_activeHandles_id.
  rewrite (Remove_miss _ _ Hn). apply set_activeHandles_id.
Qed.

(** X6. [InvalidateHandle] takes the handle out of the forward map and out
    of its bucket, so that [FromHandle] answers [Stale] for it, and leaves
    every other handle with its entry and its buckets; the backend it is
    given plays no part. *)
Theorem X6_InvalidateHandle_removes c fs (handle : list byte) :
  Inv c → length handle = 16%nat →
  lookup_handle (InvalidateHandle c fs handle) handle = None
  ∧ (∀ a, (FromHandle (InvalidateHandle c fs handle) handle a).2 = Stale)
  ∧ (∀ k, ¬ in_bucket (InvalidateHandle c fs handle) k handle)
  ∧ (∀ id', id' ≠ handle →
       lookup_handle (InvalidateHandle c fs handle) id' = lookup_handle c id'
       ∧ ∀ k, in_bucket (InvalidateHandle c fs handle) k id' ↔ in_bucket c k id')
  ∧ ∀ fs', InvalidateHandle c fs' handle = InvalidateHandle c fs handle.
Proof.
  intros HI Hl. pose proof (Inv_InvalidateHandle c fs handle HI) as HI'.
  pose proof (InvalidateHandle_lookup c fs handle) as Hlk.
  specialize (λ id', Hlk id' HI). rewrite (uuid_FromBytes_ok handle Hl) in Hlk. cbn [fst] in Hlk.
  assert (lookup_handle (InvalidateHandle c fs handle) handle = None) as Hgone.
  { rewrite Hlk. by rewrite decide_True. }
  split; [done|]. split; [intros a; by apply FromHandle_miss|]. split; [|split; [|done]].
  - intros k Hin. apply (inv_index _ HI') in Hin as (e & He & _). congruence.
  - intros id' Hne.
    assert (lookup_handle (InvalidateHandle c fs handle) id' = lookup_handle c id') as Hsame.
    { rewrite Hlk. by rewrite decide_False. }
    split; [done|]. intros k. by rewrite (inv_index _ HI'), (inv_index _ HI), Hsame.
Qed.

(** X7. Invalidating a handle that the forward map does not hold changes
    nothing, so invalidating twice is invalidating once; a handle that is
    not 16 bytes long is no error: it is taken for the zero UUID. *)
Theorem X7_InvalidateHandle_unknown_handle c fs (handle : list byte) :
  (lookup_handle c (uuid_FromBytes handle).1 = None → InvalidateHandle c fs handle = c)
  ∧ (∀ fs', InvalidateHandle (InvalidateHandle c fs handle) fs' handle
            = InvalidateHandle c fs handle)
  ∧ (length handle ≠ 16%nat → InvalidateHandle c fs handle = InvalidateHandle c fs uuid_Nil).
Proof.
  split; [apply InvalidateHandle_unknown|]. split.
  - intros fs'. apply InvalidateHandle_unknown, InvalidateHandle_gone.
  - intros Hl. unfold InvalidateHandle. rewrite (uuid_FromBytes_bad handle Hl).
    by rewrite (uuid_FromBytes_ok uuid_Nil).
Qed.

(** X8. A handle that was invalidated is not handed out again: the next
    [ToHandle], for any backend and path, returns another handle, unless
    [uuid.New] draws the very same UUID anew. *)
Theorem X8_invalidated_handle_not_reissued c fs0 (handle : list byte) fs path (id : UUID) a :
  length handle = 16%nat → id ≠ handle →
  (ToHandle (InvalidateHandle c fs0 handle) fs path id a).2 ≠ handle.
Proof.
  intros Hl Hne Heq.
  pose proof (InvalidateHandle_gone c fs0 handle) as Hgone.
  rewrite (uuid_FromBytes_ok handle Hl) in Hgone. cbn [fst] in Hgone.
  pose proof (searchReverseCache_match (InvalidateHandle c fs0 handle) fs (Join fs path)) as Hm.
  revert Heq. unfold ToHandle.
  destruct (searchReverseCache (InvalidateHandle c fs0 handle) fs (Join fs path))
    as [c1 [h|]]; cbn [fst snd] in *.
  - intros ->. destruct Hm as (_ & _ & e & _ & He & _). congruence.
  - unfold ToHandle_mint. destruct (lru.Add _ _ _) as [ah evicted]. cbn [snd]. done.
Qed.

(** ** [UpdateHandle] *)

Lemma in_bucket_iff_lookup c k id e :
  Inv c → lookup_handle c id = Some e → in_bucket c k id ↔ k = joined e.
Proof.
  intros HI He. rewrite (inv_index c HI). split.
  - intros (e' & He' & <-). congruence.
  - intros ->. eauto.
Qed.

(** X9. [UpdateHandle] on a live handle returns no error; the handle then
    holds the backend of the call and a copy of the new path, is filed
    under the joined new path only, and resolves to them; no other handle
    changes and none is evicted. *)
Theorem X9_UpdateHandle_retargets c fs (handle : list byte) (newPath : list string) a e :
  Inv c → length handle = 16%nat → lookup_handle c handle = Some e →
  (UpdateHandle c fs handle newPath a).2 = None
  ∧ lookup_handle (UpdateHandle c fs handle newPath a).1 handle
    = Some (mkEntry fs (make_copy a newPath))
  ∧ (∀ a', (FromHandle (UpdateHandle c fs handle newPath a).1 handle a').2
           = Resolved fs (make_copy a' newPath))
  ∧ (∀ k, in_bucket (UpdateHandle c fs handle newPath a).1 k handle ↔ k = Join fs newPath)
  ∧ (∀ id', id' ≠ handle →
       lookup_handle (UpdateHandle c fs handle newPath a).1 id' = lookup_handle c id'
       ∧ ∀ k, in_bucket (UpdateHandle c fs handle newPath a).1 k id' ↔ in_bucket c k id').
Proof.
  intros HI Hl He.
  destruct (UpdateHandle_spec c fs handle newPath a e HI Hl He) as (Hr & HI' & Hlk).
  assert (lookup_handle (UpdateHandle c fs handle newPath a).1 handle
          = Some (mkEntry fs (make_copy a newPath))) as Hnew.
  { rewrite Hlk. by rewrite decide_True. }
  split; [done|]. split; [done|]. split; [|split].
  - intros a'. by rewrite (FromHandle_hit _ handle a' _ Hl Hnew).
  - intros k. by rewrite (in_bucket_iff_lookup _ k handle _ HI' Hnew).
  - intros id' Hne.
    assert (lookup_handle (UpdateHandle c fs handle newPath a).1 id' = lookup_handle c id')
      as Hsame.
    { rewrite Hlk. by rewrite decide_False. }
    split; [done|]. intros k. by rewrite (inv_index _ HI'), (inv_index _ HI), Hsame.
Qed.

(** X10. [UpdateHandle] fails without touching the handler: with the
    length error of [uuid.FromBytes] for a handle that is not 16 bytes
    long, with [Stale] for a handle that the forward map does not hold. *)
Theorem X10_UpdateHandle_failures c fs (handle : list byte) (newPath : list string) a :
  (length handle ≠ 16%nat →
     UpdateHandle c fs handle newPath a = (c, Some (UpdateBadHandle ErrInvalidLength)))
  ∧ (length handle = 16%nat → lookup_handle c handle = None →
     UpdateHandle c fs handle newPath a = (c, Some UpdateStale)).
Proof.
  split.
  - intros Hl. unfold UpdateHandle. by rewrite (uuid_FromBytes_bad handle Hl).
  - intros Hl Hn. unfold UpdateHandle. rewrite (uuid_FromBytes_ok handle Hl).
    rewrite (Get_miss _ _ Hn). by rewrite set_activeHandles_id.
Qed.

(** ** [FromHandle] *)

Lemma refresh_fold_perm fp keys : ∀ ah : lru.Cache UUID entry,
  lru.wf ah → lru.items (fold_left (refresh_step fp) keys ah) ≡ₚ lru.items ah.
Proof.
  induction keys as [|k keys IH]; intros ah Hw; [done|]. simpl.
  assert (lru.wf (refresh_step fp ah k)
          ∧ lru.items (refresh_step fp ah k) ≡ₚ lru.items ah) as [Hw1 Hp1].
  { unfold refresh_step. destruct (hasPrefix fp _); [|done].
    split; [by apply wf_Get|apply items_Get_perm, Hw]. }
  by rewrite (IH _ Hw1).
Qed.

(** X11. [FromHandle] only reorders the forward map: it holds the same
    entries afterwards, and the reverse index and the verifier cache are
    untouched. A call that does not resolve leaves the handler exactly as
    it was: a handle that is not 16 bytes long gets the length error, one
    that the forward map does not hold gets [Stale]. *)
Theorem X11_FromHandle_only_refreshes c (fh : list byte) (a : nat) :
  lru.wf (activeHandles c) →
  lru.items (activeHandles (FromHandle c fh a).1) ≡ₚ lru.items (activeHandles c)
  ∧ reverseHandles (FromHandle c fh a).1 = reverseHandles c
  ∧ activeVerifiers (FromHandle c fh a).1 = activeVerifiers c
  ∧ (length fh ≠ 16%nat → FromHandle c fh a = (c, BadHandle ErrInvalidLength))
  ∧ (length fh = 16%nat → lookup_handle c fh = None → FromHandle c fh a = (c, Stale)).
Proof.
  intros Hw. split; [|split; [|split; [|split]]].
  - unfold FromHandle. destruct (uuid_FromBytes fh) as [id [err|]]; [done|].
    pose proof (items_Get_perm (activeHandles c) id (proj1 Hw)) as Hp.
    pose proof (wf_Get (activeHandles c) id Hw) as Hw1.
    destruct (lru.Get (activeHandles c) id) as [ah [e|]]; cbn [fst snd] in *; [|done].
    cbn [activeHandles set_activeHandles]. by rewrite (refresh_fold_perm _ _ _ Hw1).
  - by destruct (FromHandle_state c fh a) as (-> & _).
  - unfold FromHandle. destruct (uuid_FromBytes fh) as [id [err|]]; [done|].
    by destruct (lru.Get (activeHandles c) id) as [ah [e|]].
  - intros Hl. unfold FromHandle. by rewrite (uuid_FromBytes_bad fh Hl).
  - intros Hl Hn. unfold FromHandle. rewrite (uuid_FromBytes_ok fh Hl).
    rewrite (Get_miss _ _ Hn). by rewrite set_activeHandles_id.
Qed.

(** ** [UpdateHandlesByPath] *)

Lemma UpdateHandlesByPath_loop_Len uuidsCopy : ∀ c oldJ newJ newPathCopy updated,
  lru.wf (activeHandles c) →
  lru.Len (activeHandles (UpdateHandlesByPath_loop c oldJ newJ newPathCopy uuidsCopy updated).1)
  = lru.Len (activeHandles c).
Proof.
  induction uuidsCopy as [|id rest IH]; intros c oldJ newJ newPathCopy updated Hw; [done|].
  cbn [UpdateHandlesByPath_loop].
  pose proof (Get_snd (activeHandles c) id) as Hg.
  pose proof (Peek_Get (activeHandles c) id) as Hp.
  pose proof (Len_Get (activeHandles c) id (proj1 Hw)) as Hlen.
  pose proof (wf_Get (activeHandles c) id Hw) as Hw1.
  destruct (lru.Get (activeHandles c) id) as [ah [e|]]; cbn [fst snd] in *.
  - destruct (Add_present ah id (mkEntry (entry_f e) newPathCopy) Hw1)
      as (_ & Hw2 & Hlen2 & _).
    { exists e. by rewrite Hp. }
    rewrite IH.
    + rewrite activeHandles_append. cbn [activeHandles set_activeHandles].
      rewrite activeHandles_evict. cbn [activeHandles set_activeHandles]. congruence.
    + rewrite activeHandles_append. cbn [activeHandles set_activeHandles].
      by rewrite activeHandles_evict.
  - by rewrite IH.
Qed.

(** X12. [UpdateHandlesByPath] evicts and mints nothing: every handle is
    live afterwards exactly if it was before, with the backend it had, and
    the forward map keeps its size. The number returned is at most the
    length of the bucket of the old path; when that bucket is empty or
    missing the handler is left as it was and 0 is returned. *)
Theorem X12_UpdateHandlesByPath_keeps_handles c fs (oldPath newPath : list string) a :
  lru.wf (activeHandles c) →
  (∀ id, entry_f <$> lookup_handle (UpdateHandlesByPath c fs oldPath newPath a).1 id
         = entry_f <$> lookup_handle c id)
  ∧ lru.Len (activeHandles (UpdateHandlesByPath c fs oldPath newPath a).1)
    = lru.Len (activeHandles c)
  ∧ 0 ≤ (UpdateHandlesByPath c fs oldPath newPath a).2
      ≤ Z.of_nat (length (bucket c (Join fs oldPath)))
  ∧ (bucket c (Join fs oldPath) = [] → UpdateHandlesByPath c fs oldPath newPath a = (c, 0)).
Proof.
  intros Hw. destruct (UpdateHandlesByPath_lookup c fs oldPath newPath a Hw) as (_ & Hlk & Hn).
  split; [|split; [|split]].
  - intros id. rewrite Hlk. case_decide; [|done]. by destruct (lookup_handle c id).
  - unfold UpdateHandlesByPath.
    destruct (reverseHandles c !! Join fs oldPath) as [uuids|]; [|done].
    destruct (decide (length uuids = 0%nat)); [done|].
    by apply UpdateHandlesByPath_loop_Len.
  - rewrite Hn. pose proof (length_filter (λ id, is_Some (lookup_handle c id))
                              (bucket c (Join fs oldPath))). lia.
  - unfold UpdateHandlesByPath, bucket.
    destruct (reverseHandles c !! Join fs oldPath) as [uuids|]; [|done]. simpl.
    intros ->. done.
Qed.

(** ** The verifier cache, continued *)

Lemma DataForVerifier_Peek c (p : string) (id : Z) :
  (DataForVerifier c p id).2
  = match lru.Peek (activeVerifiers c) id with
    | Some cache => verifier_contents cache
    | None => None
    end.
Proof.
  unfold DataForVerifier. pose proof (Get_snd (activeVerifiers c) id) as Hg.
  destruct (lru.Get (activeVerifiers c) id) as [av [v|]]; cbn [snd] in *; by rewrite <- Hg.
Qed.

(** X13. A listing stored by [VerifierFor] is what [DataForVerifier]
    returns for the verifier that [VerifierFor] gave, whatever path it is
    asked with; a later listing that hashes to the same verifier takes
    its place. *)
Theorem X13_verifier_round_trip (sha256_Sum : list byte → list byte) c (path : string)
    (contents : option (list FileInfo)) :
  lru.wf (activeVerifiers c) →
  (∀ p, (DataForVerifier (VerifierFor sha256_Sum c path contents).1 p
           (VerifierFor sha256_Sum c path contents).2).2 = contents)
  ∧ ∀ path' contents' p,
      hashPathAndContents sha256_Sum path' contents'
      = hashPathAndContents sha256_Sum path contents →
      (DataForVerifier
         (VerifierFor sha256_Sum (VerifierFor sha256_Sum c path contents).1 path' contents').1
         p (VerifierFor sha256_Sum c path contents).2).2 = contents'.
Proof.
  intros Hw.
  assert (∀ c0 path0 contents0 p, lru.wf (activeVerifiers c0) →
            (DataForVerifier (VerifierFor sha256_Sum c0 path0 contents0).1 p
               (hashPathAndContents sha256_Sum path0 contents0)).2 = contents0) as Hrt.
  { intros c0 path0 contents0 p Hw0. rewrite DataForVerifier_Peek. unfold VerifierFor.
    cbn [fst activeVerifiers set_activeVerifiers]. by rewrite Peek_Add_same. }
  split.
  - intros p. by apply Hrt.
  - intros path' contents' p Hh. cbn [VerifierFor snd]. rewrite <- Hh. apply Hrt.
    cbn [VerifierFor fst activeVerifiers set_activeVerifiers]. by apply wf_Add.
Qed.

Lemma length_list_byte_of_string (s : string) :
  length (String.list_byte_of_string s) = String.length s.
Proof.
  unfold String.list_byte_of_string. rewrite length_map.
  induction s as [|ch s IH]; [done|]. simpl. by rewrite IH.
Qed.

Lemma length_BigEndian_AppendUint64 (v : Z) : length (BigEndian_AppendUint64 [] v) = 8%nat.
Proof. done. Qed.

(** A 64-bit value is determined by its eight bytes. *)
Lemma uint64_bytes_inj (v1 v2 : Z) :
  0 ≤ v1 < 2 ^ 64 → 0 ≤ v2 < 2 ^ 64 →
  (∀ i, 0 ≤ i < 8 → (v1 `div` 2 ^ (8 * i)) `mod` 256 = (v2 `div` 2 ^ (8 * i)) `mod` 256) →
  v1 = v2.
Proof.
  intros H1 H2 Hd. apply Z.bits_inj'. intros n Hn.
  destruct (decide (n < 64)) as [Hlt|Hge].
  - assert (∀ v, Z.testbit v n
               = Z.testbit ((v `div` 2 ^ (8 * (n `div` 8))) `mod` 2 ^ 8) (n `mod` 8)) as Hbit.
    { intros v. pose proof (Z.mod_pos_bound n 8 eq_refl).
      assert (0 ≤ n `div` 8) by (apply Z.div_pos; lia).
      rewrite Z.mod_pow2_bits_low by lia. rewrite Z.div_pow2_bits by lia.
      f_equal. pose proof (Z.div_mod n 8). lia. }
    rewrite (Hbit v1), (Hbit v2). change (2 ^ 8) with 256. rewrite Hd; [done|].
    split; [apply Z.div_pos; lia|apply Z.div_lt_upper_bound; lia].
  - rewrite <- (Z.mod_small v1 (2 ^ 64)), <- (Z.mod_small v2 (2 ^ 64)) by done.
    by rewrite !Z.mod_pow2_bits_high by lia.
Qed.

Lemma BigEndian_AppendUint64_inj (v1 v2 : Z) :
  0 ≤ v1 < 2 ^ 64 → 0 ≤ v2 < 2 ^ 64 →
  BigEndian_AppendUint64 [] v1 = BigEndian_AppendUint64 [] v2 → v1 = v2.
Proof.
  intros H1 H2 Heq. apply (f_equal (fmap Z_of_byte)) in Heq.
  rewrite !BigEndian_AppendUint64_bytes in Heq. cbn [fmap list_fmap] in Heq.
  injection Heq as E7 E6 E5 E4 E3 E2 E1 E0.
  apply uint64_bytes_inj; [done..|]. intros i Hi.
  assert (i = 0 ∨ i = 1 ∨ i = 2 ∨ i = 3 ∨ i = 4 ∨ i = 5 ∨ i = 6 ∨ i = 7)
    as [->|[->|[->|[->|[->|[->|[->| ->]]]]]]] by lia; done.
Qed.

(** X14. The length written in front of the path keeps listings of
    different directories apart: two digest inputs are equal exactly when
    the paths are equal and the names of the two listings concatenate to
    the same bytes. *)
Theorem X14_digest_input_separates_paths (path1 path2 : string)
    (contents1 contents2 : option (list FileInfo)) :
  Z.of_nat (String.length path1) < 2 ^ 64 → Z.of_nat (String.length path2) < 2 ^ 64 →
  digest_input path1 contents1 = digest_input path2 contents2
  ↔ path1 = path2
    ∧ names_bytes (default [] contents1) = names_bytes (default [] contents2).
Proof.
  intros Hl1 Hl2. rewrite !digest_input_spec. split.
  - intros Heq. apply app_inj_1 in Heq as [Hlen Heq]; [|done].
    rewrite !Z.mod_small in Hlen by lia.
    apply BigEndian_AppendUint64_inj in Hlen; [|lia..].
    apply app_inj_1 in Heq as [Hp Hn].
    + split; [|done]. rewrite <- (String.string_of_list_byte_of_string path1).
      rewrite Hp. apply String.string_of_list_byte_of_string.
    + rewrite !length_list_byte_of_string. lia.
  - by intros [-> ->].
Qed.

(** ** [hasPrefix] *)

(** X15. [hasPrefix] tells whether the second path is an initial segment
    of the first, component by component: the empty path is a prefix of
    every path, every path is a prefix of itself, and a longer path is
    never a prefix of a shorter one. *)
Theorem X15_hasPrefix_initial_segment (path prefix : list string) :
  (hasPrefix path prefix = true ↔ ∃ rest, path = prefix ++ rest)
  ∧ hasPrefix path [] = true
  ∧ hasPrefix path path = true
  ∧ ((length path < length prefix)%nat → hasPrefix path prefix = false).
Proof.
  split; [apply hasPrefix_spec|]. split; [|split].
  - apply hasPrefix_spec, prefix_nil.
  - by apply hasPrefix_spec.
  - intros Hlt. unfold hasPrefix. by apply Nat.ltb_lt in Hlt as ->.
Qed.

(** ** The fallback of the rename handler *)

(** The handle that [ToHandle] returns is live, with the backend of the
    call, and the other handles are as before or evicted. *)
Lemma ToHandle_live c fs (path : list string) (id : UUID) (a : nat) :
  Inv c → lookup_handle c id = None → length id = 16%nat →
  (∃ e, lookup_handle (ToHandle c fs path id a).1 (ToHandle c fs path id a).2 = Some e
        ∧ entry_f e = fs)
  ∧ length (ToHandle c fs path id a).2 = 16%nat
  ∧ (∀ id' e', lookup_handle (ToHandle c fs path id a).1 id' = Some e' →
       lookup_handle c id' = Some e'
       ∨ (id' = (ToHandle c fs path id a).2 ∧ lookup_handle c id' = None)).
Proof.
  intros HI Hid Hl. pose proof (Inv_ToHandle c fs path id a HI Hid Hl) as HI'.
  pose proof (searchReverseCache_match c fs (Join fs path)) as Hm.
  destruct (searchReverseCache_spec c fs (Join fs path)) as (_ & _ & Hlk & Hw).
  specialize (Hw (inv_lru c HI)).
  assert ((∃ e, lookup_handle (ToHandle c fs path id a).1 (ToHandle c fs path id a).2 = Some e
                ∧ entry_f e = fs)
          ∧ (∀ id' e', lookup_handle (ToHandle c fs path id a).1 id' = Some e' →
               lookup_handle c id' = Some e'
               ∨ (id' = (ToHandle c fs path id a).2 ∧ lookup_handle c id' = None)))
    as [Hlive Hothers].
  { destruct ((searchReverseCache c fs (Join fs path)).2) as [h|] eqn:Hs.
    - rewrite (ToHandle_hit c fs path id a h Hs). cbn [fst snd].
      destruct Hm as (l1 & l2 & e & _ & He & Hf & _). split.
      + exists e. by rewrite Hlk.
      + intros id' e'. rewrite Hlk. by left.
    - rewrite (ToHandle_miss c fs path id a Hs).
      destruct (ToHandle_mint_lookup (searchReverseCache c fs (Join fs path)).1 fs path
                  (Join fs path) id a Hw) as (-> & Hnew & Hrest); [by rewrite Hlk|].
      split; [eauto|]. intros id' e' He'. destruct (decide (id' = id)) as [->|Hne].
      + right. done.
      + left. rewrite <- Hlk. by apply Hrest. }
  split; [done|]. split; [|done]. destruct Hlive as (e & He & _).
  by apply (inv_uuid _ HI' _ e).
Qed.

(** X16. The fallback of the rename handler, for a handler without
    [UpdateHandlesByPath]: [UpdateHandle] never fails on the handle that
    [ToHandle] has just returned, so [InvalidateHandle] is not reached;
    that handle then holds the backend of the rename and the new path. A
    handle minted through another backend value is never retargeted: it
    keeps its entry, unless the minting evicted it. *)
Theorem X16_fallback_retargets_one_handle c fs (oldPath newPath : list string) (env : Env) :
  Inv c → lookup_handle c (env_uuid env) = None → length (env_uuid env) = 16%nat →
  let t := ToHandle c fs oldPath (env_uuid env) (env_arr3 env) in
  let u := UpdateHandle t.1 fs t.2 newPath (env_arr4 env) in
  u.2 = None
  ∧ propagate PlainHandler_ops c fs oldPath newPath env = u.1
  ∧ lookup_handle u.1 t.2 = Some (mkEntry fs (make_copy (env_arr4 env) newPath))
  ∧ (∀ id' e', lookup_handle c id' = Some e' → entry_f e' ≠ fs →
       lookup_handle u.1 id' = Some e' ∨ lookup_handle u.1 id' = None).
Proof.
  intros HI Hid Hl. cbv zeta.
  destruct (ToHandle_live c fs oldPath (env_uuid env) (env_arr3 env) HI Hid Hl)
    as ((e & He & Hf) & Hl2 & Hothers).
  pose proof (Inv_ToHandle c fs oldPath (env_uuid env) (env_arr3 env) HI Hid Hl) as HI'.
  unfold propagate. cbn [h_UpdateHandlesByPath h_ToHandle h_UpdateHandle
                         h_InvalidateHandle PlainHandler_ops].
  destruct (ToHandle c fs oldPath (env_uuid env) (env_arr3 env)) as [c1 oldHandle].
  cbn [fst snd] in *.
  destruct (UpdateHandle_spec c1 fs oldHandle newPath (env_arr4 env) e HI' Hl2 He)
    as (Hr & _ & Hlk).
  destruct (UpdateHandle c1 fs oldHandle newPath (env_arr4 env)) as [c2 err].
  cbn [fst snd] in *. subst err. split; [done|]. split; [done|]. split.
  - rewrite Hlk. by rewrite decide_True.
  - intros id' e' He' Hf'. rewrite Hlk. destruct (decide (id' = oldHandle)) as [->|Hne].
    + exfalso. destruct (Hothers _ _ He) as [Hc|[_ Hc]]; congruence.
    + destruct (lookup_handle c1 id') as [e0|] eqn:He0; [|by right]. left.
      destruct (Hothers _ _ He0) as [Hc|[Hc _]]; congruence.
Qed.

(** ** The rename handler and the handle cache *)

Section RenameMore.
Context {World : Type}.
Variable Stat : Filesystem → World → string → StatResult.
Variable Rename : Filesystem → World → string → string → World * RenameResult.
Variable WriteCapability : Filesystem → bool.
Variable PathNameMax : nat.
Context {FileAttribute FileCacheAttribute : Type}.
Variable ToFileAttribute : FileInfo → string → FileAttribute.
Variable AsCache : FileAttribute → FileCacheAttribute.

(** The handler after the request went through the two [FromHandle]
    calls and, when the backend has renamed, the propagation. *)
Lemma onRename_handler {H} (userHandle : Handler H) (P Q : H → Prop) (h : H) (w : World)
    (req : Request) (env : Env) :
  P h →
  (∀ h' fh a, P h' → P (h_FromHandle userHandle h' fh a).1) →
  (∀ h', P h' → Q h') →
  (∀ h' fs oldPath newPath, P h' → Q (propagate userHandle h' fs oldPath newPath env)) →
  Q (out_handler (onRename Stat Rename WriteCapability PathNameMax ToFileAttribute AsCache
                    userHandle h w req env)).
Proof.
  intros Hh Hfrom HPQ Hprop. unfold onRename.
  destruct (req_from req) as [from|]; [|by apply HPQ].
  pose proof (Hfrom h (Handle from) (env_arr1 env) Hh) as H1.
  destruct (h_FromHandle userHandle h (Handle from) (env_arr1 env)) as [h1 [fs fromPath| |]];
    cbn [fst snd] in H1; [|by apply HPQ..].
  destruct (req_to req) as [to|]; [|by apply HPQ].
  pose proof (Hfrom h1 (Handle to) (env_arr2 env) H1) as H2.
  destruct (h_FromHandle userHandle h1 (Handle to) (env_arr2 env)) as [h2 [fs2 toPath| |]];
    cbn [fst snd] in H2; [|by apply HPQ..].
  destruct (negb (bool_decide (fs = fs2))); [by apply HPQ|].
  destruct (negb (WriteCapability fs)); [by apply HPQ|].
  destruct (_ || _); [by apply HPQ|].
  destruct (Stat fs w (Join fs (elems fromPath))) as [fromDirInfo| |]; [|by apply HPQ..].
  destruct (negb (IsDir fromDirInfo)); [by apply HPQ|].
  destruct (Stat fs w (Join fs (elems toPath))) as [toDirInfo| |]; [|by apply HPQ..].
  destruct (negb (IsDir toDirInfo)); [by apply HPQ|].
  destruct (Rename fs w _ _) as [w' [| | |]]; [|by apply HPQ..].
  match goal with |- context [respond _ _ ?h ?w ?calls ?fs ?p1 ?p2 ?a1 ?a2 ?env] =>
    destruct (respond_spec Stat ToFileAttribute h w calls fs p1 p2 a1 a2 env) as (-> & _) end.
  by apply Hprop.
Qed.

(** When the request fails with another status than [ServerFault], the
    propagation has not run and nothing was written. *)
Lemma onRename_failed {H} (userHandle : Handler H) (P : H → Prop) (h : H) (w : World)
    (req : Request) (env : Env) (st : NFSStatus) :
  P h →
  (∀ h' fh a, P h' → P (h_FromHandle userHandle h' fh a).1) →
  out_err (onRename Stat Rename WriteCapability PathNameMax ToFileAttribute AsCache
             userHandle h w req env) = Some st →
  st ≠ NFSStatusServerFault →
  P (out_handler (onRename Stat Rename WriteCapability PathNameMax ToFileAttribute AsCache
                    userHandle h w req env))
  ∧ out_response (onRename Stat Rename WriteCapability PathNameMax ToFileAttribute AsCache
                    userHandle h w req env) = None.
Proof.
  intros Hh Hfrom. unfold onRename.
  destruct (req_from req) as [from|]; [|done].
  pose proof (Hfrom h (Handle from) (env_arr1 env) Hh) as H1.
  destruct (h_FromHandle userHandle h (Handle from) (env_arr1 env)) as [h1 [fs fromPath| |]];
    cbn [fst snd] in H1; [|done|done].
  destruct (req_to req) as [to|]; [|done].
  pose proof (Hfrom h1 (Handle to) (env_arr2 env) H1) as H2.
  destruct (h_FromHandle userHandle h1 (Handle to) (env_arr2 env)) as [h2 [fs2 toPath| |]];
    cbn [fst snd] in H2; [|done|done].
  destruct (negb (bool_decide (fs = fs2))); [done|].
  destruct (negb (WriteCapability fs)); [done|].
  destruct (_ || _); [done|].
  destruct (Stat fs w (Join fs (elems fromPath))) as [fromDirInfo| |]; [|done|done].
  destruct (negb (IsDir fromDirInfo)); [done|].
  destruct (Stat fs w (Join fs (elems toPath))) as [toDirInfo| |]; [|done|done].
  destruct (negb (IsDir toDirInfo)); [done|].
  destruct (Rename fs w _ _) as [w' [| | |]]; [|done|done|done].
  match goal with |- context [respond _ _ ?h ?w ?calls ?fs ?p1 ?p2 ?a1 ?a2 ?env] =>
    destruct (respond_spec Stat ToFileAttribute h w calls fs p1 p2 a1 a2 env)
      as (_ & _ & _ & [He|He]) end; rewrite He; [done|]. by intros [= <-].
Qed.

Lemma FromHandle_Len c (fh : list byte) (a : nat) :
  lru.wf (activeHandles c) →
  lru.Len (activeHandles (FromHandle c fh a).1) = lru.Len (activeHandles c).
Proof.
  intros Hw. unfold FromHandle. destruct (uuid_FromBytes fh) as [id [err|]]; [done|].
  pose proof (Len_Get (activeHandles c) id (proj1 Hw)) as Hlen.
  pose proof (wf_Get (activeHandles c) id Hw) as Hw1.
  destruct (lru.Get (activeHandles c) id) as [ah [e|]]; cbn [fst snd] in *; [|done].
  cbn [activeHandles set_activeHandles]. unfold lru.Len in *.
  by rewrite (refresh_fold_perm _ _ _ Hw1).
Qed.

(** X17. A rename request served with the caching handler evicts no
    handle and mints none, whatever its outcome: a handle is live
    afterwards exactly if it was before, with the backend it had, and the
    forward map keeps its size. *)
Theorem X17_rename_keeps_every_handle_live c (w : World) (req : Request) (env : Env) :
  lru.wf (activeHandles c) →
  let r := onRename Stat Rename WriteCapability PathNameMax ToFileAttribute AsCache
             CachingHandler_ops c w req env in
  (∀ id, entry_f <$> lookup_handle (out_handler r) id = entry_f <$> lookup_handle c id)
  ∧ lru.Len (activeHandles (out_handler r)) = lru.Len (activeHandles c).
Proof.
  intros Hw r.
  pose (P := λ h : CachingHandler,
          lru.wf (activeHandles h)
          ∧ (∀ id, entry_f <$> lookup_handle h id = entry_f <$> lookup_handle c id)
          ∧ lru.Len (activeHandles h) = lru.Len (activeHandles c)).
  assert (P (out_handler r)) as (_ & Hlk & Hlen); [|done].
  apply (onRename_handler CachingHandler_ops P P).
  - done.
  - intros h' fh a (Hw' & Hlk' & Hlen'). cbn [h_FromHandle CachingHandler_ops].
    destruct (FromHandle_state h' fh a) as (_ & Hlk1 & Hw1).
    split; [auto|]. split.
    + intros id. by rewrite Hlk1.
    + by rewrite FromHandle_Len.
  - done.
  - intros h' fs oldPath newPath (Hw' & Hlk' & Hlen'). unfold propagate.
    cbn [h_UpdateHandlesByPath CachingHandler_ops].
    destruct (UpdateHandlesByPath_lookup h' fs oldPath newPath (env_arr3 env) Hw')
      as (Hw1 & Hlk1 & _).
    split; [done|]. split.
    + intros id. rewrite Hlk1, <- Hlk'. case_decide; [|done].
      by destruct (lookup_handle h' id).
    + rewrite <- Hlen'. unfold UpdateHandlesByPath.
      destruct (reverseHandles h' !! Join fs oldPath) as [uuids|]; [|done].
      destruct (decide (length uuids = 0%nat)); [done|].
      by apply UpdateHandlesByPath_loop_Len.
Qed.

(** X18. A rename request that fails with any status other than
    [ServerFault] (a handle that does not resolve, two backends, a
    read-only backend, a name too long, a failed stat, a failed backend
    rename) retargets nothing: every handle has the entry it had, the
    reverse index is untouched, and no response body is written. This
    holds for every handler that resolves handles with the caching
    handler's [FromHandle]. *)
Theorem X18_failed_rename_leaves_handles (userHandle : Handler CachingHandler) c (w : World)
    (req : Request) (env : Env) (st : NFSStatus) :
  h_FromHandle userHandle = FromHandle →
  let r := onRename Stat Rename WriteCapability PathNameMax ToFileAttribute AsCache
             userHandle c w req env in
  out_err r = Some st → st ≠ NFSStatusServerFault →
  (∀ id, lookup_handle (out_handler r) id = lookup_handle c id)
  ∧ reverseHandles (out_handler r) = reverseHandles c
  ∧ out_response r = None.
Proof.
  intros HF r Hst Hne.
  pose (P := λ h : CachingHandler,
          (∀ id, lookup_handle h id = lookup_handle c id)
          ∧ reverseHandles h = reverseHandles c).
  destruct (onRename_failed userHandle P c w req env st) as ((Hlk & Hrh) & Hresp);
    [done| |done|done|done].
  intros h' fh a (Hlk' & Hrh'). rewrite HF.
  destruct (FromHandle_state h' fh a) as (Hrh1 & Hlk1 & _). split.
  - intros id. by rewrite Hlk1.
  - by rewrite Hrh1.
Qed.

Arguments WStatus {FileAttribute FileCacheAttribute}.
Arguments WWcc {FileAttribute FileCacheAttribute}.

(** X19. A rename request that succeeds answers with the status [Ok]
    followed by two wcc records, for the source and the destination
    directory in this order, whose pre-operation attributes are those of
    the two stats made before the backend renamed. *)
Theorem X19_rename_success_response {H} (userHandle : Handler H) (h : H) (w : World)
    (req : Request) (env : Env) :
  let r := onRename Stat Rename WriteCapability PathNameMax ToFileAttribute AsCache
             userHandle h w req env in
  out_err r = None →
  ∃ from to fs fromPath toPath fromDirInfo toDirInfo post1 post2,
    req_from req = Some from ∧ req_to req = Some to
    ∧ (h_FromHandle userHandle h (Handle from) (env_arr1 env)).2 = Resolved fs fromPath
    ∧ (h_FromHandle userHandle (h_FromHandle userHandle h (Handle from) (env_arr1 env)).1
         (Handle to) (env_arr2 env)).2 = Resolved fs toPath
    ∧ Stat fs w (Join fs (elems fromPath)) = StatInfo fromDirInfo
    ∧ Stat fs w (Join fs (elems toPath)) = StatInfo toDirInfo
    ∧ out_response r
      = Some [WStatus NFSStatusOk;
              WWcc (AsCache (ToFileAttribute fromDirInfo (Join fs (elems fromPath)))) post1;
              WWcc (AsCache (ToFileAttribute toDirInfo (Join fs (elems toPath)))) post2].
Proof.
  intros r. unfold r, onRename.
  destruct (req_from req) as [from|]; [|done].
  destruct (h_FromHandle userHandle h (Handle from) (env_arr1 env)) as [h1 [fs fromPath| |]]
    eqn:E1; [|done|done].
  destruct (req_to req) as [to|]; [|done].
  destruct (h_FromHandle userHandle h1 (Handle to) (env_arr2 env)) as [h2 [fs2 toPath| |]]
    eqn:E2; [|done|done].
  destruct (bool_decide (fs = fs2)) eqn:Efs; cbn [negb]; [|done].
  apply bool_decide_eq_true in Efs. subst fs2.
  destruct (negb (WriteCapability fs)); [done|].
  destruct (_ || _); [done|].
  destruct (Stat fs w (Join fs (elems fromPath))) as [fromDirInfo| |] eqn:ES1; [|done|done].
  destruct (negb (IsDir fromDirInfo)); [done|].
  destruct (Stat fs w (Join fs (elems toPath))) as [toDirInfo| |] eqn:ES2; [|done|done].
  destruct (negb (IsDir toDirInfo)); [done|].
  destruct (Rename fs w _ _) as [w' [| | |]]; [|done|done|done].
  unfold respond.
  destruct (io_status_ok env), (io_wcc1_ok env), (io_wcc2_ok env), (io_send_ok env);
    cbn [negb out_err out_response]; try done.
  intros _. exists from, to, fs, fromPath, toPath, fromDirInfo, toDirInfo.
  eexists _, _. rewrite E1. cbn [fst snd]. rewrite E2. done.
Qed.
(** X20. The rename handler keeps the forward map and the reverse index
    consistent, whatever the outcome of the request, with the caching
    handler and with a handler that only offers the fallback; the
    backends all join paths alike, as implementations of
    [billy.Filesystem] do, and the UUID that the fallback may need is
    new. *)
Theorem X20_rename_keeps_cache_consistent (userHandle : Handler CachingHandler) c (w : World)
    (req : Request) (env : Env) :
  userHandle = CachingHandler_ops ∨ userHandle = PlainHandler_ops →
  (∀ fs fs' (p : list string), Join fs p = Join fs' p) →
  Inv c → lookup_handle c (env_uuid env) = None → length (env_uuid env) = 16%nat →
  Inv (out_handler (onRename Stat Rename WriteCapability PathNameMax ToFileAttribute AsCache
                      userHandle c w req env)).
Proof.
  intros Hops Hj HI Hid Hl.
  apply (onRename_handler userHandle
           (λ h, Inv h ∧ lookup_handle h (env_uuid env) = None) Inv).
  - done.
  - intros h' fh a [HI' Hid'].
    assert (h_FromHandle userHandle = FromHandle) as -> by (by destruct Hops as [-> | ->]).
    split; [by apply Inv_FromHandle|].
    destruct (FromHandle_state h' fh a) as (_ & Hlk & _). by rewrite Hlk.
  - by intros h' [? _].
  - intros h' fs oldPath newPath [HI' Hid']. unfold propagate.
    destruct Hops as [-> | ->];
      cbn [h_UpdateHandlesByPath h_ToHandle h_UpdateHandle h_InvalidateHandle
           CachingHandler_ops PlainHandler_ops].
    + apply Inv_UpdateHandlesByPath; [done|]. intros id e _ _. apply Hj.
    + pose proof (Inv_ToHandle h' fs oldPath (env_uuid env) (env_arr3 env) HI' Hid' Hl) as HI1.
      destruct (ToHandle h' fs oldPath (env_uuid env) (env_arr3 env)) as [h1 oldHandle].
      cbn [fst] in HI1.
      pose proof (Inv_UpdateHandle h1 fs oldHandle newPath (env_arr4 env) HI1) as HI2.
      destruct (UpdateHandle h1 fs oldHandle newPath (env_arr4 env)) as [h2 [err|]];
        cbn [fst] in HI2; [by apply Inv_InvalidateHandle|done].
Qed.
End RenameMore.

(** ** Recency *)

Lemma searchReverseCache_loop_front uuids : ∀ (ah : lru.Cache UUID entry) fs h,
  (searchReverseCache_loop ah fs uuids).2 = Some h →
  ∃ e rest, lru.items (searchReverseCache_loop ah fs uuids).1 = (h, e) :: rest.
Proof.
  induction uuids as [|id rest IH]; intros ah fs h; [done|].
  cbn [searchReverseCache_loop]. unfold lru.Get.
  destruct (lru.find id (lru.items ah)) as [v|].
  - destruct (decide (entry_f v = fs)); [|apply IH].
    cbn [fst snd lru.items]. intros [= <-]. eauto.
  - apply IH.
Qed.

(** X21. [ToHandle] leaves the handle it returns at the front of the LRU
    list, as the most recently used entry, both when it hands out an
    existing handle and when it mints one. *)
Theorem X21_ToHandle_most_recently_used c fs (path : list string) (id : UUID) (a : nat) :
  lru.wf (activeHandles c) → lookup_handle c id = None →
  ∃ e rest,
    lru.items (activeHandles (ToHandle c fs path id a).1)
    = ((ToHandle c fs path id a).2, e) :: rest
    ∧ entry_f e = fs.
Proof.
  intros Hw Hid.
  pose proof (searchReverseCache_match c fs (Join fs path)) as Hm.
  destruct (searchReverseCache_spec c fs (Join fs path)) as (_ & _ & Hlk & Hw1).
  specialize (Hw1 Hw).
  destruct ((searchReverseCache c fs (Join fs path)).2) as [h|] eqn:Hs.
  - rewrite (ToHandle_hit c fs path id a h Hs). cbn [fst snd].
    destruct Hm as (l1 & l2 & e & _ & He & Hf & _).
    assert (∃ e' rest, lru.items (activeHandles (searchReverseCache c fs (Join fs path)).1)
                       = (h, e') :: rest) as (e' & rest & Hitems).
    { revert Hs. unfold searchReverseCache.
      destruct (reverseHandles c !! Join fs path) as [uuids|]; [|done].
      pose proof (searchReverseCache_loop_front uuids (activeHandles c) fs h) as Hfront.
      destruct (searchReverseCache_loop (activeHandles c) fs uuids) as [ah r].
      cbn [fst snd] in *. done. }
    exists e', rest. split; [done|].
    assert (lookup_handle (searchReverseCache c fs (Join fs path)).1 h = Some e') as He'.
    { unfold lookup_handle, lru.Peek. rewrite Hitems. simpl. by rewrite decide_True. }
    rewrite Hlk in He'. congruence.
  - rewrite (ToHandle_miss c fs path id a Hs).
    set (c1 := (searchReverseCache c fs (Join fs path)).1) in *.
    assert (lookup_handle c1 id = None) as Hid1 by (by rewrite Hlk).
    destruct (ToHandle_mint_lookup c1 fs path (Join fs path) id a Hw1 Hid1) as (-> & _).
    rewrite activeHandles_mint. exists (mkEntry fs (make_copy a path)).
    destruct (decide (lru.Len (activeHandles c1) < lru.size (activeHandles c1))%nat)
      as [Hlt|Hge].
    + rewrite (Add_room _ _ _ Hw1 Hid1 Hlt). eauto.
    + assert (lru.Len (activeHandles c1) = lru.size (activeHandles c1)) as Hfull.
      { destruct Hw1 as (_ & _ & Hle). unfold lru.Len in *. lia. }
      destruct (Add_full _ id (mkEntry fs (make_copy a path)) Hw1 Hid1 Hfull)
        as (l0 & ko & vo & _ & _ & ->). eauto.
Qed.

(** ** The two caches *)

Lemma activeVerifiers_loop uuidsCopy : ∀ c oldJ newJ newPathCopy updated,
  activeVerifiers (UpdateHandlesByPath_loop c oldJ newJ newPathCopy uuidsCopy updated).1
  = activeVerifiers c.
Proof.
  induction uuidsCopy as [|id rest IH]; intros c oldJ newJ newPathCopy updated; [done|].
  cbn [UpdateHandlesByPath_loop].
  destruct (lru.Get (activeHandles c) id) as [ah [e|]]; rewrite IH; [|done].
  cbn [appendReverse set_reverseHandles set_activeHandles activeVerifiers].
  by destruct (frame_evict (set_activeHandles c ah) oldJ id) as [-> _].
Qed.

(** X22. The handle cache and the verifier cache do not interfere: no
    call on handles changes the verifier cache, and storing or reading a
    listing changes neither the forward map nor the reverse index, so
    that listing traffic never makes a handle stale. *)
Theorem X22_caches_do_not_interfere sha256_Sum c (op : Op) :
  match op with
  | OpVerifierFor _ _ | OpDataForVerifier _ _ =>
      activeHandles (apply_op sha256_Sum c op) = activeHandles c
      ∧ reverseHandles (apply_op sha256_Sum c op) = reverseHandles c
  | _ => activeVerifiers (apply_op sha256_Sum c op) = activeVerifiers c
  end.
Proof.
  destruct op; cbn [apply_op].
  - unfold ToHandle. destruct (frame_search c fs (Join fs path)) as [Hv _].
    destruct (searchReverseCache c fs (Join fs path)) as [c1 [h|]]; cbn [fst] in *; [done|].
    by destruct (frame_mint c1 fs path (Join fs path) id a) as [-> _].
  - unfold FromHandle. destruct (uuid_FromBytes fh) as [id [err|]]; [done|].
    by destruct (lru.Get (activeHandles c) id) as [ah [e|]].
  - unfold InvalidateHandle. destruct (lru.Get _ _) as [ah [e|]]; [|done].
    cbn [set_activeHandles activeVerifiers].
    by destruct (frame_evict (set_activeHandles c ah) (joined e) (uuid_FromBytes handle).1)
      as [-> _].
  - unfold UpdateHandle. destruct (uuid_FromBytes handle) as [id [err|]]; [done|].
    destruct (lru.Get _ _) as [ah [e|]]; [|done].
    cbn [fst appendReverse set_reverseHandles set_activeHandles activeVerifiers].
    by destruct (frame_evict (set_activeHandles c ah) (joined e) id) as [-> _].
  - unfold UpdateHandlesByPath.
    destruct (reverseHandles c !! Join fs oldPath) as [uuids|]; [|done].
    destruct (decide (length uuids = 0%nat)); [done|]. apply activeVerifiers_loop.
  - done.
  - unfold DataForVerifier. by destruct (lru.Get _ _) as [av [v|]].
Qed.

(** ** Issuing a handle twice *)

(** C4, as the code has it. The handle that [ToHandle] returns is live,
    with the backend of the call, and filed under the joined path. A
    second call for the same backend and path that follows directly
    returns the same handle, leaves the forward map at its size, and both
    results resolve to that backend and one stored path, which joins as
    the given one does. In any later consistent state in which that
    handle is still live with that backend under that joined path (it
    was neither evicted nor invalidated nor retargeted), the second call
    mints nothing: the forward map keeps its entries and its size, and the
    handle returned is live with the same backend under the same joined
    path; it and the first handle resolve, and it is the first handle
    when no other handle of that backend is filed under that path. *)
Theorem C4_ToHandle_idempotent_while_filed c0 fs (path : list string) (id1 : UUID) (a1 : nat) :
  Inv c0 → lookup_handle c0 id1 = None → length id1 = 16%nat →
  let r1 := ToHandle c0 fs path id1 a1 in
  (∃ e1, lookup_handle r1.1 r1.2 = Some e1 ∧ entry_f e1 = fs ∧ joined e1 = Join fs path)
  ∧ (∀ id2 a2,
       let r2 := ToHandle r1.1 fs path id2 a2 in
       r2.2 = r1.2
       ∧ lru.Len (activeHandles r2.1) = lru.Len (activeHandles r1.1)
       ∧ ∃ q, Join fs q = Join fs path
              ∧ (∀ a, (FromHandle r1.1 r1.2 a).2 = Resolved fs (make_copy a q))
              ∧ (∀ a, (FromHandle r2.1 r2.2 a).2 = Resolved fs (make_copy a q)))
  ∧ ∀ c id2 a2 e1,
      Inv c → lookup_handle c r1.2 = Some e1 → entry_f e1 = fs → joined e1 = Join fs path →
      let r2 := ToHandle c fs path id2 a2 in
      lru.Len (activeHandles r2.1) = lru.Len (activeHandles c)
      ∧ (∀ id, lookup_handle r2.1 id = lookup_handle c id)
      ∧ (∃ e2, lookup_handle c r2.2 = Some e2 ∧ entry_f e2 = fs ∧ joined e2 = Join fs path
               ∧ ∀ a, (FromHandle r2.1 r2.2 a).2
                      = Resolved fs (make_copy a (elems (entry_p e2))))
      ∧ (∀ a, (FromHandle r2.1 r1.2 a).2 = Resolved fs (make_copy a (elems (entry_p e1))))
      ∧ ((∀ h e, lookup_handle c h = Some e → entry_f e = fs → joined e = Join fs path →
                 h = r1.2) → r2.2 = r1.2).
Proof.
  intros HI0 Hid Hl r1. split; [|split].
  - pose proof (Inv_ToHandle c0 fs path id1 a1 HI0 Hid Hl) as HI1. fold r1 in HI1.
    destruct (ToHandle_live c0 fs path id1 a1 HI0 Hid Hl) as ((e & He & Hf) & _ & _).
    fold r1 in He. exists e. split; [done|]. split; [done|].
    assert (in_bucket r1.1 (Join fs path) r1.2) as Hin.
    { unfold r1, ToHandle.
      pose proof (searchReverseCache_match c0 fs (Join fs path)) as Hm.
      destruct (searchReverseCache_spec c0 fs (Join fs path)) as (_ & Hrh & _).
      destruct (searchReverseCache c0 fs (Join fs path)) as [c1 [h|]]; cbn [fst snd] in *.
      - destruct Hm as (l1 & l2 & e' & Hb & _). exists (l1 ++ h :: l2).
        split; [by rewrite Hrh|]. apply elem_of_app. right. left.
      - unfold ToHandle_mint. destruct (lru.Add _ _ _) as [ah evicted]. cbn [fst snd].
        apply in_bucket_append. by right. }
    apply (inv_index _ HI1) in Hin as (e' & He' & Hj'). congruence.
  - intros id2 a2. by apply ToHandle_twice_in_a_row.
  - intros c id2 a2 e1 HI He1 Hf1 Hj1 r2.
    assert (in_bucket c (Join fs path) r1.2) as Hin1 by (apply (inv_index c HI); eauto).
    pose proof (searchReverseCache_match c fs (Join fs path)) as Hm.
    destruct (searchReverseCache_spec c fs (Join fs path)) as (_ & Hrh & Hlk & _).
    destruct (searchReverseCache_Len c fs (Join fs path) (inv_lru c HI)) as [HLen _].
    unfold r2, ToHandle.
    destruct (searchReverseCache c fs (Join fs path)) as [c1 [h|]]; cbn [fst snd] in *.
    + destruct Hm as (l1 & l2 & e2 & Hb & He2 & Hf2 & _).
      assert (joined e2 = Join fs path) as Hj2.
      { assert (in_bucket c (Join fs path) h) as Hin.
        { exists (l1 ++ h :: l2). split; [done|]. apply elem_of_app. right. left. }
        apply (inv_index c HI) in Hin as (e' & He' & Hj'). congruence. }
      split; [done|]. split; [done|]. split; [|split].
      * exists e2. split; [done|]. split; [done|]. split; [done|]. intros a.
        rewrite (FromHandle_hit c1 h a e2); [by rewrite Hf2| |by rewrite Hlk].
        by apply (inv_uuid c HI h e2).
      * intros a. rewrite (FromHandle_hit c1 r1.2 a e1); [by rewrite Hf1| |by rewrite Hlk].
        by apply (inv_uuid c HI _ e1).
      * intros Huniq. by apply (Huniq h e2).
    + exfalso. apply (Hm r1.2 e1); [by apply in_bucket_default|done|done].
Qed.

End Model.

Arguments h_ToHandle {Filesystem H}.
Arguments h_FromHandle {Filesystem H}.
Arguments h_InvalidateHandle {Filesystem H}.
Arguments h_UpdateHandle {Filesystem H}.
Arguments h_UpdateHandlesByPath {Filesystem H}.
Arguments mkOutcome {Filesystem World FileAttribute FileCacheAttribute H}.
Arguments out_err {Filesystem World FileAttribute FileCacheAttribute H}.
Arguments out_handler {Filesystem World FileAttribute FileCacheAttribute H}.
Arguments out_world {Filesystem World FileAttribute FileCacheAttribute H}.
Arguments out_calls {Filesystem World FileAttribute FileCacheAttribute H}.
Arguments out_response {Filesystem World FileAttribute FileCacheAttribute H}.
Arguments onRename {Filesystem _} Join {World} Stat Rename WriteCapability PathNameMax
  {FileAttribute FileCacheAttribute} ToFileAttribute AsCache {H}.
Arguments steps_1_to_5 {Filesystem _} Join {World} Stat WriteCapability PathNameMax {H}.

(** * The claims on concrete caches *)





(** C8, as it is stated, fails: the names [a] and [aa] are written to the
    hash with nothing between them, so the listing in the other order has
    the same digest input, and the same verifier whatever the hash. *)
Lemma C8_counterexample :
  let a := mkFileInfo "a" false in
  let aa := mkFileInfo "aa" false in
  [a; aa] ≡ₚ [aa; a] ∧ [a; aa] ≠ [aa; a]
  ∧ digest_input "/d" (Some [a; aa]) = digest_input "/d" (Some [aa; a])
  ∧ ∀ (sha : list byte → list byte) (c : @CachingHandler nat),
      (VerifierFor sha c "/d" (Some [a; aa])).2 = (VerifierFor sha c "/d" (Some [aa; a])).2.
Proof.
  intros a aa. split; [apply Permutation_swap|]. split; [discriminate|].
  split; [reflexivity|]. intros sha c. reflexivity.
Qed.

(** C9, as it is stated, fails. Backend 2 joins with a backslash. The
    handle of [a], minted through backend 1, is retargeted to [b; c] by a
    call with backend 2: its entry keeps backend 1 and joins to [b/c],
    and the handle is filed under the string that backend 2 joins. *)
Lemma C9_counterexample :
  let c := (ToHandle exampleJoinSep (emptyCache 3) 1%nat ["a"] (exampleUUID 1) 0).1 in
  let c' := (UpdateHandlesByPath exampleJoinSep c 2%nat ["a"] ["b"; "c"] 5).1 in
  Inv exampleJoinSep c
  ∧ lookup_handle c' (exampleUUID 1) = Some (mkEntry 1%nat (mkSlice 5 ["b"; "c"]))
  ∧ joined exampleJoinSep (mkEntry 1%nat (mkSlice 5 ["b"; "c"])) = "b/c"
  ∧ bucket c' "b/c" = []
  ∧ bucket c' (exampleJoinSep 2 ["b"; "c"]) = [exampleUUID 1]
  ∧ ¬ Inv exampleJoinSep c'.
Proof.
  intros c c'.
  assert (lookup_handle c' (exampleUUID 1) = Some (mkEntry 1%nat (mkSlice 5 ["b"; "c"])))
    as He by (vm_compute; reflexivity).
  assert (bucket c' (exampleJoinSep 2 ["b"; "c"]) = [exampleUUID 1]) as Hb
    by (vm_compute; reflexivity).
  split; [apply Inv_ToHandle; [apply emptyCache_Inv; lia|reflexivity|reflexivity]|].
  split; [exact He|]. split; [reflexivity|]. split; [vm_compute; reflexivity|].
  split; [exact Hb|]. intros HI'.
  assert (in_bucket c' (exampleJoinSep 2 ["b"; "c"]) (exampleUUID 1)) as Hin.
  { apply in_bucket_default. rewrite Hb. left. }
  apply (inv_index _ _ HI') in Hin as (e & He' & Hj). rewrite He in He'.
  injection He' as <-. discriminate Hj.
Qed.

(** A cache of capacity 3 with a handle for [a], retargeted to [b]. *)
Lemma C9_witness :
  let c := (ToHandle exampleJoin (emptyCache 3) 1%nat ["a"] (exampleUUID 1) 0).1 in
  NewCachingHandler 3 = Some (emptyCache (Filesystem := nat) 3)
  ∧ lookup_handle (emptyCache (Filesystem := nat) 3) (exampleUUID 1) = None
  ∧ length (exampleUUID 1) = 16%nat
  ∧ joins_alike exampleJoin c 2%nat ["a"] ["b"]
  ∧ Inv exampleJoin c
  ∧ Inv exampleJoin (UpdateHandlesByPath exampleJoin c 2%nat ["a"] ["b"] 5).1
  ∧ Inv exampleJoin (InvalidateHandle exampleJoin c 1%nat (exampleUUID 1)).
Proof.
  intros c. destruct (C9_forward_reverse_consistent exampleJoin) as [Hnew Hops].
  assert (Inv exampleJoin (emptyCache 3)) as HI0 by (apply (Hnew 3); reflexivity).
  destruct (Hops _ HI0) as (HT & _).
  assert (Inv exampleJoin c) as HI by (apply HT; reflexivity).
  destruct (Hops _ HI) as (_ & _ & Hinval & _ & Hbulk).
  assert (joins_alike exampleJoin c 2%nat ["a"] ["b"]) as Hja by (intros id e _ _; reflexivity).
  split; [reflexivity|]. split; [reflexivity|]. split; [reflexivity|]. split; [exact Hja|].
  split; [exact HI|]. split; [apply Hbulk, Hja|apply Hinval].
Defined.

(** C5, as it is stated, fails where it has a failure of the cache
    propagation surface as [ServerFault]. With a handler that offers no
    [UpdateHandlesByPath] and refuses [UpdateHandle], the file [x] is
    renamed to [y]: the refusal is answered by one [InvalidateHandle],
    the backend has renamed, and the request succeeds. *)
Lemma C5_counterexample :
  let ops := RefusingHandler_ops 1%nat in
  let w := [("", true); ("x", false)] in
  let req := mkRequest (Some (mkDirOpArg (exampleUUID 1) "x"))
               (Some (mkDirOpArg (exampleUUID 1) "y")) in
  let env := mkEnv 10 11 12 13 (exampleUUID 9) true true true true in
  let r := onRename exampleJoin exampleStat exampleRename (λ _, true) 255
             (λ info name, (info, name)) (λ attr, attr) ops 0%nat w req env in
  h_UpdateHandlesByPath ops = None
  ∧ (h_UpdateHandle ops 0%nat 1%nat (exampleUUID 9) ["y"] 13).2 = Some UpdateStale
  ∧ out_world r = [("", true); ("y", false)]
  ∧ out_handler r = 1%nat
  ∧ out_err r = None.
Proof. repeat split; vm_compute; reflexivity. Qed.


(** A cache of capacity 3; handles are issued for [A], [B], [C], [D] in
    that order: the handle of [A] is stale, the others resolve. *)
Lemma C3_witness :
  let A := mkIssue 1%nat ["A"] (exampleUUID 1) 0 in
  let B := mkIssue 1%nat ["B"] (exampleUUID 2) 1 in
  let C := mkIssue 1%nat ["C"] (exampleUUID 3) 2 in
  let D := mkIssue 1%nat ["D"] (exampleUUID 4) 3 in
  let c' := issue_all exampleJoin (emptyCache 3) [A; B; C; D] in
  NewCachingHandler 3 = Some (emptyCache (Filesystem := nat) 3)
  ∧ all_insert exampleJoin (emptyCache 3) [A; B; C; D]
  ∧ lru.Len (activeHandles c') = 3%nat
  ∧ (FromHandle c' (exampleUUID 1) 9).2 = Stale
  ∧ (FromHandle c' (exampleUUID 2) 9).2 = Resolved 1%nat (mkSlice 9 ["B"])
  ∧ (FromHandle c' (exampleUUID 3) 9).2 = Resolved 1%nat (mkSlice 9 ["C"])
  ∧ (FromHandle c' (exampleUUID 4) 9).2 = Resolved 1%nat (mkSlice 9 ["D"])
  ∧ ¬ in_bucket c' "A" (exampleUUID 1).
Proof.
  intros A B C D c'.
  assert (all_insert exampleJoin (emptyCache 3) [A; B; C; D]) as Hall.
  { repeat split; vm_compute; reflexivity. }
  assert (NoDup (issue_id <$> [A; B; C] ++ [D])) as Hnd.
  { apply (bool_decide_unpack _). vm_compute. exact I. }
  assert (Forall (λ y, length (issue_id y) = 16%nat) ([A; B; C] ++ [D])) as H16.
  { repeat constructor. }
  destruct (C3_lru_eviction exampleJoin 3 (emptyCache 3) [A; B; C] D eq_refl eq_refl
              Hnd H16 Hall) as (_ & victim & e & Hold & _ & HLen & Hstale & Hlive & Hout).
  vm_compute in Hold. injection Hold as <- _.
  split; [reflexivity|]. split; [exact Hall|]. split; [exact HLen|].
  split; [exact (Hstale 9%nat)|].
  split; [apply (Hlive B); [simpl; right; left|discriminate]|].
  split; [apply (Hlive C); [simpl; do 2 right; left|discriminate]|].
  split; [apply (Hlive D); [simpl; do 3 right; left|discriminate]|].
  apply Hout.
Defined.

(** C4, as it is stated, fails. A handle is issued for [a], then [a] is
    renamed to [b]: the handle is neither evicted nor invalidated, and a
    second call for [a] mints another handle. The forward map grows from
    one entry to two, and the two handles resolve to different paths. *)
Lemma C4_counterexample :
  let r1 := ToHandle exampleJoin (emptyCache 3) 1%nat ["a"] (exampleUUID 1) 0 in
  let c := (UpdateHandlesByPath exampleJoin r1.1 1%nat ["a"] ["b"] 5).1 in
  let r2 := ToHandle exampleJoin c 1%nat ["a"] (exampleUUID 2) 1 in
  r1.2 = exampleUUID 1
  ∧ lookup_handle c r1.2 = Some (mkEntry 1%nat (mkSlice 5 ["b"]))
  ∧ lru.Len (activeHandles c) = 1%nat
  ∧ r2.2 = exampleUUID 2
  ∧ lru.Len (activeHandles r2.1) = 2%nat
  ∧ (FromHandle r2.1 r1.2 9).2 = Resolved 1%nat (mkSlice 9 ["b"])
  ∧ (FromHandle r2.1 r2.2 9).2 = Resolved 1%nat (mkSlice 9 ["a"]).
Proof. repeat split; vm_compute; reflexivity. Qed.

(** A handle is issued for [a]; a handle for [b] is issued and the handle
    of [a] is resolved; the second call for [a] returns the handle of the
    first. *)
Lemma C4_witness :
  let r1 := ToHandle exampleJoin (emptyCache 3) 1%nat ["a"] (exampleUUID 1) 0 in
  let c1 := (ToHandle exampleJoin r1.1 1%nat ["b"] (exampleUUID 2) 1).1 in
  let c := (FromHandle c1 r1.2 7).1 in
  let r2 := ToHandle exampleJoin c 1%nat ["a"] (exampleUUID 3) 2 in
  Inv exampleJoin (emptyCache 3)
  ∧ lookup_handle (emptyCache (Filesystem := nat) 3) (exampleUUID 1) = None
  ∧ length (exampleUUID 1) = 16%nat
  ∧ Inv exampleJoin c
  ∧ lookup_handle c r1.2 = Some (mkEntry 1%nat (mkSlice 0 ["a"]))
  ∧ r2.2 = r1.2
  ∧ lru.Len (activeHandles r2.1) = lru.Len (activeHandles c)
  ∧ (FromHandle r2.1 r2.2 9).2 = Resolved 1%nat (mkSlice 9 ["a"]).
Proof.
  intros r1 c1 c r2.
  assert (Inv exampleJoin (emptyCache 3)) as HI0 by (apply emptyCache_Inv; lia).
  assert (Inv exampleJoin c) as HI.
  { apply Inv_FromHandle. repeat (apply Inv_ToHandle; [|reflexivity|reflexivity]). exact HI0. }
  assert (lookup_handle c r1.2 = Some (mkEntry 1%nat (mkSlice 0 ["a"]))) as He
    by (vm_compute; reflexivity).
  assert (lru.items (activeHandles c)
          = [(exampleUUID 1, mkEntry 1%nat (mkSlice 0 ["a"]));
             (exampleUUID 2, mkEntry 1%nat (mkSlice 1 ["b"]))]) as Hitems
    by (vm_compute; reflexivity).
  destruct (C4_ToHandle_idempotent_while_filed exampleJoin (emptyCache 3) 1%nat ["a"]
              (exampleUUID 1) 0 HI0 eq_refl eq_refl) as (_ & _ & Hgen).
  destruct (Hgen c (exampleUUID 3) 2%nat _ HI He eq_refl eq_refl)
    as (HLen & _ & _ & Hres & Huniq).
  assert (r2.2 = r1.2) as H2.
  { apply Huniq. intros h e Hh _ Hj. apply find_Some_elem in Hh. rewrite Hitems in Hh.
    apply elem_of_cons in Hh as [Hh|Hh]; [by injection Hh as -> _|].
    apply elem_of_cons in Hh as [Hh|Hh]; [injection Hh as -> ->; discriminate Hj|].
    by apply elem_of_nil in Hh. }
  split; [exact HI0|]. split; [reflexivity|]. split; [reflexivity|]. split; [exact HI|].
  split; [exact He|]. split; [exact H2|]. split; [exact HLen|].
  rewrite H2. exact (Hres 9%nat).
Defined.

(** Handles for [a], [x] and [a/b], issued in that order; resolving the
    handle of [a/b] refreshes it and the handle of [a], not the one of
    [x], and returns the path in the new array 9. *)
Lemma C7_witness :
  let c1 := (ToHandle exampleJoin (emptyCache 3) 1%nat ["a"] (exampleUUID 1) 0).1 in
  let c2 := (ToHandle exampleJoin c1 1%nat ["x"] (exampleUUID 3) 1).1 in
  let c := (ToHandle exampleJoin c2 1%nat ["a"; "b"] (exampleUUID 2) 2).1 in
  lru.wf (activeHandles c)
  ∧ length (exampleUUID 2) = 16%nat
  ∧ (∀ id e, lookup_handle c id = Some e → arr (entry_p e) ≠ 9%nat)
  ∧ lru.items (activeHandles c)
    = [(exampleUUID 2, mkEntry 1%nat (mkSlice 2 ["a"; "b"]));
       (exampleUUID 3, mkEntry 1%nat (mkSlice 1 ["x"]));
       (exampleUUID 1, mkEntry 1%nat (mkSlice 0 ["a"]))]
  ∧ lru.items (activeHandles (FromHandle c (exampleUUID 2) 9).1)
    = [(exampleUUID 2, mkEntry 1%nat (mkSlice 2 ["a"; "b"]));
       (exampleUUID 1, mkEntry 1%nat (mkSlice 0 ["a"]));
       (exampleUUID 3, mkEntry 1%nat (mkSlice 1 ["x"]))]
  ∧ (FromHandle c (exampleUUID 2) 9).2 = Resolved 1%nat (mkSlice 9 ["a"; "b"]).
Proof.
  intros c1 c2 c.
  assert (Inv exampleJoin c) as HI.
  { repeat (apply Inv_ToHandle; [|reflexivity|reflexivity]). apply emptyCache_Inv. lia. }
  assert (lru.items (activeHandles c)
          = [(exampleUUID 2, mkEntry 1%nat (mkSlice 2 ["a"; "b"]));
             (exampleUUID 3, mkEntry 1%nat (mkSlice 1 ["x"]));
             (exampleUUID 1, mkEntry 1%nat (mkSlice 0 ["a"]))]) as Hitems
    by (vm_compute; reflexivity).
  assert (∀ id e, lookup_handle c id = Some e → arr (entry_p e) ≠ 9%nat) as Hfresh.
  { intros id e He. apply find_Some_elem in He. rewrite Hitems in He.
    repeat (apply elem_of_cons in He as [He|He]; [injection He as -> ->; discriminate|]).
    by apply elem_of_nil in He. }
  pose proof (C7_FromHandle_refresh c (exampleUUID 2) 9 (inv_lru _ _ HI) eq_refl Hfresh) as H7.
  assert (lookup_handle c (exampleUUID 2) = Some (mkEntry 1%nat (mkSlice 2 ["a"; "b"]))) as He
    by (vm_compute; reflexivity).
  rewrite He in H7. destruct H7 as (Hafter & q & Hq & Helems & Harr & _).
  split; [exact (inv_lru _ _ HI)|]. split; [reflexivity|]. split; [exact Hfresh|].
  split; [exact Hitems|]. split.
  - rewrite Hafter, Hitems. vm_compute. reflexivity.
  - rewrite Hq. destruct q as [qa qe]. simpl in Helems, Harr. by subst.
Defined.

(** * The further properties on concrete caches *)

Arguments WStatus {FileAttribute FileCacheAttribute}.
Arguments WWcc {FileAttribute FileCacheAttribute}.

(** A handler for 2 handles and 3 listings, after three handles were
    issued, one was invalidated and a listing was stored. *)
Lemma X1_witness :
  let c0 : @CachingHandler nat := mkHandler (lru.mk 2 []) ∅ (lru.mk 3 []) 2 in
  let ops := [OpToHandle 1%nat ["a"] (exampleUUID 1) 0;
              OpToHandle 1%nat ["b"] (exampleUUID 2) 1;
              OpToHandle 1%nat ["c"] (exampleUUID 3) 2;
              OpInvalidateHandle 1%nat (exampleUUID 3);
              OpVerifierFor "/d" None] in
  NewCachingHandlerWithVerifierLimit 2 3 = Some c0
  ∧ HandleLimit (run exampleJoin exampleSha c0 ops) = 2
  ∧ Z.of_nat (lru.Len (activeHandles (run exampleJoin exampleSha c0 ops))) ≤ 2
  ∧ Z.of_nat (lru.Len (activeVerifiers (run exampleJoin exampleSha c0 ops))) ≤ 3.
Proof.
  intros c0 ops. split; [reflexivity|].
  exact (X1_capacities_respected exampleJoin exampleSha 2 3 c0 ops eq_refl).
Defined.

(** The only handle of [a] is invalidated: its bucket stays, empty. *)
Lemma X3_witness :
  let c := (ToHandle exampleJoin (emptyCache 3) 1%nat ["a"] (exampleUUID 1) 0).1 in
  let c' := run exampleJoin exampleSha c [OpInvalidateHandle 1%nat (exampleUUID 1)] in
  reverseHandles c !! "a" = Some [exampleUUID 1]
  ∧ reverseHandles c' !! "a" = Some []
  ∧ is_Some (reverseHandles c' !! "a").
Proof.
  intros c c'. split; [vm_compute; reflexivity|]. split; [vm_compute; reflexivity|].
  apply (proj1 (X3_buckets_are_never_deleted exampleJoin exampleSha c
                  [OpInvalidateHandle 1%nat (exampleUUID 1)]) "a").
  vm_compute. eauto.
Defined.

(** Handles for [a] and [b]; the one of [a] is invalidated. *)
Lemma X6_witness :
  let c1 := (ToHandle exampleJoin (emptyCache 3) 1%nat ["a"] (exampleUUID 1) 0).1 in
  let c := (ToHandle exampleJoin c1 1%nat ["b"] (exampleUUID 2) 1).1 in
  let c' := InvalidateHandle exampleJoin c 1%nat (exampleUUID 1) in
  Inv exampleJoin c
  ∧ length (exampleUUID 1) = 16%nat
  ∧ lookup_handle c (exampleUUID 1) = Some (mkEntry 1%nat (mkSlice 0 ["a"]))
  ∧ (FromHandle c' (exampleUUID 1) 9).2 = Stale
  ∧ ¬ in_bucket c' "a" (exampleUUID 1)
  ∧ lookup_handle c' (exampleUUID 2) = lookup_handle c (exampleUUID 2).
Proof.
  intros c1 c c'.
  assert (Inv exampleJoin c) as HI.
  { repeat (apply Inv_ToHandle; [|reflexivity|reflexivity]). apply emptyCache_Inv. lia. }
  destruct (X6_InvalidateHandle_removes exampleJoin c 1%nat (exampleUUID 1) HI eq_refl)
    as (_ & Hstale & Hout & Hothers & _).
  split; [exact HI|]. split; [reflexivity|]. split; [vm_compute; reflexivity|].
  split; [exact (Hstale 9%nat)|]. split; [exact (Hout "a")|].
  apply (Hothers (exampleUUID 2)). discriminate.
Defined.

(** The handle of [a] is invalidated; the next call for [a] gets the
    newly drawn UUID. *)
Lemma X8_witness :
  let c := (ToHandle exampleJoin (emptyCache 3) 1%nat ["a"] (exampleUUID 1) 0).1 in
  length (exampleUUID 1) = 16%nat
  ∧ exampleUUID 2 ≠ exampleUUID 1
  ∧ (ToHandle exampleJoin (InvalidateHandle exampleJoin c 1%nat (exampleUUID 1))
       1%nat ["a"] (exampleUUID 2) 5).2 ≠ exampleUUID 1.
Proof.
  intros c.
  assert (exampleUUID 2 ≠ exampleUUID 1) as Hne by discriminate.
  split; [reflexivity|]. split; [exact Hne|].
  exact (X8_invalidated_handle_not_reissued exampleJoin c 1%nat (exampleUUID 1) 1%nat ["a"]
           (exampleUUID 2) 5 eq_refl Hne).
Defined.

(** The handle of [a], minted through backend 1, is updated to [b] with
    backend 2. *)
Lemma X9_witness :
  let c1 := (ToHandle exampleJoin (emptyCache 3) 1%nat ["a"] (exampleUUID 1) 0).1 in
  let c := (ToHandle exampleJoin c1 1%nat ["x"] (exampleUUID 2) 1).1 in
  let r := UpdateHandle exampleJoin c 2%nat (exampleUUID 1) ["b"] 5 in
  Inv exampleJoin c
  ∧ length (exampleUUID 1) = 16%nat
  ∧ lookup_handle c (exampleUUID 1) = Some (mkEntry 1%nat (mkSlice 0 ["a"]))
  ∧ r.2 = None
  ∧ (FromHandle r.1 (exampleUUID 1) 9).2 = Resolved 2%nat (mkSlice 9 ["b"])
  ∧ (in_bucket r.1 "b" (exampleUUID 1) ∧ ¬ in_bucket r.1 "a" (exampleUUID 1))
  ∧ lookup_handle r.1 (exampleUUID 2) = lookup_handle c (exampleUUID 2).
Proof.
  intros c1 c r.
  assert (Inv exampleJoin c) as HI.
  { repeat (apply Inv_ToHandle; [|reflexivity|reflexivity]). apply emptyCache_Inv. lia. }
  assert (lookup_handle c (exampleUUID 1) = Some (mkEntry 1%nat (mkSlice 0 ["a"]))) as He
    by (vm_compute; reflexivity).
  destruct (X9_UpdateHandle_retargets exampleJoin c 2%nat (exampleUUID 1) ["b"] 5 _
              HI eq_refl He) as (Hr & _ & Hres & Hb & Hothers).
  split; [exact HI|]. split; [reflexivity|]. split; [exact He|]. split; [exact Hr|].
  split; [exact (Hres 9%nat)|]. split.
  - split; [by apply Hb|]. intros Hin. apply Hb in Hin. discriminate Hin.
  - apply (Hothers (exampleUUID 2)). discriminate.
Defined.

(** Handles for [a] and [b]; the handle of [a] is resolved, and a UUID
    that was never issued is asked for. *)
Lemma X11_witness :
  let c1 := (ToHandle exampleJoin (emptyCache 3) 1%nat ["a"] (exampleUUID 1) 0).1 in
  let c := (ToHandle exampleJoin c1 1%nat ["b"] (exampleUUID 2) 1).1 in
  lru.wf (activeHandles c)
  ∧ lru.items (activeHandles (FromHandle c (exampleUUID 1) 9).1) ≡ₚ lru.items (activeHandles c)
  ∧ reverseHandles (FromHandle c (exampleUUID 1) 9).1 = reverseHandles c
  ∧ FromHandle c (exampleUUID 7) 9 = (c, Stale)
  ∧ FromHandle c [x00] 9 = (c, BadHandle ErrInvalidLength).
Proof.
  intros c1 c.
  assert (Inv exampleJoin c) as HI.
  { repeat (apply Inv_ToHandle; [|reflexivity|reflexivity]). apply emptyCache_Inv. lia. }
  pose proof (inv_lru _ _ HI) as Hw.
  destruct (X11_FromHandle_only_refreshes c (exampleUUID 1) 9 Hw) as (Hp & Hrh & _).
  destruct (X11_FromHandle_only_refreshes c (exampleUUID 7) 9 Hw) as (_ & _ & _ & _ & Hmiss).
  destruct (X11_FromHandle_only_refreshes c [x00] 9 Hw) as (_ & _ & _ & Hbad & _).
  split; [exact Hw|]. split; [exact Hp|]. split; [exact Hrh|].
  split; [apply Hmiss; [reflexivity|vm_compute; reflexivity]|].
  apply Hbad. discriminate.
Defined.

(** Two handles for [a], through the backends 1 and 2, and one for [x];
    [a] is renamed to [b], then a path without handles is renamed. *)
Lemma X12_witness :
  let c1 := (ToHandle exampleJoin (emptyCache 3) 1%nat ["a"] (exampleUUID 1) 0).1 in
  let c2 := (ToHandle exampleJoin c1 2%nat ["a"] (exampleUUID 2) 1).1 in
  let c := (ToHandle exampleJoin c2 1%nat ["x"] (exampleUUID 3) 2).1 in
  let r := UpdateHandlesByPath exampleJoin c 1%nat ["a"] ["b"] 5 in
  lru.wf (activeHandles c)
  ∧ r.2 = 2
  ∧ lru.Len (activeHandles r.1) = 3%nat
  ∧ entry_f <$> lookup_handle r.1 (exampleUUID 2) = Some 2%nat
  ∧ UpdateHandlesByPath exampleJoin c 1%nat ["nothing"] ["b"] 5 = (c, 0).
Proof.
  intros c1 c2 c r.
  assert (Inv exampleJoin c) as HI.
  { repeat (apply Inv_ToHandle; [|reflexivity|reflexivity]). apply emptyCache_Inv. lia. }
  pose proof (inv_lru _ _ HI) as Hw.
  destruct (X12_UpdateHandlesByPath_keeps_handles exampleJoin c 1%nat ["a"] ["b"] 5 Hw)
    as (Hf & Hlen & _ & _).
  destruct (X12_UpdateHandlesByPath_keeps_handles exampleJoin c 1%nat ["nothing"] ["b"] 5 Hw)
    as (_ & _ & _ & Hnone).
  split; [exact Hw|]. split; [vm_compute; reflexivity|].
  split; [unfold r; rewrite Hlen; vm_compute; reflexivity|].
  split; [unfold r; rewrite (Hf (exampleUUID 2)); vm_compute; reflexivity|].
  apply Hnone. vm_compute. reflexivity.
Defined.

(** A listing of [/d] is stored and read back with another path. *)
Lemma X13_witness :
  let c := emptyCache (Filesystem := nat) 3 in
  let listing := Some [mkFileInfo "a" false; mkFileInfo "b" true] in
  let r := VerifierFor exampleSha c "/d" listing in
  lru.wf (activeVerifiers c)
  ∧ (DataForVerifier r.1 "/elsewhere" r.2).2 = listing.
Proof.
  intros c listing r.
  assert (lru.wf (activeVerifiers c)) as Hw.
  { split; [apply NoDup_nil_2|]. simpl. lia. }
  split; [exact Hw|].
  exact (proj1 (X13_verifier_round_trip exampleSha c "/d" listing Hw) "/elsewhere").
Defined.

(** The directory [ab] with the entry [c] and the directory [a] with the
    entry [bc]: the same bytes follow the length, and the length tells
    them apart. *)
Lemma X14_witness :
  let l1 := Some [mkFileInfo "c" false] in
  let l2 := Some [mkFileInfo "bc" false] in
  Z.of_nat (String.length "ab") < 2 ^ 64
  ∧ Z.of_nat (String.length "a") < 2 ^ 64
  ∧ String.list_byte_of_string "ab" ++ names_bytes (default [] l1)
    = String.list_byte_of_string "a" ++ names_bytes (default [] l2)
  ∧ digest_input "ab" l1 ≠ digest_input "a" l2.
Proof.
  intros l1 l2.
  assert (Z.of_nat (String.length "ab") < 2 ^ 64) as H1 by (vm_compute; reflexivity).
  assert (Z.of_nat (String.length "a") < 2 ^ 64) as H2 by (vm_compute; reflexivity).
  split; [exact H1|]. split; [exact H2|]. split; [reflexivity|].
  intros Heq. apply (X14_digest_input_separates_paths "ab" "a" l1 l2 H1 H2) in Heq as [Hp _].
  discriminate Hp.
Defined.

(** The fallback on a cache that holds a handle for [a]. *)
Lemma X16_witness :
  let c := (ToHandle exampleJoin (emptyCache 3) 1%nat ["a"] (exampleUUID 1) 0).1 in
  let env := mkEnv 10 11 12 13 (exampleUUID 9) true true true true in
  let c' := propagate (PlainHandler_ops exampleJoin) c 1%nat ["a"] ["b"] env in
  Inv exampleJoin c
  ∧ lookup_handle c (exampleUUID 9) = None
  ∧ length (exampleUUID 9) = 16%nat
  ∧ lookup_handle c' (exampleUUID 1) = Some (mkEntry 1%nat (mkSlice 13 ["b"])).
Proof.
  intros c env c'.
  assert (Inv exampleJoin c) as HI.
  { apply Inv_ToHandle; [apply emptyCache_Inv; lia|reflexivity|reflexivity]. }
  destruct (X16_fallback_retargets_one_handle exampleJoin c 1%nat ["a"] ["b"] env
              HI eq_refl eq_refl) as (_ & Hprop & Hlk & _).
  split; [exact HI|]. split; [reflexivity|]. split; [reflexivity|].
  unfold c'. rewrite Hprop. exact Hlk.
Defined.

(** The file [docs/readme.txt] is renamed to [docs/readme.bak] in a cache
    that holds handles for the directory and for the file. *)
Lemma X17_witness :
  let d := exampleUUID 1 in
  let h := exampleUUID 2 in
  let c1 := (ToHandle exampleJoin (emptyCache 3) 1%nat ["docs"] d 0).1 in
  let c := (ToHandle exampleJoin c1 1%nat ["docs"; "readme.txt"] h 1).1 in
  let w := [("docs", true); ("docs/readme.txt", false)] in
  let req := mkRequest (Some (mkDirOpArg d "readme.txt")) (Some (mkDirOpArg d "readme.bak")) in
  let env := mkEnv 10 11 12 13 (exampleUUID 9) true true true true in
  let r := onRename exampleJoin exampleStat exampleRename (λ _, true) 255
             (λ info name, (info, name)) (λ attr, attr) (CachingHandler_ops exampleJoin)
             c w req env in
  lru.wf (activeHandles c)
  ∧ out_err r = None
  ∧ entry_f <$> lookup_handle (out_handler r) h = Some 1%nat
  ∧ lru.Len (activeHandles (out_handler r)) = 2%nat.
Proof.
  intros d h c1 c w req env r.
  assert (Inv exampleJoin c) as HI.
  { repeat (apply Inv_ToHandle; [|reflexivity|reflexivity]). apply emptyCache_Inv. lia. }
  pose proof (inv_lru _ _ HI) as Hw.
  destruct (X17_rename_keeps_every_handle_live exampleJoin exampleStat exampleRename
              (λ _, true) 255 (λ info name, (info, name)) (λ attr, attr) c w req env Hw)
    as [Hf Hlen].
  split; [exact Hw|]. split; [vm_compute; reflexivity|]. split.
  - unfold r. rewrite (Hf h). vm_compute. reflexivity.
  - unfold r. rewrite Hlen. vm_compute. reflexivity.
Defined.

(** The file to rename does not exist: the backend answers that, and the
    handle of the directory is as it was. *)
Lemma X18_witness :
  let d := exampleUUID 1 in
  let c := (ToHandle exampleJoin (emptyCache 3) 1%nat ["docs"] d 0).1 in
  let w := [("docs", true)] in
  let req := mkRequest (Some (mkDirOpArg d "readme.txt")) (Some (mkDirOpArg d "readme.bak")) in
  let env := mkEnv 10 11 12 13 (exampleUUID 9) true true true true in
  let r := onRename exampleJoin exampleStat exampleRename (λ _, true) 255
             (λ info name, (info, name)) (λ attr, attr) (CachingHandler_ops exampleJoin)
             c w req env in
  out_err r = Some NFSStatusNoEnt
  ∧ renames (out_calls r) = [CallRename 1%nat "docs/readme.txt" "docs/readme.bak"]
  ∧ lookup_handle (out_handler r) d = lookup_handle c d
  ∧ reverseHandles (out_handler r) = reverseHandles c
  ∧ out_response r = None.
Proof.
  intros d c w req env r.
  assert (out_err r = Some NFSStatusNoEnt) as Herr by (vm_compute; reflexivity).
  destruct (X18_failed_rename_leaves_handles exampleJoin exampleStat exampleRename
              (λ _, true) 255 (λ info name, (info, name)) (λ attr, attr)
              (CachingHandler_ops exampleJoin) c w req env NFSStatusNoEnt eq_refl Herr)
    as (Hlk & Hrh & Hresp); [discriminate|].
  split; [exact Herr|]. split; [vm_compute; reflexivity|].
  split; [exact (Hlk d)|]. split; [exact Hrh|exact Hresp].
Defined.

(** The rename of [docs/readme.txt] succeeds: the answer starts with the
    status [Ok]. *)
Lemma X19_witness :
  let d := exampleUUID 1 in
  let c := (ToHandle exampleJoin (emptyCache 3) 1%nat ["docs"] d 0).1 in
  let w := [("docs", true); ("docs/readme.txt", false)] in
  let req := mkRequest (Some (mkDirOpArg d "readme.txt")) (Some (mkDirOpArg d "readme.bak")) in
  let env := mkEnv 10 11 12 13 (exampleUUID 9) true true true true in
  let r := onRename exampleJoin exampleStat exampleRename (λ _, true) 255
             (λ info name, (info, name)) (λ attr, attr) (CachingHandler_ops exampleJoin)
             c w req env in
  out_err r = None
  ∧ ∃ pre1 post1 pre2 post2,
      out_response r = Some [WStatus NFSStatusOk; WWcc pre1 post1; WWcc pre2 post2].
Proof.
  intros d c w req env r.
  assert (out_err r = None) as Herr by (vm_compute; reflexivity).
  split; [exact Herr|].
  destruct (X19_rename_success_response exampleJoin exampleStat exampleRename
              (λ _, true) 255 (λ info name, (info, name)) (λ attr, attr)
              (CachingHandler_ops exampleJoin) c w req env Herr)
    as (from & to & fs & p1 & p2 & i1 & i2 & post1 & post2 & _ & _ & _ & _ & _ & _ & Hresp).
  by eexists _, post1, _, post2.
Defined.

(** The same rename, served through the fallback. *)
Lemma X20_witness :
  let d := exampleUUID 1 in
  let h := exampleUUID 2 in
  let c1 := (ToHandle exampleJoin (emptyCache 3) 1%nat ["docs"] d 0).1 in
  let c := (ToHandle exampleJoin c1 1%nat ["docs"; "readme.txt"] h 1).1 in
  let w := [("docs", true); ("docs/readme.txt", false)] in
  let req := mkRequest (Some (mkDirOpArg d "readme.txt")) (Some (mkDirOpArg d "readme.bak")) in
  let env := mkEnv 10 11 12 13 (exampleUUID 9) true true true true in
  let r := onRename exampleJoin exampleStat exampleRename (λ _, true) 255
             (λ info name, (info, name)) (λ attr, attr) (PlainHandler_ops exampleJoin)
             c w req env in
  Inv exampleJoin c
  ∧ lookup_handle c (exampleUUID 9) = None
  ∧ length (exampleUUID 9) = 16%nat
  ∧ out_err r = None
  ∧ Inv exampleJoin (out_handler r)
  ∧ lookup_handle (out_handler r) h
    = Some (mkEntry 1%nat (mkSlice 13 ["docs"; "readme.bak"])).
Proof.
  intros d h c1 c w req env r.
  assert (Inv exampleJoin c) as HI.
  { repeat (apply Inv_ToHandle; [|reflexivity|reflexivity]). apply emptyCache_Inv. lia. }
  split; [exact HI|]. split; [reflexivity|]. split; [reflexivity|].
  split; [vm_compute; reflexivity|]. split; [|vm_compute; reflexivity].
  apply (X20_rename_keeps_cache_consistent exampleJoin exampleStat exampleRename
           (λ _, true) 255 (λ info name, (info, name)) (λ attr, attr)
           (PlainHandler_ops exampleJoin) c w req env);
    [by right|reflexivity|exact HI|reflexivity|reflexivity].
Defined.

(** A handle for [a] is issued, then one for [b], then [a] is asked for
    again: each time the handle returned is at the front. *)
Lemma X21_witness :
  let c1 := (ToHandle exampleJoin (emptyCache 3) 1%nat ["a"] (exampleUUID 1) 0).1 in
  let c := (ToHandle exampleJoin c1 1%nat ["b"] (exampleUUID 2) 1).1 in
  let r := ToHandle exampleJoin c 1%nat ["a"] (exampleUUID 3) 2 in
  lru.wf (activeHandles c)
  ∧ lookup_handle c (exampleUUID 3) = None
  ∧ lru.Keys (activeHandles c) = [exampleUUID 1; exampleUUID 2]
  ∧ r.2 = exampleUUID 1
  ∧ ∃ e rest, lru.items (activeHandles r.1) = (r.2, e) :: rest ∧ entry_f e = 1%nat.
Proof.
  intros c1 c r.
  assert (Inv exampleJoin c) as HI.
  { repeat (apply Inv_ToHandle; [|reflexivity|reflexivity]). apply emptyCache_Inv. lia. }
  pose proof (inv_lru _ _ HI) as Hw.
  split; [exact Hw|]. split; [reflexivity|]. split; [vm_compute; reflexivity|].
  split; [vm_compute; reflexivity|].
  exact (X21_ToHandle_most_recently_used exampleJoin c 1%nat ["a"] (exampleUUID 3) 2 Hw
           eq_refl).
Defined.
